(** * Order aggregation and presentation engine

    A shallow embedding of the data-processing functions of the WhatsApp
    order dashboard:

    - [frontend/src/data/mockData.js]: [getOrdersSummary], [getTopItems],
      [getOrdersOverTime], [getDashboardStats];
    - the [OrdersTable] component: [flattenedOrders], [itemTypes],
      [filteredAndSortedOrders], the pagination and the sort handler;
    - the summary panel ([getTotalStats]), the dashboard page
      ([recentOrders]) and the export page (the customer summary of
      [handleExport]);
    - the utility functions [truncateText], [isValidPhoneNumber],
      [formatPhoneNumber], [groupBy] and [uniqueBy].

    Conventions of the embedding.
    - A JavaScript number is a double. The embedding holds the
      integer-valued ones as integers of [Z]: an integer of at most 53
      significant bits below [2 ^ 1024] in magnitude, and [2 ^ 1024] and
      [- 2 ^ 1024], which stand for [Infinity] and [-Infinity]. A sum is
      rounded to the nearest double, ties to even ([Js.add]). The
      quantities and ids of the orders are integers, as the data model
      has them; [NaN] is [None] where it can arise.
    - A JavaScript string is a sequence of code units; the embedding holds
      the strings of code units below 256 as [string]s, one character
      per code unit. The case mapping of [toLowerCase] is the engine's,
      a parameter of the development ([Js.CaseMapping]): what is proved
      holds for every mapping; the examples run with the mapping of the
      ASCII letters.
    - A plain object used as a dictionary is the list of its own
      properties in creation order ([Js.JsObject]); reading a key that the
      object does not own but [Object.prototype] provides is a separate
      outcome ([Js.Inherited]).
    - Arrays are lists; where the code sorts an array that may be shared,
      arrays live in a store and are named by locations ([OrdersTable]). *)

From Stdlib Require Import ZArith String Ascii DecimalString DecimalPos DecimalZ.
From stdpp Require Import base list sorting gmap strings.

Local Open Scope string_scope.
Local Open Scope list_scope.
Local Open Scope Z_scope.

(** * JavaScript primitives used by the code *)

Module Js.

(** ** Strings *)

(** [s.split(sep)[0]] for a one-character separator: the text before the
    first separator, the whole string when there is none. *)
Fixpoint split_head (sep : ascii) (s : string) : string :=
  match s with
  | EmptyString => EmptyString
  | String c r =>
      if Ascii.eqb c sep then EmptyString else String c (split_head sep r)
  end.

(** [s.includes(needle)] *)
Fixpoint includes (needle s : string) : bool :=
  String.prefix needle s ||
  match s with
  | EmptyString => false
  | String _ r => includes needle r
  end.

(** Relative index of [slice]: negative counts from the end, and the
    result is clamped to [0 .. len]. *)
Definition rel_index (len i : Z) : Z :=
  if i <? 0 then Z.max (len + i) 0 else Z.min i len.

(** [s.slice(b, e)] *)
Definition str_slice (s : string) (b e : Z) : string :=
  let len := Z.of_nat (String.length s) in
  let from := rel_index len b in
  let to := rel_index len e in
  String.substring (Z.to_nat from) (Z.to_nat (to - from)) s.

(** [s.slice(b)] *)
Definition str_slice_from (s : string) (b : Z) : string :=
  str_slice s b (Z.of_nat (String.length s)).

(** [s.toLowerCase()]: the lower-case mapping the engine applies, that
    of the Unicode standard for the text at hand. *)
Class CaseMapping : Type := toLowerCase : string -> string.

Definition is_upper (c : ascii) : bool :=
  (65 <=? nat_of_ascii c)%nat && (nat_of_ascii c <=? 90)%nat.

Definition lower_char (c : ascii) : ascii :=
  if is_upper c then ascii_of_nat (nat_of_ascii c + 32) else c.

(** The mapping on text of ASCII characters, where every engine maps
    [A-Z] to [a-z] and nothing else. *)
Fixpoint ascii_toLowerCase (s : string) : string :=
  match s with
  | EmptyString => EmptyString
  | String c r => String (lower_char c) (ascii_toLowerCase r)
  end.

Definition ascii_lower : CaseMapping := ascii_toLowerCase.

(** ** Numbers *)

(** The integer of at most 53 significant bits nearest to [z], the one
    with an even last bit when two are as near. *)
Definition round53 (z : Z) : Z :=
  let m := Z.abs z in
  if m <=? 2 ^ 53 then z
  else
    let e := Z.log2 m - 52 in
    let q := m / 2 ^ e in
    let r := m mod 2 ^ e in
    let half := 2 ^ (e - 1) in
    let q' := if r <? half then q
              else if half <? r then q + 1
              else if Z.even q then q else q + 1 in
    Z.sgn z * (q' * 2 ^ e).

(** [Infinity] *)
Definition infinity : Z := 2 ^ 1024.

Definition is_infinite (z : Z) : bool := infinity <=? Z.abs z.

(** The double for the integer [z]: the rounded integer, and an
    infinity when that is out of range. *)
Definition to_double (z : Z) : Z :=
  let r := round53 z in
  if is_infinite r then Z.sgn r * infinity else r.

(** [a + b], for all but the sum of [Infinity] and [-Infinity]: an
    infinity stays what it is. *)
Definition add (a b : Z) : Z :=
  if is_infinite a then a
  else if is_infinite b then b
  else to_double (a + b).

(** [a + b] where both operands can be infinite or [NaN]. *)
Definition add_nan (a b : option Z) : option Z :=
  match a, b with
  | Some x, Some y =>
      if is_infinite x && is_infinite y && negb (Z.sgn x =? Z.sgn y)
      then None
      else Some (add x y)
  | _, _ => None
  end.

Definition is_digit (c : ascii) : bool :=
  (48 <=? nat_of_ascii c)%nat && (nat_of_ascii c <=? 57)%nat.

Definition digit_value (c : ascii) : Z := Z.of_nat (nat_of_ascii c) - 48.

(** White space and line terminators among the code units below 256. *)
Definition is_space (c : ascii) : bool :=
  let n := nat_of_ascii c in
  (n =? 32)%nat || ((9 <=? n)%nat && (n <=? 13)%nat) || (n =? 160)%nat.

Fixpoint skip_spaces (s : string) : string :=
  match s with
  | String c r => if is_space c then skip_spaces r else s
  | EmptyString => s
  end.

Definition hex_value (c : ascii) : option Z :=
  let n := nat_of_ascii c in
  if is_digit c then Some (Z.of_nat n - 48)
  else if (97 <=? n)%nat && (n <=? 102)%nat then Some (Z.of_nat n - 87)
  else if (65 <=? n)%nat && (n <=? 70)%nat then Some (Z.of_nat n - 55)
  else None.

Definition radix_value (radix : Z) (c : ascii) : option Z :=
  if radix =? 16 then hex_value c
  else if is_digit c then Some (digit_value c) else None.

(** The longest prefix of radix digits, read as a number; [None] when
    it is empty. [acc] is [None] until a digit has been read. *)
Fixpoint read_digits (radix : Z) (acc : option Z) (s : string) : option Z :=
  match s with
  | EmptyString => acc
  | String c r =>
      match radix_value radix c with
      | Some d => read_digits radix (Some (radix * default 0 acc + d)) r
      | None => acc
      end
  end.

(** [parseInt(s)] with no radix argument: leading white space, an
    optional sign, an optional [0x] prefix, then digits, read exactly
    and rounded to a double, as the standard has it for up to 20
    significant digits and allows for more; [None] is [NaN]. *)
Definition parseInt (s : string) : option Z :=
  let s := skip_spaces s in
  let '(sign, s) :=
    match s with
    | String "-" r => (-1, r)
    | String "+" r => (1, r)
    | _ => (1, s)
    end in
  let '(radix, s) :=
    match s with
    | String "0" (String "x" r) => (16, r)
    | String "0" (String "X" r) => (16, r)
    | _ => (10, s)
    end in
  (fun n => to_double (sign * n)) <$> read_digits radix None s.

(** The decimal text of an integer, as a template literal prints a
    number below [10 ^ 21] in magnitude. *)
Definition number_to_string (n : Z) : string :=
  NilZero.string_of_int (Z.to_int n).

(** [a < b] on strings: code-unit lexicographic order. *)
Definition str_lt (a b : string) : bool := String.ltb a b.

(** ** Arrays *)

(** [l.slice(b, e)] *)
Definition slice {A} (l : list A) (b e : Z) : list A :=
  let len := Z.of_nat (length l) in
  let from := rel_index len b in
  let to := rel_index len e in
  take (Z.to_nat (to - from)) (drop (Z.to_nat from) l).

(** [l.sort(cmp)]. The language requires the sort to be stable; for a
    consistent comparator that fixes the result, which insertion from
    the right computes: [x] goes in front of the first element it does
    not compare greater than. A comparator result of [NaN] counts as
    [0], which callers apply before handing [cmp] over. *)
Fixpoint insert {A} (cmp : A -> A -> Z) (x : A) (l : list A) : list A :=
  match l with
  | [] => [x]
  | y :: r => if cmp x y <=? 0 then x :: y :: r else y :: insert cmp x r
  end.

Definition sort {A} (cmp : A -> A -> Z) (l : list A) : list A :=
  foldr (insert cmp) [] l.

(** ** Plain objects used as dictionaries *)

(** The own properties of an object created by [{}], in creation
    order. *)
Definition JsObject (V : Type) : Type := list (string * V).

(** The property names every plain object inherits. *)
Definition Object_prototype : list string :=
  [ "constructor"; "hasOwnProperty"; "isPrototypeOf";
    "propertyIsEnumerable"; "toLocaleString"; "toString"; "valueOf";
    "__defineGetter__"; "__defineSetter__"; "__lookupGetter__";
    "__lookupSetter__"; "__proto__" ].

Definition inherited (k : string) : bool :=
  existsb (String.eqb k) Object_prototype.

Inductive Lookup (V : Type) : Type :=
| Own (v : V)
| Inherited
| Undefined.
Arguments Own {V} v.
Arguments Inherited {V}.
Arguments Undefined {V}.

Fixpoint get_own {V} (k : string) (o : JsObject V) : option V :=
  match o with
  | [] => None
  | (k', v) :: r => if String.eqb k' k then Some v else get_own k r
  end.

(** [o[k]] *)
Definition get {V} (k : string) (o : JsObject V) : Lookup V :=
  match get_own k o with
  | Some v => Own v
  | None => if inherited k then Inherited else Undefined
  end.

(** [o[k] = v] for a key that is own or not inherited: an own property
    keeps its place, a new one is created last. *)
Fixpoint set {V} (k : string) (v : V) (o : JsObject V) : JsObject V :=
  match o with
  | [] => [(k, v)]
  | (k', v') :: r =>
      if String.eqb k' k then (k, v) :: r else (k', v') :: set k v r
  end.

(** In-place update of the value stored under an own key. *)
Fixpoint modify {V} (k : string) (f : V -> V) (o : JsObject V) : JsObject V :=
  match o with
  | [] => []
  | (k', v) :: r =>
      if String.eqb k' k then (k', f v) :: r else (k', v) :: modify k f r
  end.

Fixpoint all_digits (s : string) : bool :=
  match s with
  | EmptyString => true
  | String c r => is_digit c && all_digits r
  end.

Fixpoint decimal_value (acc : Z) (s : string) : Z :=
  match s with
  | EmptyString => acc
  | String c r => decimal_value (10 * acc + digit_value c) r
  end.

(** A key is an array index when it is the canonical decimal text of
    an integer in [0 .. 2^32 - 2]. *)
Definition is_array_index (k : string) : bool :=
  match k with
  | EmptyString => false
  | String c r =>
      all_digits k
      && (negb (Ascii.eqb c "0") || String.eqb r EmptyString)
      && (decimal_value 0 k <? 2 ^ 32 - 1)
  end.

Definition index_of {V} (e : string * V) : Z := decimal_value 0 e.1.

(** [Object.entries(o)]: array-index keys first, in ascending numeric
    order, then the other keys in creation order. *)
Definition entries {V} (o : JsObject V) : list (string * V) :=
  sort (fun a b => index_of a - index_of b)
       (List.filter (fun e => is_array_index e.1) o)
  ++ List.filter (fun e => negb (is_array_index e.1)) o.

(** [Object.values(o)] *)
Definition values {V} (o : JsObject V) : list V := (entries o).*2.

End Js.

(** * [frontend/src/data/mockData.js] *)

Module MockData.

(** One entry of [order.orders]. *)
Record LineItem : Type := { item : string; qty : Z }.

(** An element of the [orders] array, shaped as [mockOrders] shows. *)
Record Order : Type := {
  id : Z;
  name : string;
  phone : string;
  orders : list LineItem;
  time : string;
  date : string
}.

(** An element of the array [getOrdersSummary] returns. *)
Record Summary : Type := {
  sum_name : string;
  sum_phone : string;
  items : list LineItem;
  totalQuantity : Z
}.

Inductive result (A : Type) : Type :=
| Ok (a : A)
| TypeError.
Arguments Ok {A} a.
Arguments TypeError {A}.

(** ** getOrdersSummary *)

(** [`${order.name}_${order.phone}`] *)
Definition summary_key (order : Order) : string :=
  name order +:+ "_" +:+ phone order.

(** [existingItem.qty += q] on the first element named [i]. *)
Fixpoint add_qty (i : string) (q : Z) (l : list LineItem) : list LineItem :=
  match l with
  | [] => []
  | x :: r =>
      if String.eqb (item x) i
      then {| item := item x; qty := Js.add (qty x) q |} :: r
      else x :: add_qty i q r
  end.

(** The body of the inner [forEach], on the summary stored under the
    key of the order. *)
Definition add_item (it : LineItem) (s : Summary) : Summary :=
  {| sum_name := sum_name s;
     sum_phone := sum_phone s;
     items :=
       match List.find (fun i => String.eqb (item i) (item it)) (items s) with
       | Some _ => add_qty (item it) (qty it) (items s)
       | None => items s ++ [ {| item := item it; qty := qty it |} ]
       end;
     totalQuantity := Js.add (totalQuantity s) (qty it) |}.

(** The inner [forEach] over [order.orders]. *)
Definition add_items (key : string) (its : list LineItem)
    (summary : Js.JsObject Summary) : Js.JsObject Summary :=
  fold_left (fun summary it => Js.modify key (add_item it) summary) its summary.

(** The body of the outer [forEach]. When the key names a member of
    [Object.prototype], [summary[key]] is that member: no summary is
    created, and the first line item fails on [summary[key].items.find],
    [items] being undefined there. *)
Definition summary_step (summary : Js.JsObject Summary) (order : Order)
    : result (Js.JsObject Summary) :=
  let key := summary_key order in
  match Js.get key summary with
  | Js.Undefined =>
      let fresh :=
        {| sum_name := name order; sum_phone := phone order;
           items := []; totalQuantity := 0 |} in
      Ok (add_items key (orders order) (Js.set key fresh summary))
  | Js.Own _ => Ok (add_items key (orders order) summary)
  | Js.Inherited =>
      match orders order with
      | [] => Ok summary
      | _ :: _ => TypeError
      end
  end.

Fixpoint summary_loop (summary : Js.JsObject Summary) (l : list Order)
    : result (Js.JsObject Summary) :=
  match l with
  | [] => Ok summary
  | order :: r =>
      match summary_step summary order with
      | Ok summary' => summary_loop summary' r
      | TypeError => TypeError
      end
  end.

Definition getOrdersSummary (l : list Order) : result (list Summary) :=
  match summary_loop [] l with
  | Ok summary => Ok (Js.values summary)
  | TypeError => TypeError
  end.

(** ** getTopItems *)

(** An element of the array [getTopItems] returns. *)
Record TopItem : Type := { top_item : string; count : Z }.

(** [itemCounts[item.item] = (itemCounts[item.item] || 0) + item.qty].
    For an item named like a member of [Object.prototype] the left
    operand is that member and the sum is a string: the counters leave
    the numbers and the result is [None]. *)
Definition count_step (itemCounts : Js.JsObject Z) (it : LineItem)
    : option (Js.JsObject Z) :=
  match Js.get (item it) itemCounts with
  | Js.Own n =>
      Some (Js.set (item it) (Js.add (if n =? 0 then 0 else n) (qty it)) itemCounts)
  | Js.Undefined => Some (Js.set (item it) (Js.add 0 (qty it)) itemCounts)
  | Js.Inherited => None
  end.

Fixpoint count_loop (itemCounts : Js.JsObject Z) (l : list LineItem)
    : option (Js.JsObject Z) :=
  match l with
  | [] => Some itemCounts
  | it :: r =>
      match count_step itemCounts it with
      | Some itemCounts' => count_loop itemCounts' r
      | None => None
      end
  end.

(** The two nested [forEach] visit the line items of all orders in
    order. *)
Definition item_counts (l : list Order) : option (Js.JsObject Z) :=
  count_loop [] (flat_map orders l).

(** [([,a], [,b]) => b - a]: the sort reads the sign only, which is that
    of the difference of the integers; [Infinity - Infinity] is [NaN],
    which the sort reads as [0]. *)
Definition by_count (a b : string * Z) : Z := b.2 - a.2.

(** [Object.entries(itemCounts).sort(([,a], [,b]) => b - a)] *)
Definition ranking (itemCounts : Js.JsObject Z) : list (string * Z) :=
  Js.sort by_count (Js.entries itemCounts).

(** [([item, count]) => ({ item, count })] *)
Definition top_entry (e : string * Z) : TopItem :=
  {| top_item := e.1; count := e.2 |}.

(** [getTopItems(orders, limit = 10)]; the limit is [None] when the
    caller leaves it out. *)
Definition getTopItems (l : list Order) (limit : option Z)
    : option (list TopItem) :=
  let limit := default 10 limit in
  match item_counts l with
  | Some itemCounts =>
      Some (map top_entry (Js.slice (ranking itemCounts) 0 limit))
  | None => None
  end.

(** ** getOrdersOverTime *)

(** An element of the array [getOrdersOverTime] returns. *)
Record TimePoint : Type := { tp_time : string; tp_orders : Z }.

(** [`${hour}${period}`] *)
Definition timeKey (order : Order) : string :=
  let hour := Js.split_head ":" (time order) in
  let period := if Js.includes "PM" (time order) then "PM" else "AM" in
  hour +:+ period.

(** [timeData[timeKey] = (timeData[timeKey] || 0) + 1]. A key ends in
    [AM] or [PM], so it is never inherited ([timeKey_not_inherited]):
    the own properties decide the read. A count is at most the length
    of the array of orders, which is below [2 ^ 32]: adding 1 to it is
    exact. *)
Definition time_step (timeData : Js.JsObject Z) (order : Order) : Js.JsObject Z :=
  let k := timeKey order in
  match Js.get_own k timeData with
  | Some n => Js.set k ((if n =? 0 then 0 else n) + 1) timeData
  | None => Js.set k (0 + 1) timeData
  end.

(** [None] is [NaN]. *)
Definition getHour (timeStr : string) : option Z :=
  let hour := Js.parseInt (Js.str_slice timeStr 0 (-2)) in
  let period := Js.str_slice_from timeStr (-2) in
  match hour with
  | Some h =>
      if String.eqb period "PM" && negb (h =? 12) then Some (Js.add h 12) else Some h
  | None => None
  end.

(** [getHour(a.time) - getHour(b.time)], [NaN] read as [0]; the sort
    reads the sign only, which is that of the difference of the
    integers, and the difference of two equal infinities is [NaN]. *)
Definition compare_hours (a b : TimePoint) : Z :=
  match getHour (tp_time a), getHour (tp_time b) with
  | Some x, Some y => x - y
  | _, _ => 0
  end.

(** [([time, count]) => ({ time, orders: count })] *)
Definition time_point (e : string * Z) : TimePoint :=
  {| tp_time := e.1; tp_orders := e.2 |}.

Definition getOrdersOverTime (l : list Order) : list TimePoint :=
  let timeData := fold_left time_step l [] in
  Js.sort compare_hours (map time_point (Js.entries timeData)).

End MockData.

(** * The [OrdersTable] component *)

Module OrdersTable.
Import MockData.

(** An element of [flattenedOrders]. *)
Record FlattenedRow : Type := {
  row_id : string;
  row_name : string;
  row_phone : string;
  row_item : string;
  quantity : Z;
  row_time : string;
  row_date : string
}.

(** [`${order.id}-${item.item}`] *)
Definition composite_id (order : Order) (it : LineItem) : string :=
  Js.number_to_string (id order) +:+ "-" +:+ item it.

Definition flatten_order (order : Order) : list FlattenedRow :=
  map (fun it =>
         {| row_id := composite_id order it;
            row_name := name order;
            row_phone := phone order;
            row_item := item it;
            quantity := qty it;
            row_time := time order;
            row_date := date order |})
      (orders order).

(** [orders.flatMap(order => order.orders.map(...))] *)
Definition flattenedOrders (l : list Order) : list FlattenedRow :=
  flat_map flatten_order l.

(** The [filters] and [sortConfig] states. *)
Record Filters : Type := { search : string; itemType : string }.
Record SortConfig : Type := { key : string; direction : string }.

(** A non-empty string is truthy. *)
Definition truthy (s : string) : bool := negb (String.eqb s EmptyString).

Section case_mapping.
Context `{cm : Js.CaseMapping}.

(** The predicate of the search filter. *)
Definition matches_search (text : string) (order : FlattenedRow) : bool :=
  let searchLower := Js.toLowerCase text in
  Js.includes searchLower (Js.toLowerCase (row_name order))
  || Js.includes text (row_phone order)
  || Js.includes searchLower (Js.toLowerCase (row_item order)).

(** What [a[sortConfig.key]] can be. [VOther] stands for [undefined]
    and for the members of [Object.prototype]: the same value in every
    row, not a string, and neither [<] nor [>] holds between two of
    them. *)
Inductive Value : Type :=
| VString (s : string)
| VNumber (n : Z)
| VOther.

(** [order[key]] *)
Definition field (k : string) (order : FlattenedRow) : Value :=
  if String.eqb k "id" then VString (row_id order)
  else if String.eqb k "name" then VString (row_name order)
  else if String.eqb k "phone" then VString (row_phone order)
  else if String.eqb k "item" then VString (row_item order)
  else if String.eqb k "quantity" then VNumber (quantity order)
  else if String.eqb k "time" then VString (row_time order)
  else if String.eqb k "date" then VString (row_date order)
  else VOther.

Definition lower_value (v : Value) : Value :=
  match v with
  | VString s => VString (Js.toLowerCase s)
  | _ => v
  end.

(** [a < b] on two values read from one column. *)
Definition value_lt (a b : Value) : bool :=
  match a, b with
  | VString x, VString y => Js.str_lt x y
  | VNumber x, VNumber y => x <? y
  | _, _ => false
  end.

(** The comparator handed to [filtered.sort]. *)
Definition compare_rows (cfg : SortConfig) (a b : FlattenedRow) : Z :=
  let aValue := field (key cfg) a in
  let bValue := field (key cfg) b in
  let '(aValue, bValue) :=
    match aValue with
    | VString _ => (lower_value aValue, lower_value bValue)
    | _ => (aValue, bValue)
    end in
  if value_lt aValue bValue
  then (if String.eqb (direction cfg) "asc" then -1 else 1)
  else if value_lt bValue aValue
  then (if String.eqb (direction cfg) "asc" then 1 else -1)
  else 0.

End case_mapping.

(** Arrays are objects with identity: [filter] makes a new one,
    [sort] reorders the one it is called on. The store maps the
    location of an array to its elements. *)
Definition loc : Type := positive.
Abbreviation store := (gmap loc (list FlattenedRow)).

Definition read (a : loc) (h : store) : list FlattenedRow :=
  default [] (h !! a).

(** A new array holding [rows]. *)
Definition alloc (rows : list FlattenedRow) (h : store) : loc * store :=
  let a := fresh (dom h) in (a, <[a := rows]> h).

(** [a.filter(p)] *)
Definition array_filter (p : FlattenedRow -> bool) (a : loc) (h : store)
    : loc * store :=
  alloc (List.filter p (read a h)) h.

(** [a.sort(cmp)] *)
Definition array_sort (cmp : FlattenedRow -> FlattenedRow -> Z) (a : loc)
    (h : store) : store :=
  <[a := Js.sort cmp (read a h)]> h.

(** The body of the [filteredAndSortedOrders] memo; [flattened] is the
    array the [flattenedOrders] memo holds. *)
Definition filteredAndSortedOrders `{cm : Js.CaseMapping}
    (filters : Filters) (sortConfig : SortConfig)
    (flattened : loc) (h : store) : loc * store :=
  let filtered := flattened in
  let '(filtered, h) :=
    if truthy (search filters)
    then array_filter (matches_search (search filters)) filtered h
    else (filtered, h) in
  let '(filtered, h) :=
    if truthy (itemType filters)
    then array_filter (fun order => String.eqb (row_item order) (itemType filters))
                      filtered h
    else (filtered, h) in
  let h :=
    if truthy (key sortConfig)
    then array_sort (compare_rows sortConfig) filtered h
    else h in
  (filtered, h).

End OrdersTable.

(** * Vocabulary of the statements *)

Import MockData OrdersTable.

(** The distinct elements of a list, in the order of their first
    occurrences. *)
Definition first_seen (l : list string) : list string :=
  fold_left (fun (acc : list string) k =>
               if decide (k ∈ acc) then acc else (acc ++ [k])%list) l [].

(** [a] occurs in [l] at a position in front of an occurrence of [b]. *)
Definition before {A} (a b : A) (l : list A) : Prop :=
  exists l1 l2 l3, l = l1 ++ a :: l2 ++ b :: l3.

(** [k] is first seen in [l] ahead of [k']. *)
Definition seen_before (k k' : string) (l : list string) : Prop :=
  exists l1 l2, l = l1 ++ k :: l2 /\ (k ∉ l1) /\ (k' ∉ l1).

(** The number the code has after it added the quantities of [l] to
    [acc] one after the other, every sum rounded to a double. *)
Definition add_qtys (acc : Z) (l : list LineItem) : Z :=
  fold_left (fun acc it => Js.add acc (qty it)) l acc.

(** The sum of the quantities of [l] as the code computes it, from 0. *)
Definition sum_qty (l : list LineItem) : Z := add_qtys 0 l.

(** The sum of every line-item quantity of every order, as the code
    computes it. *)
Definition total_qty (l : list Order) : Z := sum_qty (flat_map orders l).

(** The exact sum of the quantities, and of their magnitudes. *)
Fixpoint exact_qty (l : list LineItem) : Z :=
  match l with
  | [] => 0
  | it :: r => qty it + exact_qty r
  end.

Definition exact_total (l : list Order) : Z := exact_qty (flat_map orders l).

Fixpoint abs_qty (l : list LineItem) : Z :=
  match l with
  | [] => 0
  | it :: r => Z.abs (qty it) + abs_qty r
  end.

(** The quantities are small enough for every sum of some of them to be
    exact: their magnitudes add up to [2 ^ 53] at most. *)
Definition safe_quantities (l : list Order) : Prop :=
  abs_qty (flat_map orders l) <= 2 ^ 53.

(** The exact sum of the [totalQuantity] of the summaries, and of their
    magnitudes. *)
Fixpoint sum_totals (l : list Summary) : Z :=
  match l with
  | [] => 0
  | s :: r => totalQuantity s + sum_totals r
  end.

Fixpoint abs_totals (l : list Summary) : Z :=
  match l with
  | [] => 0
  | s :: r => Z.abs (totalQuantity s) + abs_totals r
  end.

(** The loops of [mockData.js] keep one value per key: the first element
    with a new key stores [init], each later one applies [step] to the
    stored value. *)
Section grouping_defs.
Context {X V : Type} (keyf : X -> string) (init : X -> V) (step : X -> V -> V).

Definition group_step (o : Js.JsObject V) (x : X) : Js.JsObject V :=
  match Js.get_own (keyf x) o with
  | Some _ => Js.modify (keyf x) (step x) o
  | None => Js.set (keyf x) (init x) o
  end.

Definition group_of (k : string) (xs : list X) : list X :=
  List.filter (fun x => String.eqb (keyf x) k) xs.

Definition group_value (g : list X) : option V :=
  match g with
  | [] => None
  | x :: r => Some (fold_left (fun v y => step y v) r (init x))
  end.

(** [o] holds, for the elements [xs] seen so far, the keys in
    first-seen order and under each key the value of its group. *)
Definition grouped (o : Js.JsObject V) (xs : list X) : Prop :=
  o.*1 = first_seen (map keyf xs)
  /\ forall k, Js.get_own k o = group_value (group_of k xs).
End grouping_defs.

(** The summary a new customer starts with, and what one order does to
    the summary of its customer. *)
Definition fresh_summary (order : Order) : Summary :=
  {| sum_name := name order; sum_phone := phone order;
     items := []; totalQuantity := 0 |}.

Definition summary_add (order : Order) (s : Summary) : Summary :=
  fold_left (fun s it => add_item it s) (orders order) s.

Definition summary_init (order : Order) : Summary :=
  summary_add order (fresh_summary order).

(** The key under which a summary is stored, read back from it. *)
Definition key_of_summary (s : Summary) : string :=
  sum_name s +:+ "_" +:+ sum_phone s.

(** The item names of all orders, in the order the loops visit them. *)
Definition item_names (l : list Order) : list string :=
  map item (flat_map orders l).

(** The three-record scenario: two spellings of one customer, and a
    second customer. *)
Definition raj : Order :=
  {| id := 1; name := "Raj"; phone := "9999999999";
     orders := [ {| item := "Shirt"; qty := 10 |}; {| item := "Jeans"; qty := 5 |} ];
     time := "10:05 AM"; date := "2024-10-17" |}.

Definition raj_kumar : Order :=
  {| id := 2; name := "Raj Kumar"; phone := "9999999999";
     orders := [ {| item := "Shirt"; qty := 2 |} ];
     time := "10:45 AM"; date := "2024-10-17" |}.

Definition priya : Order :=
  {| id := 3; name := "Priya"; phone := "8888888888";
     orders := [ {| item := "Saree"; qty := 3 |} ];
     time := "02:00 PM"; date := "2024-10-18" |}.

Definition scenario : list Order := [raj; raj_kumar; priya].

(** No order has a key that [Object.prototype] provides. *)
Definition own_keys (l : list Order) : Prop :=
  Forall (fun order => Js.inherited (summary_key order) = false) l.

(** No line item is named like a member of [Object.prototype]. *)
Definition own_items (l : list Order) : Prop :=
  Forall (fun it => Js.inherited (item it) = false) (flat_map orders l).

(** The counter a new item name starts with, and what a further line
    item does to the counter of its name. *)
Definition count_init (it : LineItem) : Z := Js.add 0 (qty it).

Definition count_add (it : LineItem) (n : Z) : Z :=
  Js.add (if n =? 0 then 0 else n) (qty it).

(** The order [Object.entries] gives two keys of an object whose keys
    were created in the order of the first occurrences in [names]:
    array-index keys in ascending numeric order, ahead of the other keys,
    which are in creation order. *)
Definition entries_order (names : list string) (k k' : string) : Prop :=
  match Js.is_array_index k, Js.is_array_index k' with
  | true, true => Js.decimal_value 0 k < Js.decimal_value 0 k'
  | true, false => True
  | false, true => False
  | false, false => seen_before k k' names
  end.

(** The line items with a given name. *)
Definition items_named (k : string) (l : list Order) : list LineItem :=
  List.filter (fun it => String.eqb (item it) k) (flat_map orders l).

(** The counter a new time key starts with, and what a further order
    does to the counter of its key. *)
Definition tick_init (order : Order) : Z := 0 + 1.

Definition tick_add (order : Order) (n : Z) : Z :=
  (if n =? 0 then 0 else n) + 1.

(** The orders that fall under a time key. *)
Definition bucket (k : string) (l : list Order) : list Order :=
  List.filter (fun order => String.eqb (timeKey order) k) l.

Fixpoint sum_orders (l : list TimePoint) : Z :=
  match l with
  | [] => 0
  | p :: r => tp_orders p + sum_orders r
  end.

Fixpoint last_char (s : string) : option ascii :=
  match s with
  | EmptyString => None
  | String c EmptyString => Some c
  | String _ r => last_char r
  end.

Definition at_time (t : string) : Order :=
  {| id := 1; name := "Raj"; phone := "9999999999";
     orders := [ {| item := "Shirt"; qty := 1 |} ];
     time := t; date := "2024-10-17" |}.

(** Times with no designator, one of them with an hour outside 1-12. *)
Definition malformed_times : list Order := [ at_time "25:00"; at_time "9:15" ].

(** An order shortly after midnight and one in the morning. *)
Definition midnight_and_morning : list Order :=
  [ at_time "12:30 AM"; at_time "09:00 AM" ].

(** The text ends in a decimal digit, as a normalised phone does. *)
Definition ends_in_digit (s : string) : bool :=
  match last_char s with
  | Some c => Js.is_digit c
  | None => false
  end.

(** The length of a string, as an integer. *)
Definition str_len (s : string) : Z := Z.of_nat (String.length s).

(** The longest run of digits a string starts with, and the text of an
    integer (an optional minus sign and digits) a string starts with. *)
Fixpoint digit_run (s : string) : string :=
  match s with
  | EmptyString => EmptyString
  | String c r => if Js.is_digit c then String c (digit_run r) else EmptyString
  end.

Definition number_prefix (s : string) : string :=
  match s with
  | String "-" r => String "-" (digit_run r)
  | _ => digit_run s
  end.

(** An order whose quantities, all positive integers, add up to more
    than [2 ^ 53]. *)
Definition large_quantities : list Order :=
  [ {| id := 1; name := "Raj"; phone := "9999999999";
       orders := [ {| item := "Shirt"; qty := 2 ^ 53 |};
                   {| item := "Jeans"; qty := 1 |};
                   {| item := "Saree"; qty := 1 |} ];
       time := "10:05 AM"; date := "2024-10-17" |} ].

(** An order that names one item twice. *)
Definition repeated_item : list Order :=
  [ {| id := 1; name := "Raj"; phone := "9999999999";
       orders := [ {| item := "Shirt"; qty := 1 |}; {| item := "Shirt"; qty := 2 |} ];
       time := "10:05 AM"; date := "2024-10-17" |} ].

(** The value a row is sorted by: the sort column, lowercased when it
    is a string. *)
Definition sort_value `{cm : Js.CaseMapping} (cfg : SortConfig) (r : FlattenedRow)
    : Value :=
  lower_value (field (key cfg) r).

Definition ascending (cfg : SortConfig) : bool :=
  String.eqb (direction cfg) "asc".

(** The three results of the comparator, from the two values. *)
Definition compare_values (asc : bool) (x y : Value) : Z :=
  if value_lt x y then (if asc then -1 else 1)
  else if value_lt y x then (if asc then 1 else -1)
  else 0.

Inductive Shape : Type := SString | SNumber | SOther.

Definition shape_of (v : Value) : Shape :=
  match v with
  | VString _ => SString
  | VNumber _ => SNumber
  | VOther => SOther
  end.

(** [x] is not greater than [y]. *)
Definition value_le (x y : Value) : Prop := value_lt y x = false.

(** The rows that pass the two filters. *)
Definition filter_rows `{cm : Js.CaseMapping} (filters : Filters)
    (rows : list FlattenedRow) : list FlattenedRow :=
  let rows :=
    if truthy (search filters)
    then List.filter (matches_search (search filters)) rows
    else rows in
  if truthy (itemType filters)
  then List.filter (fun order => String.eqb (row_item order) (itemType filters)) rows
  else rows.

(** The rows in the order the table shows them. *)
Definition sorted_rows `{cm : Js.CaseMapping} (cfg : SortConfig)
    (rows : list FlattenedRow) : list FlattenedRow :=
  if truthy (key cfg) then Js.sort (compare_rows cfg) rows else rows.

(** A store that holds the flattened scenario in one array, and two
    settings of the table. *)
Definition table_array : loc := 1%positive.

Definition table_store : store := {[ table_array := flattenedOrders scenario ]}.

Definition no_filters : Filters := {| search := ""; itemType := "" |}.

Definition search_raj : Filters := {| search := "raj"; itemType := "" |}.

Definition by_name : SortConfig := {| key := "name"; direction := "asc" |}.

(** Two line items under array-index names seen in the other order than
    the numeric one. *)
Definition numbered : list Order :=
  [ {| id := 1; name := "Raj"; phone := "9999999999";
       orders := [ {| item := "10"; qty := 1 |}; {| item := "2"; qty := 1 |} ];
       time := "10:05 AM"; date := "2024-10-17" |} ].

(** * More primitives *)

Module JsMore.

(** [l.slice(b)] *)
Definition slice_from {A} (l : list A) (b : Z) : list A :=
  Js.slice l b (Z.of_nat (length l)).

(** [s.substr(start, len)] *)
Definition substr (s : string) (start len : Z) : string :=
  let size := Z.of_nat (String.length s) in
  let from := if start <? 0 then Z.max (size + start) 0 else Z.min start size in
  let len := Z.min (Z.max len 0) size in
  let to := Z.min (from + len) size in
  String.substring (Z.to_nat from) (Z.to_nat (to - from)) s.

(** The characters of [s] that satisfy [p], in order. *)
Fixpoint str_filter (p : ascii -> bool) (s : string) : string :=
  match s with
  | EmptyString => EmptyString
  | String c r => if p c then String c (str_filter p r) else str_filter p r
  end.

(** The comparison [l.sort()] makes when it is given no comparator and
    the elements are strings. *)
Definition default_compare (a b : string) : Z :=
  if Js.str_lt a b then -1 else if Js.str_lt b a then 1 else 0.

(** [new Set(values)] for strings: the distinct values in insertion
    order. Its [size] is the length, and spreading it gives the list. *)
Definition Set_of (values : list string) : list string := first_seen values.

(** [Math.ceil(a / b)]; [None] is [Infinity] or [NaN], the result for
    [b = 0]. *)
Definition ceil_div (a b : Z) : option Z :=
  if b =? 0 then None else Some (- ((- a) / b)).

End JsMore.

(** * [mockData.js]: the dashboard figures *)

Module Stats.
(** The object [getDashboardStats] returns. *)
Record t : Type := {
  totalOrders : Z;
  uniqueCustomers : Z;
  mostOrderedItem : option string;
  totalQuantity : option Z
}.
End Stats.

(** [getDashboardStats]. [mostOrderedItem] is [None] where [getTopItems]
    is: the item that comes first then depends on comparisons with a
    string whose text the engine chooses; the other figures do not
    depend on it. [totalQuantity] is [None] when it is [NaN], the sum
    of the two infinities. *)
Definition getDashboardStats (l : list Order) : Stats.t :=
  let totalOrders := Z.of_nat (length l) in
  let uniqueCustomers := Z.of_nat (length (JsMore.Set_of (map phone l))) in
  let topItems := getTopItems l (Some 1) in
  let mostOrderedItem :=
    match topItems with
    | Some (t :: _) => Some (top_item t)
    | Some [] => Some "N/A"
    | None => None
    end in
  let totalQuantity :=
    fold_left
      (fun sum order =>
         Js.add_nan sum
           (Some (fold_left (fun orderSum it => Js.add orderSum (qty it))
                            (orders order) 0)))
      l (Some 0) in
  {| Stats.totalOrders := totalOrders;
     Stats.uniqueCustomers := uniqueCustomers;
     Stats.mostOrderedItem := mostOrderedItem;
     Stats.totalQuantity := totalQuantity |}.

(** * The summary panel: [getTotalStats] *)

Record TotalStats : Type := {
  customers : Z;
  stat_items : Z;
  stat_quantity : option Z
}.

(** [summaryData] is [None] until a summary has been generated;
    [quantity] is [None] when it is [NaN]. *)
Definition getTotalStats (summaryData : option (list Summary)) : TotalStats :=
  match summaryData with
  | None => {| customers := 0; stat_items := 0; stat_quantity := Some 0 |}
  | Some data =>
      {| customers := Z.of_nat (length data);
         stat_items :=
           fold_left
             (fun sum customer => Js.add sum (Z.of_nat (length (items customer))))
             data 0;
         stat_quantity :=
           fold_left
             (fun sum customer =>
                Js.add_nan sum (Some (MockData.totalQuantity customer)))
             data (Some 0) |}
  end.

(** * The dashboard page: [recentOrders] *)

(** [orders.slice(-10).reverse()] *)
Definition recentOrders (l : list Order) : list Order :=
  reverse (JsMore.slice_from l (-10)).

(** * The table: item types, pages and the sort handler *)

(** [[...new Set(flattenedOrders.map(order => order.item))].sort()] *)
Definition itemTypes (rows : list FlattenedRow) : list string :=
  Js.sort JsMore.default_compare (JsMore.Set_of (map row_item rows)).

(** [Math.ceil(filteredAndSortedOrders.length / pageSize)] *)
Definition totalPages (rows : list FlattenedRow) (pageSize : Z) : option Z :=
  JsMore.ceil_div (Z.of_nat (length rows)) pageSize.

Definition startIndex (currentPage pageSize : Z) : Z :=
  (currentPage - 1) * pageSize.

(** [filteredAndSortedOrders.slice(startIndex, startIndex + pageSize)] *)
Definition paginatedOrders (rows : list FlattenedRow) (currentPage pageSize : Z)
    : list FlattenedRow :=
  Js.slice rows (startIndex currentPage pageSize)
           (startIndex currentPage pageSize + pageSize).

(** The page [goToPage(page)] sets, [pages] being the value of
    [totalPages]. *)
Definition goToPage (pages page : Z) : Z := Z.max 1 (Z.min page pages).

(** The configuration [handleSort(key)] sets from the previous one. *)
Definition handleSort (k : string) (prevConfig : SortConfig) : SortConfig :=
  {| key := k;
     direction :=
       if String.eqb (key prevConfig) k && String.eqb (direction prevConfig) "asc"
       then "desc" else "asc" |}.

(** The page numbers [1 .. n]. *)
Definition page_numbers (n : Z) : list Z :=
  map (fun i => Z.of_nat i) (seq 1 (Z.to_nat n)).

(** * The utility functions *)

(** [truncateText] *)
Definition truncateText (text : string) (maxLength : Z) : string :=
  if Z.of_nat (String.length text) <=? maxLength then text
  else JsMore.substr text 0 maxLength +:+ "...".

(** [phone.replace(/\D/g, '')] *)
Definition digits_of (phone : string) : string :=
  JsMore.str_filter Js.is_digit phone.

(** [/^\d{10}$/.test(s)] *)
Definition ten_digits (s : string) : bool :=
  (String.length s =? 10)%nat && Js.all_digits s.

Definition isValidPhoneNumber (phone : string) : bool :=
  ten_digits (digits_of phone).

Definition formatPhoneNumber (phone : string) : string :=
  let cleaned := digits_of phone in
  if (String.length cleaned =? 10)%nat
  then Js.str_slice cleaned 0 3 +:+ "-" +:+ Js.str_slice cleaned 3 6
       +:+ "-" +:+ Js.str_slice_from cleaned 6
  else phone.

(** [uniqueBy] and [groupBy] take any objects; [keyf] stands for
    [item => item[key]]. The set [seen] is the list of its members. *)
Section by_key.
Context {X K : Type} `{EqDecision K} (keyf : X -> K).

Fixpoint uniqueBy_filter (seen : list K) (array : list X) : list X :=
  match array with
  | [] => []
  | item :: r =>
      let value := keyf item in
      if decide (value ∈ seen) then uniqueBy_filter seen r
      else item :: uniqueBy_filter (seen ++ [value]) r
  end.

Definition uniqueBy (array : list X) : list X := uniqueBy_filter [] array.

End by_key.

(** The body of the reducer of [groupBy]: [groups[group]] is created
    empty when it is missing, and the item is pushed. On a group named
    like a member of [Object.prototype] that member is what
    [groups[group]] holds, and [push] fails. A property key is a string,
    so [keyf] gives one. *)
Definition groupBy_step {X} (keyf : X -> string) (groups : Js.JsObject (list X))
    (item : X) : result (Js.JsObject (list X)) :=
  let group := keyf item in
  match Js.get group groups with
  | Js.Own g =>
      Ok (Js.modify group (fun g => g ++ [item]) (Js.set group g groups))
  | Js.Undefined =>
      Ok (Js.modify group (fun g => g ++ [item]) (Js.set group [] groups))
  | Js.Inherited => TypeError
  end.

Fixpoint groupBy_loop {X} (keyf : X -> string) (groups : Js.JsObject (list X))
    (array : list X) : result (Js.JsObject (list X)) :=
  match array with
  | [] => Ok groups
  | item :: r =>
      match groupBy_step keyf groups item with
      | Ok groups' => groupBy_loop keyf groups' r
      | TypeError => TypeError
      end
  end.

Definition groupBy {X} (keyf : X -> string) (array : list X)
    : result (Js.JsObject (list X)) :=
  groupBy_loop keyf [] array.

(** * The export page: the customer summary of [handleExport] *)

(** A value of [summaryMap]: [items] is an object from item names to
    quantities. *)
Record Customer : Type := {
  cust_name : string;
  cust_phone : string;
  cust_items : Js.JsObject Z;
  cust_total : Z
}.

(** An element of the [data] that is written out. *)
Record SummaryRow : Type := {
  out_name : string;
  out_phone : string;
  out_items : string;
  out_totalQuantity : Z
}.

(** The body of the inner [forEach] on the customer stored under the
    key. The counter of the item is updated as in [getTopItems]: for an
    item named like a member of [Object.prototype] the sum is a string
    with the text of that member, which the engine chooses, and the
    result is [None]. *)
Definition summaryMap_add_item (it : LineItem) (c : Customer) : option Customer :=
  match count_step (cust_items c) it with
  | Some items' =>
      Some {| cust_name := cust_name c; cust_phone := cust_phone c;
              cust_items := items';
              cust_total := Js.add (cust_total c) (qty it) |}
  | None => None
  end.

Fixpoint summaryMap_add_items (its : list LineItem) (c : Customer)
    : option Customer :=
  match its with
  | [] => Some c
  | it :: r =>
      match summaryMap_add_item it c with
      | Some c' => summaryMap_add_items r c'
      | None => None
      end
  end.

(** The body of the outer [forEach]; the key is the phone number. When
    the phone is named like a member of [Object.prototype],
    [summaryMap[key]] is that member: no customer is created, and the
    first line item fails on [summaryMap[key].items[item.item]], [items]
    being undefined there. *)
Definition summaryMap_step (summaryMap : Js.JsObject Customer) (order : Order)
    : option (result (Js.JsObject Customer)) :=
  let key := phone order in
  match Js.get key summaryMap with
  | Js.Undefined =>
      let fresh :=
        {| cust_name := name order; cust_phone := phone order;
           cust_items := []; cust_total := 0 |} in
      match summaryMap_add_items (orders order) fresh with
      | Some c => Some (Ok (Js.set key c summaryMap))
      | None => None
      end
  | Js.Own c0 =>
      match summaryMap_add_items (orders order) c0 with
      | Some c => Some (Ok (Js.set key c summaryMap))
      | None => None
      end
  | Js.Inherited =>
      match orders order with
      | [] => Some (Ok summaryMap)
      | _ :: _ => Some TypeError
      end
  end.

Fixpoint summaryMap_loop (summaryMap : Js.JsObject Customer) (l : list Order)
    : option (result (Js.JsObject Customer)) :=
  match l with
  | [] => Some (Ok summaryMap)
  | order :: r =>
      match summaryMap_step summaryMap order with
      | Some (Ok summaryMap') => summaryMap_loop summaryMap' r
      | other => other
      end
  end.

(** [([item, qty]) => `${item} (${qty})`] *)
Definition item_text (e : string * Z) : string :=
  e.1 +:+ " (" +:+ Js.number_to_string e.2 +:+ ")".

(** The mapping of a customer to an element of [data]. *)
Definition summary_row (customer : Customer) : SummaryRow :=
  {| out_name := cust_name customer;
     out_phone := cust_phone customer;
     out_items :=
       String.concat ", " (map item_text (Js.entries (cust_items customer)));
     out_totalQuantity := cust_total customer |}.

(** The [data] of a summary export. *)
Definition handleExport_summary (l : list Order)
    : option (result (list SummaryRow)) :=
  match summaryMap_loop [] l with
  | Some (Ok summaryMap) => Some (Ok (map summary_row (Js.values summaryMap)))
  | Some TypeError => Some TypeError
  | None => None
  end.

(** * Vocabulary of the further statements *)

(** The items of a summary as an object from names to quantities. *)
Definition item_entries (its : list LineItem) : Js.JsObject Z :=
  map (fun it => (item it, qty it)) its.

Fixpoint sum_values (o : Js.JsObject Z) : Z :=
  match o with
  | [] => 0
  | e :: r => e.2 + sum_values r
  end.

Fixpoint abs_values (o : Js.JsObject Z) : Z :=
  match o with
  | [] => 0
  | e :: r => Z.abs e.2 + abs_values r
  end.

Fixpoint sum_counts (l : list TopItem) : Z :=
  match l with
  | [] => 0
  | t :: r => count t + sum_counts r
  end.

(** The line items of the orders stored under a summary key. *)
Definition lines_of_key (k : string) (l : list Order) : list LineItem :=
  flat_map orders (List.filter (fun order => String.eqb (summary_key order) k) l).

(** No order has a phone number named like a member of
    [Object.prototype]. *)
Definition own_phones (l : list Order) : Prop :=
  Forall (fun order => Js.inherited (phone order) = false) l.

(** What the line items of one order do to a customer of the export
    summary, and the customer a new phone number starts with. *)
Definition customer_add (order : Order) (c : Customer) : Customer :=
  {| cust_name := cust_name c; cust_phone := cust_phone c;
     cust_items :=
       fold_left (group_step item count_init count_add) (orders order)
                 (cust_items c);
     cust_total := add_qtys (cust_total c) (orders order) |}.

Definition customer_init (order : Order) : Customer :=
  customer_add order
    {| cust_name := name order; cust_phone := phone order;
       cust_items := []; cust_total := 0 |}.

(** The exact sum of the [totalQuantity] of the rows, and of their
    magnitudes. *)
Fixpoint sum_rows (l : list SummaryRow) : Z :=
  match l with
  | [] => 0
  | r :: rest => out_totalQuantity r + sum_rows rest
  end.

Fixpoint abs_rows (l : list SummaryRow) : Z :=
  match l with
  | [] => 0
  | r :: rest => Z.abs (out_totalQuantity r) + abs_rows rest
  end.

(** The orders of one phone number. *)
Definition orders_of_phone (p : string) (l : list Order) : list Order :=
  List.filter (fun order => String.eqb (phone order) p) l.

(** The orders of the sample data: phone numbers below [2 ^ 32 - 1] are
    array indices. *)
Definition sample_phones : list Order :=
  [ {| id := 1; name := "Raj Kumar"; phone := "9999999999";
       orders := [ {| item := "Cotton Shirt"; qty := 10 |} ];
       time := "10:05 AM"; date := "2024-10-17" |};
    {| id := 7; name := "Vikash Gupta"; phone := "3333333333";
       orders := [ {| item := "Denim Jeans"; qty := 3 |} ];
       time := "04:10 PM"; date := "2024-10-17" |};
    {| id := 9; name := "Suresh Yadav"; phone := "1111111111";
       orders := [ {| item := "Polo T-Shirt"; qty := 3 |} ];
       time := "06:15 PM"; date := "2024-10-17" |};
    {| id := 11; name := "Raj"; phone := "9999999999";
       orders := [ {| item := "Cotton Shirt"; qty := 1 |} ];
       time := "07:15 PM"; date := "2024-10-17" |} ].

(** * Facts about the JavaScript primitives *)

Section number_facts.
Implicit Types (a b acc : Z) (l : list LineItem).

Lemma infinity_large : 2 ^ 53 < Js.infinity.
Proof. by vm_compute. Qed.

Lemma is_infinite_small a : Z.abs a <= 2 ^ 53 -> Js.is_infinite a = false.
Proof.
  intros H. unfold Js.is_infinite. pose proof infinity_large.
  apply Z.leb_gt. lia.
Qed.

Lemma to_double_exact a : Z.abs a <= 2 ^ 53 -> Js.to_double a = a.
Proof.
  intros H. unfold Js.to_double, Js.round53. cbv zeta.
  rewrite (proj2 (Z.leb_le _ _) H). by rewrite is_infinite_small.
Qed.

(** Sums within [2 ^ 53] are exact. *)
Lemma add_exact a b : Z.abs a + Z.abs b <= 2 ^ 53 -> Js.add a b = a + b.
Proof.
  intros H. unfold Js.add.
  rewrite !is_infinite_small by lia. apply to_double_exact. lia.
Qed.

Lemma add_qtys_app acc l1 l2 :
  add_qtys acc (l1 ++ l2) = add_qtys (add_qtys acc l1) l2.
Proof. unfold add_qtys. by rewrite fold_left_app. Qed.

Lemma abs_qty_nonneg l : 0 <= abs_qty l.
Proof. induction l as [|x r IH]; cbn; lia. Qed.

Lemma abs_qty_app l1 l2 : abs_qty (l1 ++ l2) = abs_qty l1 + abs_qty l2.
Proof. induction l1 as [|x r IH]; cbn; [done|]. rewrite IH. lia. Qed.

Lemma exact_qty_app l1 l2 : exact_qty (l1 ++ l2) = exact_qty l1 + exact_qty l2.
Proof. induction l1 as [|x r IH]; cbn; [done|]. rewrite IH. lia. Qed.

Lemma exact_qty_bound l : Z.abs (exact_qty l) <= abs_qty l.
Proof. induction l as [|x r IH]; cbn; lia. Qed.

Lemma abs_qty_filter (f : LineItem -> bool) l :
  abs_qty (List.filter f l) <= abs_qty l.
Proof.
  induction l as [|x r IH]; cbn; [done|]. destruct (f x); cbn; lia.
Qed.

Lemma abs_qty_Permutation l1 l2 : l1 ≡ₚ l2 -> abs_qty l1 = abs_qty l2.
Proof. induction 1; cbn; lia. Qed.

Lemma exact_qty_Permutation l1 l2 : l1 ≡ₚ l2 -> exact_qty l1 = exact_qty l2.
Proof. induction 1; cbn; lia. Qed.

(** While the magnitudes stay within [2 ^ 53], the code's running sum
    is the exact sum. *)
Lemma add_qtys_exact acc l :
  Z.abs acc + abs_qty l <= 2 ^ 53 -> add_qtys acc l = acc + exact_qty l.
Proof.
  revert acc. induction l as [|x r IH]; intros acc H; cbn in *; [lia|].
  change (fold_left _ r ?a) with (add_qtys a r).
  pose proof (abs_qty_nonneg r).
  rewrite add_exact by lia. rewrite IH by lia. lia.
Qed.

Lemma sum_qty_exact l : abs_qty l <= 2 ^ 53 -> sum_qty l = exact_qty l.
Proof. intros H. unfold sum_qty. rewrite add_qtys_exact; cbn; lia. Qed.

Lemma add_nan_exact a b :
  Z.abs a + Z.abs b <= 2 ^ 53 -> Js.add_nan (Some a) (Some b) = Some (a + b).
Proof.
  intros H. unfold Js.add_nan. rewrite (is_infinite_small a) by lia.
  cbn. by rewrite add_exact.
Qed.

End number_facts.

Section sort_facts.
Context {A : Type} (cmp : A -> A -> Z).

Lemma insert_Permutation x l : Js.insert cmp x l ≡ₚ x :: l.
Proof.
  induction l as [|y r IH]; simpl; [done|].
  destruct (cmp x y <=? 0); [done|].
  rewrite IH. apply Permutation_swap.
Qed.

Lemma sort_Permutation l : Js.sort cmp l ≡ₚ l.
Proof.
  induction l as [|x r IH]; simpl; [done|].
  rewrite insert_Permutation. by f_equiv.
Qed.

Lemma sort_length l : length (Js.sort cmp l) = length l.
Proof. apply Permutation_length, sort_Permutation. Qed.

(** Stability: the elements of a class whose members never compare
    greater than one another keep their order. *)
Lemma insert_filter (P : A -> bool) x l :
  (forall y, P x = true -> P y = true -> cmp x y <= 0) ->
  List.filter P (Js.insert cmp x l) = List.filter P (x :: l).
Proof.
  intros HP. induction l as [|y r IH]; [done|].
  cbn [Js.insert]. destruct (cmp x y <=? 0) eqn:Hc; [done|].
  apply Z.leb_gt in Hc.
  cbn [List.filter] in *. rewrite IH.
  destruct (P x) eqn:Px, (P y) eqn:Py; try done.
  specialize (HP y eq_refl Py). lia.
Qed.

Lemma sort_filter (P : A -> bool) l :
  (forall x y, P x = true -> P y = true -> cmp x y <= 0) ->
  List.filter P (Js.sort cmp l) = List.filter P l.
Proof.
  intros HP. induction l as [|x r IH]; [done|].
  cbn [Js.sort foldr]. rewrite insert_filter by (intros; by apply HP).
  cbn [List.filter]. fold (Js.sort cmp r). by rewrite IH.
Qed.

Hypothesis cmp_total : forall x y, cmp x y <= 0 \/ cmp y x <= 0.
Hypothesis cmp_trans : forall x y z, cmp x y <= 0 -> cmp y z <= 0 -> cmp x z <= 0.

Lemma insert_sorted x l :
  StronglySorted (fun a b => cmp a b <= 0) l ->
  StronglySorted (fun a b => cmp a b <= 0) (Js.insert cmp x l).
Proof.
  induction 1 as [|y r Hs IH Hy]; simpl.
  - repeat constructor.
  - destruct (cmp x y <=? 0) eqn:Hc.
    + apply Z.leb_le in Hc. constructor; [by constructor|].
      constructor; [done|].
      eapply Forall_impl; [exact Hy|]. intros z Hz. by eapply cmp_trans.
    + apply Z.leb_gt in Hc. constructor; [done|].
      rewrite insert_Permutation. constructor; [|done].
      destruct (cmp_total x y); [lia|done].
Qed.

Lemma sort_sorted l : StronglySorted (fun a b => cmp a b <= 0) (Js.sort cmp l).
Proof.
  induction l as [|x r IH]; simpl; [constructor|]. by apply insert_sorted.
Qed.

End sort_facts.

Section list_facts.
Context {A : Type}.

Lemma filter_complement_Permutation (f : A -> bool) (l : list A) :
  List.filter f l ++ List.filter (fun x => negb (f x)) l ≡ₚ l.
Proof.
  induction l as [|x r IH]; [done|]. cbn [List.filter].
  destruct (f x); cbn [negb app].
  - by f_equiv.
  - rewrite <- Permutation_middle. by f_equiv.
Qed.

Lemma filter_all (f : A -> bool) (l : list A) :
  Forall (fun x => f x = true) l -> List.filter f l = l.
Proof.
  induction 1 as [|x r Hx _ IH]; [done|]. cbn [List.filter].
  by rewrite Hx, IH.
Qed.

Lemma filter_none (f : A -> bool) (l : list A) :
  Forall (fun x => f x = false) l -> List.filter f l = [].
Proof.
  induction 1 as [|x r Hx _ IH]; [done|]. cbn [List.filter].
  by rewrite Hx, IH.
Qed.

Lemma before_cons_inv (a b x : A) (l : list A) :
  before a b (x :: l) -> (x = a /\ b ∈ l) \/ before a b l.
Proof.
  intros (p & q & r & E). destruct p as [|y p]; simplify_eq/=.
  - left. split; [done|]. set_solver.
  - right. by exists p, q, r.
Qed.

Lemma before_cons (a b x : A) (l : list A) :
  before a b l -> before a b (x :: l).
Proof. intros (p & q & r & ->). by exists (x :: p), q, r. Qed.

Lemma before_head (a b : A) (l : list A) : b ∈ l -> before a b (a :: l).
Proof.
  intros (u & v & ->)%list_elem_of_split. by exists [], u, v.
Qed.

Lemma before_app_inv (a b : A) (l1 l2 : list A) :
  before a b (l1 ++ l2) ->
  before a b l1 \/ (a ∈ l1 /\ b ∈ l2) \/ before a b l2.
Proof.
  induction l1 as [|x l1 IH]; cbn [app]; [auto|].
  intros [[-> Hb]|H]%before_cons_inv.
  - apply elem_of_app in Hb as [Hb|Hb].
    + left. by apply before_head.
    + right; left. split; [left|done].
  - destruct (IH H) as [H1|[[H1 H2]|H1]].
    + left. by apply before_cons.
    + right; left. split; [by right|done].
    + by right; right.
Qed.

Lemma before_app_l (a b : A) (l1 l2 : list A) :
  before a b l1 -> before a b (l1 ++ l2).
Proof.
  intros (p & q & r & ->). exists p, q, (r ++ l2).
  by rewrite <- !app_assoc, <- !app_comm_cons, <- !app_assoc.
Qed.

Lemma before_take (a b : A) n (l : list A) :
  before a b (take n l) -> before a b l.
Proof.
  intros H. rewrite <- (take_drop n l). by apply before_app_l.
Qed.

Lemma before_filter_inv (f : A -> bool) (a b : A) (l : list A) :
  before a b (List.filter f l) -> before a b l.
Proof.
  revert a b. induction l as [|x r IH]; intros a b (p & q & s & E).
  - by destruct p.
  - cbn [List.filter] in E. destruct (f x).
    + destruct p as [|y p]; simplify_eq/=.
      * assert (b ∈ List.filter f r) as Hb by (rewrite H0; set_solver).
        apply list_elem_of_In, filter_In in Hb as [Hb _].
        apply list_elem_of_In, list_elem_of_split in Hb as (u & v & ->).
        by exists [], u, v.
      * destruct (IH a b) as (u & v & w & ->); [by exists p, q, s|].
        by exists (y :: u), v, w.
    + destruct (IH a b) as (u & v & w & ->); [by exists p, q, s|].
      by exists (x :: u), v, w.
Qed.

Lemma before_filter (f : A -> bool) (a b : A) (l : list A) :
  f a = true -> f b = true -> before a b l -> before a b (List.filter f l).
Proof.
  intros Ha Hb (p & q & r & ->).
  rewrite List.filter_app. cbn [List.filter]. rewrite Ha, List.filter_app.
  cbn [List.filter]. rewrite Hb. by eexists _, _, _.
Qed.

Lemma before_sorted (R : A -> A -> Prop) (a b : A) (l : list A) :
  StronglySorted R l -> before a b l -> R a b.
Proof.
  intros Hs (p & q & r & ->).
  apply StronglySorted_app_1_r, StronglySorted_inv in Hs as [_ Hs].
  rewrite Forall_forall in Hs. apply Hs. set_solver.
Qed.

End list_facts.

Lemma before_map_inv {A B} (f : A -> B) (x y : B) (l : list A) :
  before x y (map f l) ->
  exists a b, x = f a /\ y = f b /\ before a b l.
Proof.
  intros (p & q & r & E).
  apply map_eq_app in E as (p' & t & -> & <- & E).
  apply map_eq_cons in E as (a & t' & -> & <- & E).
  apply map_eq_app in E as (q' & t & -> & <- & E).
  apply map_eq_cons in E as (b & r' & -> & <- & E).
  exists a, b. repeat split. by exists p', q', r'.
Qed.

Section object_facts.
Context {V : Type}.
Implicit Types (o : Js.JsObject V) (k : string).

Lemma get_own_modify k' k (f : V -> V) o :
  Js.get_own k' (Js.modify k f o)
  = if decide (k' = k) then f <$> Js.get_own k o else Js.get_own k' o.
Proof.
  induction o as [|[k0 v] r IH]; cbn [Js.modify Js.get_own].
  - by case_decide.
  - destruct (String.eqb_spec k0 k) as [->|Hk]; cbn [Js.get_own].
    + case_decide as E; [subst; by rewrite String.eqb_refl|].
      by rewrite (proj2 (String.eqb_neq _ _)).
    + rewrite IH. case_decide as E; [subst|done].
      by rewrite (proj2 (String.eqb_neq _ _)).
Qed.

Lemma get_own_set k' k (v : V) o :
  Js.get_own k' (Js.set k v o)
  = if decide (k' = k) then Some v else Js.get_own k' o.
Proof.
  induction o as [|[k0 v0] r IH]; cbn [Js.set Js.get_own].
  - case_decide as E; [subst; by rewrite String.eqb_refl|].
    by rewrite (proj2 (String.eqb_neq _ _)).
  - destruct (String.eqb_spec k0 k) as [->|Hk]; cbn [Js.get_own].
    + case_decide as E; [subst; by rewrite String.eqb_refl|].
      by rewrite (proj2 (String.eqb_neq _ _)).
    + rewrite IH. case_decide as E; [subst|done].
      by rewrite (proj2 (String.eqb_neq _ _)).
Qed.

Lemma modify_keys k (f : V -> V) o : (Js.modify k f o).*1 = o.*1.
Proof.
  induction o as [|[k0 v] r IH]; [done|]. cbn [Js.modify].
  destruct (String.eqb k0 k); [done|]. cbn. by rewrite IH.
Qed.

Lemma get_own_None k o : Js.get_own k o = None <-> k ∉ o.*1.
Proof.
  induction o as [|[k0 v] r IH]; cbn [Js.get_own].
  - split; [intros _; apply not_elem_of_nil|done].
  - cbn [fmap list_fmap fst]. rewrite not_elem_of_cons.
    destruct (String.eqb_spec k0 k) as [->|Hk].
    + split; [done|]. by intros [? _].
    + rewrite IH. split; [by intros ?; split|by intros [_ ?]].
Qed.

Lemma get_own_Some_elem k v o : Js.get_own k o = Some v -> (k, v) ∈ o.
Proof.
  induction o as [|[k0 v0] r IH]; cbn [Js.get_own]; [done|].
  destruct (String.eqb_spec k0 k) as [->|Hk].
  - intros [= ->]. left.
  - intros H. right. by apply IH.
Qed.

Lemma elem_get_own k v o : NoDup o.*1 -> (k, v) ∈ o -> Js.get_own k o = Some v.
Proof.
  induction o as [|[k0 v0] r IH]; cbn [Js.get_own]; [set_solver|].
  intros [Hk0 Hr]%NoDup_cons [E|E]%elem_of_cons.
  - simplify_eq. by rewrite String.eqb_refl.
  - destruct (String.eqb_spec k0 k) as [->|Hk]; [|by apply IH].
    destruct Hk0. apply list_elem_of_fmap. by exists (k, v).
Qed.

Lemma set_keys_new k (v : V) o :
  Js.get_own k o = None -> (Js.set k v o).*1 = o.*1 ++ [k].
Proof.
  induction o as [|[k0 v0] r IH]; cbn [Js.set Js.get_own]; [done|].
  destruct (String.eqb k0 k); [done|]. intros H. cbn. by rewrite IH.
Qed.

Lemma modify_modify k (f g : V -> V) o :
  Js.modify k g (Js.modify k f o) = Js.modify k (fun v => g (f v)) o.
Proof.
  induction o as [|[k0 v] r IH]; [done|]. cbn [Js.modify].
  destruct (String.eqb k0 k) eqn:E; cbn [Js.modify]; rewrite E; [done|].
  by rewrite IH.
Qed.

Lemma modify_set_new k (f : V -> V) (v : V) o :
  Js.get_own k o = None -> Js.modify k f (Js.set k v o) = Js.set k (f v) o.
Proof.
  induction o as [|[k0 v0] r IH]; cbn [Js.set Js.get_own Js.modify].
  - by rewrite String.eqb_refl.
  - destruct (String.eqb k0 k) eqn:E; [done|]. intros H.
    cbn [Js.modify]. by rewrite E, IH.
Qed.

Lemma set_own_modify k (f : V -> V) (n : V) o :
  Js.get_own k o = Some n -> Js.set k (f n) o = Js.modify k f o.
Proof.
  induction o as [|[k0 v0] r IH]; cbn [Js.set Js.get_own Js.modify]; [done|].
  destruct (String.eqb_spec k0 k) as [->|Hk].
  - by intros [= ->].
  - intros H. by rewrite IH.
Qed.

Lemma fold_modify {X} k (f : X -> V -> V) (xs : list X) o :
  fold_left (fun o x => Js.modify k (f x) o) xs o
  = Js.modify k (fun v => fold_left (fun v x => f x v) xs v) o.
Proof.
  revert o. induction xs as [|x r IH]; intros o; cbn [fold_left].
  - induction o as [|[k0 v] o IHo]; [done|]. cbn [Js.modify].
    destruct (String.eqb k0 k); [done|]. by rewrite <- IHo.
  - by rewrite IH, modify_modify.
Qed.

Lemma entries_Permutation o : Js.entries o ≡ₚ o.
Proof.
  unfold Js.entries. rewrite sort_Permutation.
  apply (filter_complement_Permutation (fun e => Js.is_array_index e.1)).
Qed.

Lemma entries_no_index o :
  Forall (fun k => Js.is_array_index k = false) o.*1 -> Js.entries o = o.
Proof.
  intros H. unfold Js.entries.
  rewrite filter_none, filter_all; [done| |].
  - apply Forall_fmap in H. eapply Forall_impl; [exact H|].
    intros [k v]; cbn. by intros ->.
  - apply Forall_fmap in H. eapply Forall_impl; [exact H|]. by intros [k v].
Qed.

End object_facts.

Section first_seen_facts.
Implicit Types (l : list string) (k : string).

Lemma first_seen_snoc l k :
  first_seen (l ++ [k])
  = if decide (k ∈ first_seen l) then first_seen l else first_seen l ++ [k].
Proof. unfold first_seen. by rewrite fold_left_app. Qed.

Lemma elem_of_first_seen l k : k ∈ first_seen l <-> k ∈ l.
Proof.
  induction l as [|x l IH] using rev_ind; [done|].
  rewrite first_seen_snoc, elem_of_app, list_elem_of_singleton.
  case_decide as Hx.
  - rewrite IH. split; [auto|]. intros [H| ->]; [done|]. by apply IH.
  - rewrite elem_of_app, list_elem_of_singleton, IH. tauto.
Qed.

Lemma NoDup_first_seen l : NoDup (first_seen l).
Proof.
  induction l as [|x l IH] using rev_ind; [constructor|].
  rewrite first_seen_snoc. case_decide; [done|].
  apply NoDup_app. split_and!; [done| |apply NoDup_singleton].
  intros y Hy ->%list_elem_of_singleton. done.
Qed.

Lemma before_first_seen k k' l :
  before k k' (first_seen l) -> seen_before k k' l.
Proof.
  induction l as [|x l IH] using rev_ind.
  - intros (p & q & r & E). by destruct p.
  - rewrite first_seen_snoc. case_decide as Hx.
    + intros (p & q & Hl & H1 & H2)%IH. subst l.
      exists p, (q ++ [x]). by rewrite <- app_assoc.
    + intros [H|[[H1 H2]|H]]%before_app_inv.
      * apply IH in H as (p & q & Hl & H1 & H2). subst l.
        exists p, (q ++ [x]). by rewrite <- app_assoc.
      * apply list_elem_of_singleton in H2 as ->.
        apply elem_of_first_seen, list_elem_of_split_l in H1
          as (p & q & -> & Hp).
        exists p, (q ++ [x]). rewrite <- app_assoc. split_and!; [done..|].
        rewrite elem_of_first_seen in Hx. set_solver.
      * destruct H as (p & q & r & E). destruct p as [|? [|]]; simplify_eq/=.
        by destruct q.
Qed.

End first_seen_facts.

Section grouping_facts.
Context {X V : Type} (keyf : X -> string) (init : X -> V) (step : X -> V -> V).

Lemma group_of_snoc k xs x :
  group_of keyf k (xs ++ [x])
  = group_of keyf k xs ++ (if String.eqb (keyf x) k then [x] else []).
Proof. unfold group_of. by rewrite List.filter_app. Qed.

Lemma group_value_snoc g x :
  group_value init step (g ++ [x])
  = Some match group_value init step g with
         | Some v => step x v
         | None => init x
         end.
Proof.
  destruct g as [|y g]; [done|]. cbn. by rewrite fold_left_app.
Qed.

Lemma group_step_grouped o xs x :
  grouped keyf init step o xs ->
  grouped keyf init step (group_step keyf init step o x) (xs ++ [x]).
Proof.
  intros [Hk Hv]. unfold group_step. split.
  - rewrite map_app. cbn [map]. rewrite first_seen_snoc, <- Hk.
    destruct (Js.get_own (keyf x) o) eqn:E.
    + rewrite modify_keys. rewrite decide_True; [done|].
      destruct (decide (keyf x ∈ o.*1)) as [|H%get_own_None]; congruence.
    + rewrite set_keys_new by done. apply get_own_None in E.
      by rewrite decide_False.
  - intros k. rewrite group_of_snoc.
    destruct (String.eqb_spec (keyf x) k) as [<-|Hne].
    + rewrite group_value_snoc, <- Hv.
      destruct (Js.get_own (keyf x) o) eqn:E.
      * by rewrite get_own_modify, decide_True, E.
      * by rewrite get_own_set, decide_True.
    + rewrite app_nil_r, <- Hv.
      destruct (Js.get_own (keyf x) o) eqn:E.
      * by rewrite get_own_modify, decide_False.
      * by rewrite get_own_set, decide_False.
Qed.

Lemma grouped_nil : grouped keyf init step [] [].
Proof. by split. Qed.

Lemma grouped_NoDup o xs : grouped keyf init step o xs -> NoDup o.*1.
Proof. intros [-> _]. apply NoDup_first_seen. Qed.

Lemma grouped_elem o xs k v :
  grouped keyf init step o xs ->
  (k, v) ∈ o ->
  exists x r, group_of keyf k xs = x :: r
              /\ v = fold_left (fun v y => step y v) r (init x).
Proof.
  intros Hg Hin. pose proof (grouped_NoDup _ _ Hg) as Hnd.
  apply (elem_get_own _ _ _ Hnd) in Hin. destruct Hg as [_ Hv].
  rewrite Hv in Hin. destruct (group_of keyf k xs) as [|x r]; [done|].
  exists x, r. cbn in Hin. by simplify_eq.
Qed.

End grouping_facts.

(** * Facts about [getOrdersSummary] *)

Section summary_facts.
Implicit Types (o : Js.JsObject Summary) (s : Summary).

Lemma append_cons (c : ascii) (s t : string) :
  String c s +:+ t = String c (s +:+ t).
Proof. done. Qed.

Lemma all_digits_underscore (n p : string) :
  Js.all_digits (n +:+ "_" +:+ p) = false.
Proof.
  change ("_" +:+ p) with (String "_" p).
  induction n as [|c n IH]; [done|].
  rewrite append_cons. cbn [Js.all_digits]. rewrite IH. apply andb_false_r.
Qed.

Lemma is_array_index_digits k : Js.is_array_index k = true -> Js.all_digits k = true.
Proof.
  destruct k as [|c r]; [done|]. unfold Js.is_array_index.
  by intros [[H _]%andb_prop _]%andb_prop.
Qed.

Lemma summary_key_not_index order : Js.is_array_index (summary_key order) = false.
Proof.
  destruct (Js.is_array_index _) eqn:E; [|done].
  apply is_array_index_digits in E. unfold summary_key in E.
  by rewrite all_digits_underscore in E.
Qed.

Lemma last_char_app (s t : string) :
  t <> EmptyString -> last_char (s +:+ t) = last_char t.
Proof.
  intros Ht. induction s as [|c s IH]; [done|]. rewrite append_cons.
  cbn [last_char]. rewrite IH.
  destruct (s +:+ t) eqn:E; [|done]. destruct s; [|done]. by destruct Ht.
Qed.

Lemma inherited_last (k : string) (c : ascii) :
  Js.inherited k = true -> last_char k = Some c ->
  Js.is_digit c = false /\ c <> "M"%char.
Proof.
  intros (k' & Hin & E%String.eqb_eq)%existsb_exists. subst k'.
  cbn in Hin. repeat destruct Hin as [<-|Hin]; try done; by intros [= <-].
Qed.

(** A phone that ends in a digit gives a key that [Object.prototype]
    does not provide. *)
Lemma digit_phone_own_key order :
  ends_in_digit (phone order) = true -> Js.inherited (summary_key order) = false.
Proof.
  unfold ends_in_digit, summary_key. intros Hp.
  destruct (last_char (phone order)) as [c|] eqn:Hc; [|done].
  destruct (Js.inherited _) eqn:E; [|done].
  assert (phone order <> EmptyString) as Hne by (by intros Hnil; rewrite Hnil in Hc).
  assert (last_char (name order +:+ "_" +:+ phone order) = Some c) as Hl.
  { rewrite !last_char_app; [done|done|]. by destruct (phone order). }
  destruct (inherited_last _ _ E Hl) as [Hd _]. congruence.
Qed.

Lemma add_item_name it s : sum_name (add_item it s) = sum_name s.
Proof. done. Qed.

Lemma add_item_phone it s : sum_phone (add_item it s) = sum_phone s.
Proof. done. Qed.

Lemma add_item_total it s :
  totalQuantity (add_item it s) = Js.add (totalQuantity s) (qty it).
Proof. done. Qed.

Lemma add_items_facts (its : list LineItem) s :
  let s' := fold_left (fun s it => add_item it s) its s in
  sum_name s' = sum_name s /\ sum_phone s' = sum_phone s
  /\ totalQuantity s' = add_qtys (totalQuantity s) its.
Proof.
  revert s. induction its as [|it r IH]; intros s; cbn.
  - by split_and!.
  - by destruct (IH (add_item it s)) as (-> & -> & ->).
Qed.

Lemma summary_add_facts order s :
  sum_name (summary_add order s) = sum_name s
  /\ sum_phone (summary_add order s) = sum_phone s
  /\ totalQuantity (summary_add order s)
     = add_qtys (totalQuantity s) (orders order).
Proof. apply add_items_facts. Qed.

Lemma summary_add_total order s :
  totalQuantity (summary_add order s) = add_qtys (totalQuantity s) (orders order).
Proof. apply summary_add_facts. Qed.

(** What a group of orders with one key leaves in its summary. *)
Lemma group_fold_facts (r : list Order) s :
  let s' := fold_left (fun v y => summary_add y v) r s in
  sum_name s' = sum_name s /\ sum_phone s' = sum_phone s
  /\ totalQuantity s' = add_qtys (totalQuantity s) (flat_map orders r).
Proof.
  revert s. induction r as [|y r IH]; intros s; cbn [fold_left flat_map].
  - by split_and!.
  - destruct (IH (summary_add y s)) as (-> & -> & ->).
    destruct (summary_add_facts y s) as (-> & -> & ->).
    split_and!; [done..|]. by rewrite add_qtys_app.
Qed.

Lemma summary_group_facts (x : Order) (r : list Order) :
  let s := fold_left (fun v y => summary_add y v) r (summary_init x) in
  sum_name s = name x /\ sum_phone s = phone x
  /\ totalQuantity s = total_qty (x :: r).
Proof.
  cbv zeta. destruct (group_fold_facts r (summary_init x)) as (-> & -> & ->).
  unfold summary_init.
  destruct (summary_add_facts x (fresh_summary x)) as (-> & -> & ->).
  split_and!; [done..|]. unfold total_qty, sum_qty. cbn [flat_map].
  by rewrite add_qtys_app.
Qed.

Lemma add_items_modify k order o :
  add_items k (orders order) o = Js.modify k (summary_add order) o.
Proof. unfold add_items. by rewrite fold_modify. Qed.

Lemma summary_step_group o order :
  Js.inherited (summary_key order) = false ->
  summary_step o order
  = Ok (group_step summary_key summary_init summary_add o order).
Proof.
  intros Hk. unfold summary_step, group_step, Js.get.
  rewrite !add_items_modify.
  destruct (Js.get_own (summary_key order) o) eqn:E; [done|].
  by rewrite Hk, modify_set_new.
Qed.

Lemma summary_loop_grouped (l pre : list Order) o :
  grouped summary_key summary_init summary_add o pre ->
  own_keys l ->
  exists o', summary_loop o l = Ok o'
             /\ grouped summary_key summary_init summary_add o' (pre ++ l).
Proof.
  revert pre o. induction l as [|x l IH]; intros pre o Hg Hl.
  - exists o. by rewrite app_nil_r.
  - apply Forall_cons in Hl as [Hx Hl]. cbn [summary_loop].
    rewrite summary_step_group by done.
    destruct (IH (pre ++ [x]) _ (group_step_grouped _ _ _ _ _ x Hg) Hl)
      as (o' & -> & Hg').
    exists o'. by rewrite <- app_assoc in Hg'.
Qed.

Lemma grouped_summary_keys o l :
  grouped summary_key summary_init summary_add o l ->
  Forall (fun k => Js.is_array_index k = false) o.*1.
Proof.
  intros [-> _]. apply Forall_forall. intros k Hk.
  apply elem_of_first_seen, list_elem_of_fmap in Hk as (x & -> & _).
  apply summary_key_not_index.
Qed.

Lemma sum_totals_app (l1 l2 : list Summary) :
  sum_totals (l1 ++ l2) = sum_totals l1 + sum_totals l2.
Proof. induction l1 as [|x r IH]; cbn; [done|]. rewrite IH. lia. Qed.

Lemma sum_totals_Permutation (l1 l2 : list Summary) :
  l1 ≡ₚ l2 -> sum_totals l1 = sum_totals l2.
Proof. induction 1; cbn; lia. Qed.

Lemma sum_totals_modify k (f : Summary -> Summary) s o :
  Js.get_own k o = Some s ->
  sum_totals (Js.modify k f o).*2
  = sum_totals o.*2 + (totalQuantity (f s) - totalQuantity s).
Proof.
  induction o as [|[k0 v] r IH]; cbn [Js.get_own Js.modify]; [done|].
  destruct (String.eqb k0 k).
  - intros [= ->]. cbn. lia.
  - intros H. cbn. rewrite IH by done. lia.
Qed.

Lemma sum_totals_set_new k s o :
  Js.get_own k o = None ->
  sum_totals (Js.set k s o).*2 = sum_totals o.*2 + totalQuantity s.
Proof.
  induction o as [|[k0 v] r IH]; cbn [Js.get_own Js.set]; [cbn; lia|].
  destruct (String.eqb k0 k); [done|].
  intros H. cbn. rewrite IH by done. lia.
Qed.

Lemma abs_totals_modify k (f : Summary -> Summary) s o :
  Js.get_own k o = Some s ->
  abs_totals (Js.modify k f o).*2
  = abs_totals o.*2 + (Z.abs (totalQuantity (f s)) - Z.abs (totalQuantity s)).
Proof.
  induction o as [|[k0 v] r IH]; cbn [Js.get_own Js.modify]; [done|].
  destruct (String.eqb k0 k).
  - intros [= ->]. cbn. lia.
  - intros H. cbn. rewrite IH by done. lia.
Qed.

Lemma abs_totals_set_new k s o :
  Js.get_own k o = None ->
  abs_totals (Js.set k s o).*2 = abs_totals o.*2 + Z.abs (totalQuantity s).
Proof.
  induction o as [|[k0 v] r IH]; cbn [Js.get_own Js.set]; [cbn; lia|].
  destruct (String.eqb k0 k); [done|].
  intros H. cbn. rewrite IH by done. lia.
Qed.

Lemma abs_totals_nonneg (l : list Summary) : 0 <= abs_totals l.
Proof. induction l as [|x r IH]; cbn; lia. Qed.

Lemma abs_totals_elem k s o :
  Js.get_own k o = Some s -> Z.abs (totalQuantity s) <= abs_totals o.*2.
Proof.
  induction o as [|[k0 v] r IH]; cbn [Js.get_own]; [done|].
  pose proof (abs_totals_nonneg r.*2).
  destruct (String.eqb k0 k).
  - intros [= ->]. cbn. lia.
  - intros H'. specialize (IH H'). cbn. lia.
Qed.

(** One order adds the exact sum of its quantities to the totals while
    the magnitudes stay within [2 ^ 53]. *)
Lemma summary_step_total o o' order :
  summary_step o order = Ok o' ->
  abs_totals o.*2 + abs_qty (orders order) <= 2 ^ 53 ->
  sum_totals o'.*2 = sum_totals o.*2 + exact_qty (orders order)
  /\ abs_totals o'.*2 <= abs_totals o.*2 + abs_qty (orders order).
Proof.
  unfold summary_step, Js.get. rewrite !add_items_modify.
  pose proof (exact_qty_bound (orders order)) as Hb.
  pose proof (abs_totals_nonneg o.*2) as Hn.
  destruct (Js.get_own (summary_key order) o) as [s|] eqn:E.
  - intros [= <-] Hsafe. pose proof (abs_totals_elem _ _ _ E) as He.
    rewrite (sum_totals_modify _ _ s), (abs_totals_modify _ _ s) by done.
    rewrite summary_add_total, add_qtys_exact by lia. lia.
  - destruct (Js.inherited _).
    + destruct (orders order); [|done]. intros [= <-] _. cbn. lia.
    + intros [= <-] Hsafe. rewrite modify_set_new by done.
      rewrite sum_totals_set_new, abs_totals_set_new by done.
      rewrite summary_add_total. cbn [totalQuantity].
      rewrite add_qtys_exact by (cbn; lia). lia.
Qed.

Lemma summary_loop_total (l : list Order) o o' :
  summary_loop o l = Ok o' ->
  abs_totals o.*2 + abs_qty (flat_map orders l) <= 2 ^ 53 ->
  sum_totals o'.*2 = sum_totals o.*2 + exact_total l
  /\ abs_totals o'.*2 <= abs_totals o.*2 + abs_qty (flat_map orders l).
Proof.
  revert o. induction l as [|x l IH]; intros o; cbn [summary_loop].
  - intros [= <-] _. unfold exact_total. cbn. lia.
  - destruct (summary_step o x) as [o1|] eqn:E; [|done].
    intros H Hsafe. cbn [flat_map] in Hsafe |- *. rewrite abs_qty_app in Hsafe |- *.
    pose proof (abs_qty_nonneg (flat_map orders l)).
    destruct (summary_step_total _ _ _ E) as [E1 E2]; [lia|].
    destruct (IH _ H) as [E3 E4]; [lia|]. rewrite E3, E1.
    unfold exact_total. cbn [flat_map]. rewrite exact_qty_app. lia.
Qed.

Lemma abs_totals_Permutation (l1 l2 : list Summary) :
  l1 ≡ₚ l2 -> abs_totals l1 = abs_totals l2.
Proof. induction 1; cbn; lia. Qed.

(** On safe quantities the totals of the summaries add up exactly. *)
Lemma getOrdersSummary_total (l : list Order) (out : list Summary) :
  safe_quantities l ->
  getOrdersSummary l = Ok out ->
  sum_totals out = exact_total l
  /\ abs_totals out <= abs_qty (flat_map orders l).
Proof.
  intros Hsafe. unfold getOrdersSummary.
  destruct (summary_loop [] l) as [o|] eqn:Ho; [|done]. intros [= <-].
  unfold Js.values.
  rewrite (sum_totals_Permutation _ o.*2), (abs_totals_Permutation _ o.*2)
    by apply fmap_Permutation, entries_Permutation.
  destruct (summary_loop_total _ _ _ Ho) as [E1 E2]; [exact Hsafe|].
  split; [by rewrite E1|exact E2].
Qed.

End summary_facts.

Section summary_claims.

Lemma grouped_summary_entry o (l : list Order) k s :
  grouped summary_key summary_init summary_add o l ->
  (k, s) ∈ o ->
  key_of_summary s = k
  /\ exists first rest,
       List.filter (fun order => String.eqb (summary_key order) k) l = first :: rest
       /\ sum_name s = name first /\ sum_phone s = phone first
       /\ totalQuantity s = total_qty (first :: rest).
Proof.
  intros Hg Hin.
  destruct (grouped_elem _ _ _ _ _ _ _ Hg Hin) as (x & r & Hgr & ->).
  destruct (summary_group_facts x r) as (Hn & Hp & Ht).
  split; [|by exists x, r].
  unfold key_of_summary. rewrite Hn, Hp.
  assert (x ∈ group_of summary_key k l) as Hx by (rewrite Hgr; left).
  apply list_elem_of_In, List.filter_In in Hx as [_ Hx].
  by apply String.eqb_eq in Hx.
Qed.

Lemma grouped_summary_values o (l : list Order) :
  grouped summary_key summary_init summary_add o l ->
  map key_of_summary o.*2 = o.*1.
Proof.
  intros Hg.
  assert (forall k s, (k, s) ∈ o -> key_of_summary s = k) as H.
  { intros k s Hin. by destruct (grouped_summary_entry _ _ _ _ Hg Hin). }
  clear Hg. induction o as [|[k s] r IH]; [done|]. cbn.
  rewrite (H k s) by left. f_equal. apply IH. intros k' s' Hin.
  apply H. by right.
Qed.

Lemma getOrdersSummary_values (l : list Order) :
  own_keys l ->
  exists o, getOrdersSummary l = Ok o.*2
            /\ grouped summary_key summary_init summary_add o l.
Proof.
  intros Hl.
  destruct (summary_loop_grouped l [] [] (grouped_nil _ _ _) Hl)
    as (o & Ho & Hg).
  exists o. split; [|done]. unfold getOrdersSummary, Js.values.
  by rewrite Ho, (entries_no_index o (grouped_summary_keys _ _ Hg)).
Qed.

End summary_claims.

(** [getOrdersSummary] groups the records by the string [name_phone].
    On the three-record scenario it returns three summaries, [Raj] with
    total 15, [Raj Kumar] with total 2 and [Priya] with total 3. In
    general, when no key is a member name of [Object.prototype], the
    summaries have pairwise distinct keys, every record has the summary
    of its key, and a summary carries the name and the phone of the
    first record with its key and, as total quantity, the sum the code
    computes of the quantities of all the records with that key. *)
Theorem getOrdersSummary_groups_by_name_and_phone :
  getOrdersSummary scenario
  = Ok [ {| sum_name := "Raj"; sum_phone := "9999999999";
            items := [ {| item := "Shirt"; qty := 10 |}; {| item := "Jeans"; qty := 5 |} ];
            totalQuantity := 15 |};
         {| sum_name := "Raj Kumar"; sum_phone := "9999999999";
            items := [ {| item := "Shirt"; qty := 2 |} ];
            totalQuantity := 2 |};
         {| sum_name := "Priya"; sum_phone := "8888888888";
            items := [ {| item := "Saree"; qty := 3 |} ];
            totalQuantity := 3 |} ]
  /\ forall l : list Order,
       own_keys l ->
       exists out,
         getOrdersSummary l = Ok out
         /\ NoDup (map key_of_summary out)
         /\ (forall order, order ∈ l ->
               exists s, s ∈ out /\ key_of_summary s = summary_key order)
         /\ (forall s, s ∈ out ->
               exists first rest,
                 List.filter
                   (fun order => String.eqb (summary_key order) (key_of_summary s)) l
                 = first :: rest
                 /\ sum_name s = name first
                 /\ sum_phone s = phone first
                 /\ totalQuantity s = total_qty (first :: rest)).
Proof.
  split; [done|]. intros l Hl.
  destruct (getOrdersSummary_values l Hl) as (o & Ho & Hg).
  exists o.*2. split_and!; [done| | |].
  - rewrite (grouped_summary_values _ _ Hg). by eapply grouped_NoDup.
  - intros order Hin.
    assert (summary_key order ∈ o.*1) as Hk.
    { destruct Hg as [-> _]. apply elem_of_first_seen, list_elem_of_fmap.
      by exists order. }
    apply list_elem_of_fmap in Hk as ([k s] & Hk & Hin'). cbn in Hk. subst k.
    exists s. split; [apply list_elem_of_fmap; by exists (summary_key order, s)|].
    by destruct (grouped_summary_entry _ _ _ _ Hg Hin').
  - intros s Hs. apply list_elem_of_fmap in Hs as ([k s'] & -> & Hin). cbn.
    destruct (grouped_summary_entry _ _ _ _ Hg Hin) as (-> & H). exact H.
Qed.

Lemma getOrdersSummary_groups_by_name_and_phone_witness :
  own_keys scenario
  /\ exists out,
       getOrdersSummary scenario = Ok out
       /\ NoDup (map key_of_summary out)
       /\ (forall order, order ∈ scenario ->
             exists s, s ∈ out /\ key_of_summary s = summary_key order)
       /\ (forall s, s ∈ out ->
             exists first rest,
               List.filter
                 (fun order => String.eqb (summary_key order) (key_of_summary s))
                 scenario
               = first :: rest
               /\ sum_name s = name first
               /\ sum_phone s = phone first
               /\ totalQuantity s = total_qty (first :: rest)).
Proof.
  split.
  - repeat constructor.
  - apply (proj2 getOrdersSummary_groups_by_name_and_phone scenario).
    repeat constructor.
Defined.

(** C1 fails on the code: on the scenario of the specification the two
    records with phone 9999999999 end up in two summaries of
    [getOrdersSummary], which has three summaries, not two, the first
    with total 15. The other paths of the application do on the same
    records what the claim says: the summary of the export page has two
    rows, the first named [Raj] with total 17, and the dashboard counts
    two unique customers. *)
Theorem getOrdersSummary_splits_one_phone :
  phone raj = phone raj_kumar
  /\ (exists s1 s2 rest,
        getOrdersSummary scenario = Ok (s1 :: s2 :: rest)
        /\ sum_phone s1 = phone raj /\ sum_phone s2 = phone raj
        /\ totalQuantity s1 = 15)
  /\ ~ (exists out, getOrdersSummary scenario = Ok out /\ length out = 2%nat)
  /\ (exists r1 r2,
        handleExport_summary scenario = Some (Ok [r1; r2])
        /\ out_name r1 = "Raj" /\ out_phone r1 = phone raj
        /\ out_totalQuantity r1 = 17)
  /\ Stats.uniqueCustomers (getDashboardStats scenario) = 2.
Proof.
  split_and!; [done| | | |done].
  - by eexists _, _, _.
  - intros (out & H & Hlen). vm_compute in H. by simplify_eq.
  - by eexists _, _.
Qed.

(** C3, as the code has it: when the magnitudes of the quantities add
    up to [2 ^ 53] at most, then whenever [getOrdersSummary] returns,
    the [totalQuantity] of its summaries add up exactly to the sum of
    every line-item quantity of every record; and it returns whenever
    no key is a member name of [Object.prototype], as is the case when
    every phone ends in a digit. *)
Theorem getOrdersSummary_sum_invariant (l : list Order) :
  safe_quantities l ->
  (forall out, getOrdersSummary l = Ok out -> sum_totals out = exact_total l)
  /\ (own_keys l -> exists out, getOrdersSummary l = Ok out)
  /\ (Forall (fun order => ends_in_digit (phone order) = true) l -> own_keys l).
Proof.
  intros Hsafe. split_and!.
  - intros out Hout. by apply getOrdersSummary_total.
  - intros Hl.
    destruct (summary_loop_grouped l [] [] (grouped_nil _ _ _) Hl) as (o & Ho & _).
    exists (Js.values o). unfold getOrdersSummary. by rewrite Ho.
  - intros H. eapply Forall_impl; [exact H|]. intros order.
    apply digit_phone_own_key.
Qed.

Lemma getOrdersSummary_sum_invariant_witness :
  safe_quantities scenario
  /\ Forall (fun order => ends_in_digit (phone order) = true) scenario
  /\ own_keys scenario
  /\ exists out, getOrdersSummary scenario = Ok out
                 /\ sum_totals out = exact_total scenario.
Proof.
  assert (safe_quantities scenario) as H0 by (apply Z.leb_le; reflexivity).
  assert (Forall (fun order => ends_in_digit (phone order) = true) scenario) as H1
    by (repeat constructor).
  pose proof (getOrdersSummary_sum_invariant scenario H0) as (H2 & H3 & H4).
  destruct (H3 (H4 H1)) as [out Hout].
  split_and!; [exact H0|exact H1|exact (H4 H1)|].
  exists out. split; [exact Hout|exact (H2 out Hout)].
Defined.

(** C3 fails on the code for large quantities: the additions are those
    of doubles, so a record with the quantities [2 ^ 53], 1 and 1 gets a
    [totalQuantity] of [2 ^ 53], two less than the sum of its line
    items. *)
Lemma getOrdersSummary_rounds_large_quantities :
  own_keys large_quantities
  /\ exact_total large_quantities = 2 ^ 53 + 2
  /\ exists out,
       getOrdersSummary large_quantities = Ok out
       /\ sum_totals out = 2 ^ 53
       /\ sum_totals out <> exact_total large_quantities.
Proof.
  split; [repeat constructor|]. split; [reflexivity|].
  eexists. split; [reflexivity|]. split; [reflexivity|]. by vm_compute.
Qed.

(** * Array-index keys *)

Section index_facts.
Implicit Types (s t : string) (c d : ascii).

Lemma digit_value_range c : Js.is_digit c = true -> 0 <= Js.digit_value c <= 9.
Proof.
  unfold Js.is_digit, Js.digit_value.
  intros [H1%Nat.leb_le H2%Nat.leb_le]%andb_prop. lia.
Qed.

Lemma digit_value_inj c d : Js.digit_value c = Js.digit_value d -> c = d.
Proof.
  unfold Js.digit_value. intros H.
  rewrite <- (ascii_nat_embedding c), <- (ascii_nat_embedding d).
  f_equal. lia.
Qed.

Lemma decimal_value_acc acc s :
  Js.decimal_value acc s = acc * 10 ^ str_len s + Js.decimal_value 0 s.
Proof.
  revert acc. induction s as [|c r IH]; intros acc; cbn [Js.decimal_value].
  - unfold str_len. cbn. lia.
  - rewrite (IH (10 * acc + _)), (IH (10 * 0 + _)).
    unfold str_len. cbn [String.length]. rewrite Nat2Z.inj_succ, Z.pow_succ_r by lia.
    fold (str_len r). lia.
Qed.

Lemma decimal_value_cons c r :
  Js.decimal_value 0 (String c r)
  = Js.digit_value c * 10 ^ str_len r + Js.decimal_value 0 r.
Proof. cbn [Js.decimal_value]. rewrite decimal_value_acc. lia. Qed.

Lemma decimal_value_bound s :
  Js.all_digits s = true -> 0 <= Js.decimal_value 0 s < 10 ^ str_len s.
Proof.
  induction s as [|c r IH]; [unfold str_len; cbn; lia|].
  cbn [Js.all_digits]. intros [Hc Hr]%andb_prop.
  rewrite decimal_value_cons. apply digit_value_range in Hc. specialize (IH Hr).
  unfold str_len in *. cbn [String.length].
  rewrite Nat2Z.inj_succ, Z.pow_succ_r by lia. nia.
Qed.

Lemma decimal_value_same_length s t :
  String.length s = String.length t ->
  Js.all_digits s = true -> Js.all_digits t = true ->
  Js.decimal_value 0 s = Js.decimal_value 0 t -> s = t.
Proof.
  revert t. induction s as [|c r IH]; intros [|d t]; try done.
  cbn [String.length Js.all_digits].
  intros [= Hl] [Hc Hr]%andb_prop [Hd Ht]%andb_prop.
  rewrite !decimal_value_cons. intros E.
  pose proof (decimal_value_bound r Hr) as Br.
  pose proof (decimal_value_bound t Ht) as Bt.
  pose proof (digit_value_range c Hc). pose proof (digit_value_range d Hd).
  assert (str_len r = str_len t) as El by (unfold str_len; lia). rewrite El in *.
  assert (Js.digit_value c = Js.digit_value d) as Ecd by nia.
  rewrite Ecd in E. f_equal; [by apply digit_value_inj|].
  apply IH; [done..|lia].
Qed.

(** The shape of an array-index key: the lone digit [0], or digits
    that do not start with [0]. *)
Lemma is_array_index_shape s :
  Js.is_array_index s = true ->
  Js.all_digits s = true /\ 1 <= str_len s
  /\ (s = "0" \/ 10 ^ (str_len s - 1) <= Js.decimal_value 0 s).
Proof.
  destruct s as [|c r]; [done|]. unfold Js.is_array_index.
  intros [[Hd Hc]%andb_prop _]%andb_prop.
  split_and!; [done|unfold str_len; cbn [String.length]; lia|].
  pose proof Hd as Hd'. cbn [Js.all_digits] in Hd'.
  apply andb_prop in Hd' as [Hc' Hr].
  apply orb_prop in Hc as [Hc|Hc].
  - right. rewrite decimal_value_cons.
    pose proof (decimal_value_bound r Hr). pose proof (digit_value_range c Hc').
    assert (Js.digit_value c <> 0) as Hne.
    { intros E. apply negb_true_iff, Ascii.eqb_neq in Hc. apply Hc.
      by apply digit_value_inj. }
    unfold str_len. cbn [String.length].
    replace (Z.of_nat (S (String.length r)) - 1) with (str_len r) by (unfold str_len; lia).
    fold (str_len r) in *. nia.
  - apply String.eqb_eq in Hc as ->.
    destruct (decide (c = "0"%char)) as [->|Hne]; [by left|].
    right. cbn. unfold Js.digit_value.
    assert (nat_of_ascii c <> 48%nat) as H.
    { intros E. apply Hne. rewrite <- (ascii_nat_embedding c), E. done. }
    unfold Js.is_digit in Hc'. apply andb_prop in Hc' as [H1%Nat.leb_le _].
    change (str_len (String c "") - 1) with 0. lia.
Qed.

Lemma array_index_inj s t :
  Js.is_array_index s = true -> Js.is_array_index t = true ->
  Js.decimal_value 0 s = Js.decimal_value 0 t -> s = t.
Proof.
  intros (Ds & Ls & Hs)%is_array_index_shape (Dt & Lt & Ht)%is_array_index_shape E.
  pose proof (decimal_value_bound s Ds) as Bs.
  pose proof (decimal_value_bound t Dt) as Bt.
  destruct Hs as [->|Hs], Ht as [->|Ht]; [done| | |].
  - exfalso. change (Js.decimal_value 0 "0") with 0 in E.
    pose proof (Z.pow_pos_nonneg 10 (str_len t - 1)). lia.
  - exfalso. change (Js.decimal_value 0 "0") with 0 in E.
    pose proof (Z.pow_pos_nonneg 10 (str_len s - 1)). lia.
  - apply decimal_value_same_length; [|done..].
    assert (str_len s = str_len t) as El; [|unfold str_len in El; lia].
    destruct (Z.lt_trichotomy (str_len s) (str_len t)) as [Hlt|[Heq|Hgt]]; [|done|].
    + exfalso. assert (10 ^ str_len s <= 10 ^ (str_len t - 1)) by (apply Z.pow_le_mono_r; unfold str_len in *; lia).
      lia.
    + exfalso. assert (10 ^ str_len t <= 10 ^ (str_len s - 1)) by (apply Z.pow_le_mono_r; unfold str_len in *; lia).
      lia.
Qed.

End index_facts.

(** * Facts about [getTopItems] *)

Section top_items_facts.
Implicit Types (o : Js.JsObject Z).

Lemma count_step_group o it :
  Js.inherited (item it) = false ->
  count_step o it = Some (group_step item count_init count_add o it).
Proof.
  intros Hk. unfold count_step, group_step, Js.get.
  destruct (Js.get_own (item it) o) as [n|] eqn:E.
  - by rewrite (set_own_modify _ (count_add it) n).
  - by rewrite Hk.
Qed.

Lemma count_loop_grouped (its pre : list LineItem) o :
  grouped item count_init count_add o pre ->
  Forall (fun it => Js.inherited (item it) = false) its ->
  exists o', count_loop o its = Some o'
             /\ grouped item count_init count_add o' (pre ++ its).
Proof.
  revert pre o. induction its as [|x its IH]; intros pre o Hg Hl.
  - exists o. by rewrite app_nil_r.
  - apply Forall_cons in Hl as [Hx Hl]. cbn [count_loop].
    rewrite count_step_group by done.
    destruct (IH (pre ++ [x]) _ (group_step_grouped _ _ _ _ _ x Hg) Hl)
      as (o' & -> & Hg').
    exists o'. by rewrite <- app_assoc in Hg'.
Qed.

Lemma item_counts_grouped (l : list Order) :
  own_items l ->
  exists o, item_counts l = Some o
            /\ grouped item count_init count_add o (flat_map orders l).
Proof. intros Hl. by apply (count_loop_grouped _ [] [] (grouped_nil _ _ _)). Qed.

Lemma count_add_sum (n : Z) (it : LineItem) : count_add it n = Js.add n (qty it).
Proof. unfold count_add. by destruct (Z.eqb_spec n 0) as [->|]. Qed.

Lemma count_group_value (x : LineItem) (r : list LineItem) :
  fold_left (fun v y => count_add y v) r (count_init x) = sum_qty (x :: r).
Proof.
  assert (forall n, fold_left (fun v y => count_add y v) r n = add_qtys n r) as H.
  { induction r as [|y r IH]; intros n; cbn; [done|].
    by rewrite IH, count_add_sum. }
  by rewrite H.
Qed.

(** The counter of a name is the sum of the quantities of the line
    items with that name. *)
Lemma grouped_count o (l : list Order) k n :
  grouped item count_init count_add o (flat_map orders l) ->
  (k, n) ∈ o -> n = sum_qty (items_named k l).
Proof.
  intros Hg Hin.
  destruct (grouped_elem _ _ _ _ _ _ _ Hg Hin) as (x & r & Hgr & ->).
  unfold items_named. unfold group_of in Hgr. rewrite Hgr.
  apply count_group_value.
Qed.

Lemma slice_prefix {A} (l : list A) (limit : Z) :
  Js.slice l 0 limit
  = take (Z.to_nat (if limit <? 0 then Z.of_nat (length l) + limit else limit)) l.
Proof.
  unfold Js.slice, Js.rel_index. cbn [Z.ltb Z.compare].
  rewrite (Z.min_l 0) by lia. cbn [Z.to_nat]. rewrite drop_0, Z.sub_0_r.
  destruct (Z.ltb_spec limit 0).
  - f_equal. lia.
  - destruct (Z.le_ge_cases limit (Z.of_nat (length l))).
    + by rewrite Z.min_l.
    + rewrite Z.min_r by done. rewrite !take_ge; [done|lia|lia].
Qed.

Lemma by_count_total (a b : string * Z) : by_count a b <= 0 \/ by_count b a <= 0.
Proof. unfold by_count. lia. Qed.

Lemma by_count_trans (a b c : string * Z) :
  by_count a b <= 0 -> by_count b c <= 0 -> by_count a c <= 0.
Proof. unfold by_count. lia. Qed.

Lemma ranking_Permutation o : ranking o ≡ₚ o.
Proof. unfold ranking. by rewrite sort_Permutation, entries_Permutation. Qed.

Lemma ranking_sorted o :
  StronglySorted (fun a b => by_count a b <= 0) (ranking o).
Proof. apply (sort_sorted by_count by_count_total by_count_trans). Qed.

End top_items_facts.

(** C7, as the code has it: [getTopItems] returns a prefix of the full
    ranking, which has one entry per distinct item name. With [limit = 0]
    the prefix is empty, with a limit of at least the number of distinct
    names it is the whole ranking, and with a negative limit it is the
    ranking without its last [-limit] entries. *)
Theorem getTopItems_limit (l : list Order) :
  own_items l ->
  exists full,
    length full = length (first_seen (item_names l))
    /\ (forall k, k ∈ item_names l -> exists t, t ∈ full /\ top_item t = k)
    /\ getTopItems l (Some 0) = Some []
    /\ (forall limit, Z.of_nat (length full) <= limit ->
          getTopItems l (Some limit) = Some full)
    /\ (forall limit, 0 <= limit ->
          getTopItems l (Some limit) = Some (take (Z.to_nat limit) full))
    /\ (forall limit, limit < 0 ->
          getTopItems l (Some limit)
          = Some (take (length full - Z.to_nat (- limit)) full))
    /\ getTopItems l None = getTopItems l (Some 10).
Proof.
  intros Hl. destruct (item_counts_grouped l Hl) as (o & Ho & Hg).
  exists (map top_entry (ranking o)).
  assert (forall limit,
            getTopItems l (Some limit)
            = Some (take (Z.to_nat (if limit <? 0
                                    then Z.of_nat (length (ranking o)) + limit
                                    else limit))
                         (map top_entry (ranking o)))) as Hget.
  { intros limit. unfold getTopItems. cbn [default]. rewrite Ho, slice_prefix.
    by rewrite <- fmap_take. }
  rewrite length_map. split_and!.
  - rewrite (Permutation_length (ranking_Permutation o)).
    unfold item_names. destruct Hg as [<- _]. by rewrite length_fmap.
  - intros k Hk. unfold item_names in Hk.
    assert (k ∈ o.*1) as Hk'.
    { destruct Hg as [-> _]. by apply elem_of_first_seen. }
    apply list_elem_of_fmap in Hk' as ([k' n] & -> & Hin).
    exists (top_entry (k', n)). split; [|done].
    apply list_elem_of_fmap. exists (k', n). split; [done|].
    by rewrite (ranking_Permutation o).
  - by rewrite Hget.
  - intros limit Hlim. rewrite Hget.
    destruct (Z.ltb_spec limit 0); [lia|].
    rewrite take_ge; [done|]. rewrite length_map. lia.
  - intros limit Hlim. rewrite Hget. by destruct (Z.ltb_spec limit 0); [lia|].
  - intros limit Hlim. rewrite Hget.
    destruct (Z.ltb_spec limit 0); [|lia]. do 2 f_equal. lia.
  - done.
Qed.

Lemma getTopItems_limit_witness :
  own_items scenario
  /\ exists full,
       length full = length (first_seen (item_names scenario))
       /\ (forall k, k ∈ item_names scenario -> exists t, t ∈ full /\ top_item t = k)
       /\ getTopItems scenario (Some 0) = Some []
       /\ (forall limit, Z.of_nat (length full) <= limit ->
             getTopItems scenario (Some limit) = Some full)
       /\ (forall limit, 0 <= limit ->
             getTopItems scenario (Some limit) = Some (take (Z.to_nat limit) full))
       /\ (forall limit, limit < 0 ->
             getTopItems scenario (Some limit)
             = Some (take (length full - Z.to_nat (- limit)) full))
       /\ getTopItems scenario None = getTopItems scenario (Some 10).
Proof.
  split.
  - repeat constructor.
  - apply (getTopItems_limit scenario). repeat constructor.
Defined.

(** C7 fails on the code: a negative limit does not empty the result;
    with limit -1 the scenario keeps two of its three items. *)
Lemma getTopItems_negative_limit :
  -1 <= 0
  /\ getTopItems scenario (Some (-1))
     = Some [ {| top_item := "Shirt"; count := 12 |};
              {| top_item := "Jeans"; count := 5 |} ]
  /\ getTopItems scenario (Some (-1)) <> Some [].
Proof. split_and!; [lia|done|done]. Qed.

Section entries_order_facts.
Context {V : Type}.
Implicit Types (o : Js.JsObject V).

Lemma before_elem {A} (a b : A) (l : list A) : before a b l -> a ∈ l /\ b ∈ l.
Proof.
  intros (p & q & r & ->). split.
  - apply elem_of_app; right; left.
  - apply elem_of_app; right; right. apply elem_of_app; right; left.
Qed.

Lemma before_map {A B} (f : A -> B) (a b : A) (l : list A) :
  before a b l -> before (f a) (f b) (map f l).
Proof.
  intros (p & q & r & ->). exists (map f p), (map f q), (map f r).
  by rewrite !map_app, !map_cons, !map_app, !map_cons.
Qed.

Lemma before_NoDup {A} (a b : A) (l : list A) : NoDup l -> before a b l -> a <> b.
Proof.
  intros Hnd (p & q & r & ->) ->.
  apply NoDup_app in Hnd as (_ & _ & Hnd). apply NoDup_cons in Hnd as [Hnd _].
  apply Hnd, elem_of_app. right; left.
Qed.

Lemma index_sort_sorted (l : list (string * V)) :
  StronglySorted (fun a b => Js.index_of a - Js.index_of b <= 0)
    (Js.sort (fun a b => Js.index_of a - Js.index_of b) l).
Proof. apply sort_sorted; intros; lia. Qed.

Lemma entries_before o (names : list string) a b :
  o.*1 = first_seen names ->
  before a b (Js.entries o) ->
  entries_order names a.1 b.1.
Proof.
  intros Hk Hb. unfold entries_order.
  assert (NoDup o.*1) as Hnd by (rewrite Hk; apply NoDup_first_seen).
  assert (NoDup (Js.entries o).*1) as Hnd' by (by rewrite entries_Permutation).
  pose proof (before_NoDup _ _ _ Hnd' (before_map fst _ _ _ Hb)) as Hne.
  unfold Js.entries in Hb.
  assert (forall (e : string * V) l,
            e ∈ List.filter (fun e => Js.is_array_index e.1) l ->
                      Js.is_array_index e.1 = true) as HI.
  { intros e l He. by apply list_elem_of_In, List.filter_In in He as [_ He]. }
  assert (forall (e : string * V) l,
            e ∈ List.filter (fun e => negb (Js.is_array_index e.1)) l ->
                      Js.is_array_index e.1 = false) as HN.
  { intros e l He. apply list_elem_of_In, List.filter_In in He as [_ He].
    by apply negb_true_iff. }
  apply before_app_inv in Hb as [Hb|[[Ha Hb]|Hb]].
  - pose proof (before_elem _ _ _ Hb) as [Ha Hb'].
    rewrite sort_Permutation in Ha, Hb'.
    rewrite (HI _ _ Ha), (HI _ _ Hb').
    pose proof (before_sorted _ _ _ _ (index_sort_sorted _) Hb) as Hle.
    cbn beta in Hle. unfold Js.index_of in Hle.
    destruct (decide (Js.decimal_value 0 a.1 = Js.decimal_value 0 b.1)) as [E|E]; [|lia].
    destruct Hne. by apply array_index_inj; [apply (HI _ o)..|].
  - rewrite sort_Permutation in Ha. by rewrite (HI _ _ Ha), (HN _ _ Hb).
  - pose proof (before_elem _ _ _ Hb) as [Ha Hb'].
    rewrite (HN _ _ Ha), (HN _ _ Hb').
    apply before_first_seen. rewrite <- Hk.
    by apply before_filter_inv, (before_map fst) in Hb.
Qed.

End entries_order_facts.

(** C8, as the code has it: [getTopItems] returns the items in
    descending order of their accumulated quantity, each with the sum of
    the quantities of the line items of its name, and two items with
    equal quantities come in the order [Object.entries] gives their
    names: array-index names in ascending numeric order, ahead of the
    other names, which are in first-seen order. *)
Theorem getTopItems_order (l : list Order) (limit : option Z) :
  own_items l ->
  exists out,
    getTopItems l limit = Some out
    /\ StronglySorted (fun a b => count b <= count a) out
    /\ (forall t, t ∈ out -> count t = sum_qty (items_named (top_item t) l))
    /\ (forall a b, before a b out -> count a = count b ->
          entries_order (item_names l) (top_item a) (top_item b)).
Proof.
  intros Hl. destruct (item_counts_grouped l Hl) as (o & Ho & Hg).
  unfold getTopItems. cbv zeta. rewrite Ho, slice_prefix.
  set (n := Z.to_nat _). eexists. split_and!; [done| | |].
  - apply (StronglySorted_fmap _ (fun a b => by_count a b <= 0)).
    { unfold by_count. cbn. intros; lia. }
    pose proof (ranking_sorted o) as Hs.
    rewrite <- (take_drop n (ranking o)) in Hs.
    by apply StronglySorted_app_1_l in Hs.
  - intros t ([k c] & -> & Hin)%list_elem_of_fmap. cbn.
    apply subseteq_take in Hin. rewrite ranking_Permutation in Hin.
    by apply (grouped_count _ _ _ _ Hg).
  - intros a b (a' & b' & -> & -> & Hb)%before_map_inv Hc. cbn in Hc |- *.
    apply before_take in Hb. unfold ranking in Hb.
    apply (before_filter (fun e => e.2 =? a'.2)) in Hb;
      [|apply Z.eqb_refl|by apply Z.eqb_eq].
    rewrite sort_filter in Hb.
    + apply before_filter_inv in Hb.
      apply (entries_before o (item_names l)); [|done]. by destruct Hg.
    + unfold by_count. intros x y Hx%Z.eqb_eq Hy%Z.eqb_eq. lia.
Qed.

Lemma getTopItems_order_witness :
  own_items scenario
  /\ exists out,
       getTopItems scenario (Some 10) = Some out
       /\ StronglySorted (fun a b => count b <= count a) out
       /\ (forall t, t ∈ out -> count t = sum_qty (items_named (top_item t) scenario))
       /\ (forall a b, before a b out -> count a = count b ->
             entries_order (item_names scenario) (top_item a) (top_item b)).
Proof.
  split.
  - repeat constructor.
  - apply (getTopItems_order scenario (Some 10)). repeat constructor.
Defined.

(** C8 fails on the code for item names that are array indices: [10] is
    seen ahead of [2] with the same quantity, and [2] comes first in the
    output. *)
Lemma getTopItems_numeric_names :
  seen_before "10" "2" (item_names numbered)
  /\ getTopItems numbered (Some 10)
     = Some [ {| top_item := "2"; count := 1 |};
              {| top_item := "10"; count := 1 |} ]
  /\ before {| top_item := "2"; count := 1 |} {| top_item := "10"; count := 1 |}
       [ {| top_item := "2"; count := 1 |}; {| top_item := "10"; count := 1 |} ].
Proof.
  split_and!.
  - exists [], ["2"]. split_and!; [done| |]; apply not_elem_of_nil.
  - done.
  - by exists [], [], [].
Qed.

(** * Facts about [getOrdersOverTime] *)

Section time_facts.
Implicit Types (o : Js.JsObject Z) (order : Order).

Lemma last_char_append (h : string) (c d : ascii) :
  last_char (h +:+ String c (String d EmptyString)) = Some d.
Proof.
  induction h as [|x h IH]; [done|]. rewrite append_cons.
  cbn [last_char]. rewrite IH.
  destruct h; by rewrite ?append_cons.
Qed.

Lemma timeKey_last order : last_char (timeKey order) = Some "M"%char.
Proof. unfold timeKey. destruct (Js.includes _ _); apply last_char_append. Qed.

(** The read [timeData[timeKey]] never reaches [Object.prototype]. *)
Lemma timeKey_not_inherited order : Js.inherited (timeKey order) = false.
Proof.
  pose proof (timeKey_last order) as H.
  destruct (Js.inherited (timeKey order)) eqn:E; [|done].
  apply existsb_exists in E as (k & Hin & E%String.eqb_eq).
  rewrite E in H. cbn in Hin. by repeat destruct Hin as [<-|Hin].
Qed.

Lemma timeKey_get order o :
  Js.get (timeKey order) o
  = match Js.get_own (timeKey order) o with
    | Some n => Js.Own n
    | None => Js.Undefined
    end.
Proof. unfold Js.get. by rewrite timeKey_not_inherited. Qed.

Lemma all_digits_last (s : string) (c : ascii) :
  last_char s = Some c -> Js.is_digit c = false -> Js.all_digits s = false.
Proof.
  induction s as [|x s IH]; [done|]. cbn [last_char Js.all_digits].
  destruct s as [|y s].
  - intros [= ->] ->. done.
  - intros H1 H2. rewrite (IH H1 H2). apply andb_false_r.
Qed.

Lemma timeKey_not_index order : Js.is_array_index (timeKey order) = false.
Proof.
  destruct (Js.is_array_index _) eqn:E; [|done].
  apply is_array_index_digits in E.
  by rewrite (all_digits_last _ _ (timeKey_last order)) in E.
Qed.

Lemma time_step_group o order :
  time_step o order = group_step timeKey tick_init tick_add o order.
Proof.
  unfold time_step, group_step.
  destruct (Js.get_own (timeKey order) o) as [n|] eqn:E; [|done].
  by rewrite (set_own_modify _ (tick_add order) n).
Qed.

Lemma time_loop_grouped (l pre : list Order) o :
  grouped timeKey tick_init tick_add o pre ->
  grouped timeKey tick_init tick_add (fold_left time_step l o) (pre ++ l).
Proof.
  revert pre o. induction l as [|x l IH]; intros pre o Hg; cbn [fold_left].
  - by rewrite app_nil_r.
  - rewrite time_step_group.
    specialize (IH (pre ++ [x]) _ (group_step_grouped _ _ _ _ _ x Hg)).
    by rewrite <- app_assoc in IH.
Qed.

Lemma tick_group_value (x : Order) (r : list Order) :
  fold_left (fun v y => tick_add y v) r (tick_init x)
  = Z.of_nat (length (x :: r)).
Proof.
  assert (forall n, fold_left (fun v y => tick_add y v) r n
                    = n + Z.of_nat (length r)) as H.
  { induction r as [|y r IH]; intros n; cbn [fold_left length]; [lia|].
    rewrite IH. unfold tick_add. destruct (Z.eqb_spec n 0); lia. }
  rewrite H. unfold tick_init. cbn [length]. lia.
Qed.

Lemma timeData_entries (l : list Order) :
  let timeData := fold_left time_step l [] in
  Js.entries timeData = timeData
  /\ grouped timeKey tick_init tick_add timeData l.
Proof.
  cbn. pose proof (time_loop_grouped l [] [] (grouped_nil _ _ _)) as Hg.
  cbn [app] in Hg. split; [|done]. apply entries_no_index.
  destruct Hg as [-> _]. apply Forall_forall. intros k Hk.
  apply elem_of_first_seen, list_elem_of_fmap in Hk as (x & -> & _).
  apply timeKey_not_index.
Qed.

(** Every order has its bucket, which counts the orders with its key. *)
Lemma getOrdersOverTime_bucket (l : list Order) order :
  order ∈ l ->
  exists p, p ∈ getOrdersOverTime l
            /\ tp_time p = timeKey order
            /\ tp_orders p = Z.of_nat (length (bucket (timeKey order) l))
            /\ 1 <= tp_orders p.
Proof.
  intros Hin. destruct (timeData_entries l) as [He Hg].
  assert (timeKey order ∈ (fold_left time_step l []).*1) as Hk.
  { destruct Hg as [-> _]. apply elem_of_first_seen, list_elem_of_fmap.
    by exists order. }
  apply list_elem_of_fmap in Hk as ([k n] & Hk & Hkn). cbn in Hk. subst k.
  destruct (grouped_elem _ _ _ _ _ _ _ Hg Hkn) as (x & r & Hgr & Hn).
  rewrite tick_group_value in Hn.
  exists (time_point (timeKey order, n)). split_and!; [|done| |].
  - unfold getOrdersOverTime. rewrite sort_Permutation, He.
    apply list_elem_of_fmap. by exists (timeKey order, n).
  - cbn. unfold bucket. unfold group_of in Hgr. by rewrite Hgr.
  - cbn. rewrite Hn. cbn [length]. lia.
Qed.

Lemma split_head_append (h r : string) :
  Js.includes ":" h = false -> Js.split_head ":" (h +:+ ":" +:+ r) = h.
Proof.
  change (":" +:+ r) with (String ":" r).
  induction h as [|c h IH]; [done|].
  rewrite append_cons. cbn [Js.includes Js.split_head String.prefix].
  intros [H1 H2]%orb_false_elim.
  destruct (Ascii.eqb_spec c ":") as [->|Hc].
  - cbn in H1. by destruct h.
  - by rewrite (IH H2).
Qed.

Lemma sum_orders_Permutation (l1 l2 : list TimePoint) :
  l1 ≡ₚ l2 -> sum_orders l1 = sum_orders l2.
Proof. induction 1; cbn; lia. Qed.

Lemma sum_orders_time_step o order :
  sum_orders (map time_point (time_step o order))
  = sum_orders (map time_point o) + 1.
Proof.
  unfold time_step. generalize (timeKey order). intros k.
  induction o as [|[k0 v] r IH]; cbn [Js.get_own]; [done|].
  destruct (String.eqb k0 k) eqn:E.
  - cbn [Js.set]. rewrite E. cbn. destruct (Z.eqb_spec v 0); lia.
  - destruct (Js.get_own k r) eqn:Er; cbn [Js.set]; rewrite E; cbn;
      cbn in IH; rewrite IH; lia.
Qed.

Lemma sum_orders_time_loop (l : list Order) o :
  sum_orders (map time_point (fold_left time_step l o))
  = sum_orders (map time_point o) + Z.of_nat (length l).
Proof.
  revert o. induction l as [|x l IH]; intros o; cbn [fold_left length]; [lia|].
  rewrite IH, sum_orders_time_step. lia.
Qed.

End time_facts.

(** C4, as the code has it: the bucket key of a record is the text in
    front of the first colon of its time, as written, followed by the
    designator: a leading zero stays. The bucket counts the records with
    that key. *)
Theorem getOrdersOverTime_bucket_key (l : list Order) (order : Order)
    (hour rest : string) :
  order ∈ l ->
  time order = hour +:+ ":" +:+ rest ->
  Js.includes ":" hour = false ->
  exists p,
    p ∈ getOrdersOverTime l
    /\ tp_time p = hour +:+ (if Js.includes "PM" (time order) then "PM" else "AM")
    /\ tp_orders p = Z.of_nat (length (bucket (tp_time p) l)).
Proof.
  intros Hin Ht Hh.
  destruct (getOrdersOverTime_bucket l order Hin) as (p & Hp & Hk & Hn & _).
  exists p. split_and!; [done| |by rewrite Hk].
  rewrite Hk. unfold timeKey. by rewrite Ht at 1; rewrite split_head_append.
Qed.

Lemma getOrdersOverTime_bucket_key_witness :
  priya ∈ scenario
  /\ time priya = "02" +:+ ":" +:+ "00 PM"
  /\ Js.includes ":" "02" = false
  /\ exists p,
       p ∈ getOrdersOverTime scenario
       /\ tp_time p = "02" +:+ (if Js.includes "PM" (time priya) then "PM" else "AM")
       /\ tp_orders p = Z.of_nat (length (bucket (tp_time p) scenario)).
Proof.
  split_and!.
  - right; right; left.
  - reflexivity.
  - reflexivity.
  - apply (getOrdersOverTime_bucket_key scenario priya "02" "00 PM").
    + right; right; left.
    + reflexivity.
    + reflexivity.
Defined.

(** C4 fails on the code: the time [02:00 PM] falls in the bucket
    [02PM], and no bucket is named [2PM]. *)
Lemma getOrdersOverTime_keeps_padding :
  time priya = "02:00 PM"
  /\ getOrdersOverTime [priya] = [ {| tp_time := "02PM"; tp_orders := 1 |} ]
  /\ ~ (exists p, p ∈ getOrdersOverTime [priya] /\ tp_time p = "2PM").
Proof.
  split_and!; [done..|].
  intros (p & Hp & Hk). vm_compute in Hp.
  apply list_elem_of_singleton in Hp. by subst p.
Qed.

(** C5 fails on the code: [getHour] leaves the hour of [12AM] at 12, so
    the bucket of an order shortly after midnight comes after the
    morning bucket instead of first. *)
Theorem getOrdersOverTime_midnight_last :
  getHour "12AM" = Some 12
  /\ getOrdersOverTime midnight_and_morning
     = [ {| tp_time := "09AM"; tp_orders := 1 |};
         {| tp_time := "12AM"; tp_orders := 1 |} ].
Proof. by split. Qed.

(** C6, as the code has it: [getOrdersOverTime] has no failure: whatever
    the time texts are, every record is counted in the bucket of its
    key, and the counts add up to the number of records. *)
Theorem getOrdersOverTime_counts_every_record (l : list Order) :
  (forall order, order ∈ l ->
     exists p, p ∈ getOrdersOverTime l
               /\ tp_time p = timeKey order /\ 1 <= tp_orders p)
  /\ sum_orders (getOrdersOverTime l) = Z.of_nat (length l).
Proof.
  split.
  - intros order Hin.
    destruct (getOrdersOverTime_bucket l order Hin) as (p & Hp & Hk & _ & Hn).
    by exists p.
  - unfold getOrdersOverTime.
    rewrite (sum_orders_Permutation _ _ (sort_Permutation _ _)).
    destruct (timeData_entries l) as [-> _].
    by rewrite sum_orders_time_loop.
Qed.

Lemma getOrdersOverTime_counts_every_record_witness :
  at_time "25:00" ∈ malformed_times
  /\ exists p, p ∈ getOrdersOverTime malformed_times
                /\ tp_time p = timeKey (at_time "25:00") /\ 1 <= tp_orders p.
Proof.
  split.
  - left.
  - apply (proj1 (getOrdersOverTime_counts_every_record malformed_times)). left.
Defined.

(** C6 fails on the code: times without a designator, one with hour 25,
    are counted under [AM] keys instead of being refused. *)
Lemma getOrdersOverTime_accepts_malformed :
  getOrdersOverTime malformed_times
  = [ {| tp_time := "9AM"; tp_orders := 1 |};
      {| tp_time := "25AM"; tp_orders := 1 |} ].
Proof. done. Qed.

(** * Facts about [flattenedOrders] *)

Section flatten_facts.

Lemma digit_run_uint (d : Decimal.uint) (x : string) :
  digit_run (NilEmpty.string_of_uint d +:+ String "-" x)
  = NilEmpty.string_of_uint d.
Proof.
  induction d; cbn [NilEmpty.string_of_uint]; [done|..];
    rewrite append_cons; cbn [digit_run]; by rewrite IHd.
Qed.

Lemma number_prefix_int (i : Decimal.int) (x : string) :
  number_prefix (NilZero.string_of_int i +:+ String "-" x)
  = NilZero.string_of_int i.
Proof.
  destruct i as [d|d]; cbn [NilZero.string_of_int].
  - destruct d; try done; cbn [NilZero.string_of_uint NilEmpty.string_of_uint];
      rewrite append_cons; cbn [number_prefix digit_run];
      by rewrite digit_run_uint.
  - rewrite append_cons. cbn [number_prefix]. f_equal.
    destruct d; try done; apply digit_run_uint.
Qed.

Lemma to_int_proper (n : Z) :
  Z.to_int n <> Decimal.Pos Decimal.Nil /\ Z.to_int n <> Decimal.Neg Decimal.Nil.
Proof.
  destruct n as [|p|p]; cbn; split; try done; intros [= H];
    by apply DecimalPos.Unsigned.to_uint_nonnil in H.
Qed.

Lemma number_to_string_inj (n m : Z) :
  Js.number_to_string n = Js.number_to_string m -> n = m.
Proof.
  unfold Js.number_to_string. intros E.
  apply (f_equal NilZero.int_of_string) in E.
  destruct (to_int_proper n), (to_int_proper m).
  rewrite !NilZero.isi in E by done.
  apply DecimalZ.to_int_inj. by injection E.
Qed.

Lemma append_inj_r (s a b : string) : s +:+ a = s +:+ b -> a = b.
Proof.
  induction s as [|c s IH]; [done|]. rewrite !append_cons.
  intros [= E]. by apply IH.
Qed.

(** The composite id determines the record id and the item name. *)
Lemma composite_id_inj (o o' : Order) (it it' : LineItem) :
  composite_id o it = composite_id o' it' ->
  id o = id o' /\ item it = item it'.
Proof.
  unfold composite_id. change ("-" +:+ ?x) with (String "-" x). intros E.
  assert (Js.number_to_string (id o) = Js.number_to_string (id o')) as En.
  { apply (f_equal number_prefix) in E.
    unfold Js.number_to_string in *. by rewrite !number_prefix_int in E. }
  rewrite En in E. apply append_inj_r in E. injection E as E.
  split; [by apply number_to_string_inj|done].
Qed.

Lemma flatten_order_ids (o : Order) :
  map row_id (flatten_order o) = map (composite_id o) (orders o).
Proof. unfold flatten_order. by rewrite map_map. Qed.

Lemma flatten_order_NoDup (o : Order) :
  NoDup (map item (orders o)) -> NoDup (map row_id (flatten_order o)).
Proof.
  rewrite flatten_order_ids. generalize (orders o). intros its.
  induction its as [|it its IH]; cbn [map]; [constructor|].
  intros [Hit Hits]%NoDup_cons. apply NoDup_cons. split; [|by apply IH].
  intros (it' & E & Hin)%list_elem_of_fmap.
  apply composite_id_inj in E as [_ E]. apply Hit.
  apply list_elem_of_fmap. by exists it'.
Qed.

Lemma flattened_id_origin (l : list Order) (x : string) :
  x ∈ map row_id (flattenedOrders l) ->
  exists o it, o ∈ l /\ x = composite_id o it.
Proof.
  intros (r & -> & Hr)%list_elem_of_fmap. unfold flattenedOrders in Hr.
  apply list_elem_of_In, in_flat_map in Hr as (o & Ho & Hr).
  unfold flatten_order in Hr. apply in_map_iff in Hr as (it & <- & _).
  exists o, it. split; [by apply list_elem_of_In|done].
Qed.

End flatten_facts.

(** The composite ids of the flattened rows are pairwise distinct when
    the records have pairwise distinct ids, integers of at most
    [2 ^ 53] in magnitude, and no record names an item twice. *)
Theorem flattenedOrders_ids_unique (l : list Order) :
  Forall (fun o => Z.abs (id o) <= 2 ^ 53) l ->
  NoDup (map id l) ->
  Forall (fun o => NoDup (map item (orders o))) l ->
  NoDup (map row_id (flattenedOrders l)).
Proof.
  intros _. induction l as [|o l IH]; [constructor|].
  cbn [map]. intros [Hid Hids]%NoDup_cons [Ho Hl]%Forall_cons.
  unfold flattenedOrders. cbn [flat_map]. rewrite map_app.
  apply NoDup_app. split_and!.
  - by apply flatten_order_NoDup.
  - intros x Hx Hx'. rewrite flatten_order_ids in Hx.
    apply list_elem_of_fmap in Hx as (it & -> & _).
    apply flattened_id_origin in Hx' as (o' & it' & Ho' & E).
    apply composite_id_inj in E as [E _]. apply Hid. rewrite E.
    apply list_elem_of_fmap. by exists o'.
  - by apply IH.
Qed.

Lemma flattenedOrders_ids_unique_witness :
  Forall (fun o => Z.abs (id o) <= 2 ^ 53) scenario
  /\ NoDup (map id scenario)
  /\ Forall (fun o => NoDup (map item (orders o))) scenario
  /\ NoDup (map row_id (flattenedOrders scenario)).
Proof.
  assert (Forall (fun o => Z.abs (id o) <= 2 ^ 53) scenario) as H0
    by (repeat constructor; apply Z.leb_le; reflexivity).
  assert (NoDup (map id scenario)) as H1.
  { apply (bool_decide_unpack _). vm_compute. exact I. }
  assert (Forall (fun o => NoDup (map item (orders o))) scenario) as H2.
  { repeat constructor; apply (bool_decide_unpack _); vm_compute; exact I. }
  split_and!; [exact H0|exact H1|exact H2|].
  exact (flattenedOrders_ids_unique scenario H0 H1 H2).
Defined.

(** C2 fails on the code: a record that names an item twice yields two
    different rows with one id, the id that the table gives its rows as
    their key. *)
Theorem flattenedOrders_repeated_item :
  map row_id (flattenedOrders repeated_item) = ["1-Shirt"; "1-Shirt"]
  /\ ~ NoDup (map row_id (flattenedOrders repeated_item))
  /\ exists r1 r2,
       flattenedOrders repeated_item = [r1; r2]
       /\ row_id r1 = row_id r2 /\ quantity r1 <> quantity r2.
Proof.
  split; [done|]. split.
  - intros H. vm_compute in H.
    apply NoDup_cons in H as [H _]. apply H. left.
  - by eexists _, _.
Qed.

(** * Facts about the comparator of the table *)

Section string_order.
Implicit Types (a b c : string).

Lemma ascii_compare_refl (x : ascii) : Ascii.compare x x = Eq.
Proof. apply N.compare_refl. Qed.

Lemma str_compare_refl a : String.compare a a = Eq.
Proof.
  induction a as [|x a IH]; [done|]. cbn. by rewrite ascii_compare_refl.
Qed.

Lemma str_compare_trans a b c :
  String.compare a b = Lt -> String.compare b c = Lt -> String.compare a c = Lt.
Proof.
  revert b c. induction a as [|x a IH]; intros [|y b] [|z c]; cbn; try done.
  unfold Ascii.compare.
  destruct (N.compare_spec (N_of_ascii x) (N_of_ascii y)) as [E1|E1|E1];
    destruct (N.compare_spec (N_of_ascii y) (N_of_ascii z)) as [E2|E2|E2];
    try done; intros H1 H2.
  - rewrite E1, E2, N.compare_refl. by eapply IH.
  - rewrite E1. by apply N.compare_lt_iff in E2 as ->.
  - rewrite <- E2. by apply N.compare_lt_iff in E1 as ->.
  - assert (N_of_ascii x < N_of_ascii z)%N as E by lia.
    by apply N.compare_lt_iff in E as ->.
Qed.

Lemma str_lt_irrefl a : Js.str_lt a a = false.
Proof. unfold Js.str_lt, String.ltb. by rewrite str_compare_refl. Qed.

Lemma str_lt_asym a b : Js.str_lt a b = true -> Js.str_lt b a = false.
Proof.
  unfold Js.str_lt, String.ltb. rewrite (String.compare_antisym b a).
  by destruct (String.compare a b).
Qed.

Lemma str_lt_neither a b :
  Js.str_lt a b = false -> Js.str_lt b a = false -> a = b.
Proof.
  unfold Js.str_lt, String.ltb. rewrite (String.compare_antisym b a).
  destruct (String.compare a b) eqn:E; try done.
  intros _ _. by apply String.compare_eq_iff.
Qed.

(** [<=] on strings is transitive. *)
Lemma str_le_trans a b c :
  Js.str_lt b a = false -> Js.str_lt c b = false -> Js.str_lt c a = false.
Proof.
  intros H1 H2. destruct (Js.str_lt c a) eqn:H3; [|done].
  destruct (Js.str_lt a b) eqn:H4.
  - assert (Js.str_lt c b = true) as H; [|congruence].
    unfold Js.str_lt, String.ltb in *.
    destruct (String.compare c a) eqn:E1; try done.
    destruct (String.compare a b) eqn:E2; try done.
    by rewrite (str_compare_trans _ _ _ E1 E2).
  - rewrite (str_lt_neither _ _ H4 H1) in H3. congruence.
Qed.

End string_order.

Section comparator_facts.
Context `{cm : Js.CaseMapping} (cfg : SortConfig).
Implicit Types (x y z : Value) (r : FlattenedRow).

Lemma compare_rows_values r r' :
  compare_rows cfg r r'
  = compare_values (ascending cfg) (sort_value cfg r) (sort_value cfg r').
Proof.
  unfold compare_rows, compare_values, sort_value, ascending.
  by destruct (field (key cfg) r), (field (key cfg) r').
Qed.

(** All rows have a value of one shape in the sort column. *)
Lemma sort_value_shape r r' :
  shape_of (sort_value cfg r) = shape_of (sort_value cfg r').
Proof.
  unfold sort_value, field. by repeat case_match.
Qed.

Lemma value_lt_asym x y : value_lt x y = true -> value_lt y x = false.
Proof.
  destruct x, y; cbn; try done; [apply str_lt_asym|].
  intros H%Z.ltb_lt. apply Z.ltb_ge. lia.
Qed.

Lemma value_le_total x y : value_le x y \/ value_le y x.
Proof.
  unfold value_le. destruct (value_lt y x) eqn:E; [|by left].
  right. by apply value_lt_asym.
Qed.

Lemma value_le_trans x y z :
  shape_of x = shape_of y -> shape_of y = shape_of z ->
  value_le x y -> value_le y z -> value_le x z.
Proof.
  unfold value_le. destruct x, y, z; cbn; try done.
  - intros _ _. apply str_le_trans.
  - intros _ _ H1%Z.ltb_ge H2%Z.ltb_ge. apply Z.ltb_ge. lia.
Qed.

Lemma compare_values_le (asc : bool) x y :
  compare_values asc x y <= 0
  <-> if asc then value_le x y else value_le y x.
Proof.
  unfold compare_values, value_le.
  destruct (value_lt x y) eqn:E1.
  - rewrite (value_lt_asym _ _ E1). destruct asc; split; (done || lia).
  - destruct (value_lt y x), asc; split; (done || lia).
Qed.

Lemma compare_values_zero (asc : bool) x y :
  compare_values asc x y = 0
  <-> value_lt x y = false /\ value_lt y x = false.
Proof.
  unfold compare_values.
  destruct (value_lt x y), (value_lt y x), asc; split; try done; try lia;
    by intros [? ?].
Qed.

Lemma compare_rows_total r r' :
  compare_rows cfg r r' <= 0 \/ compare_rows cfg r' r <= 0.
Proof.
  rewrite !compare_rows_values.
  destruct (value_le_total (sort_value cfg r) (sort_value cfg r')) as [H|H];
    destruct (ascending cfg) eqn:E;
    ((left; apply compare_values_le; by rewrite ?E)
     || (right; apply compare_values_le; by rewrite ?E)).
Qed.

Lemma compare_rows_trans r1 r2 r3 :
  compare_rows cfg r1 r2 <= 0 -> compare_rows cfg r2 r3 <= 0 ->
  compare_rows cfg r1 r3 <= 0.
Proof.
  rewrite !compare_rows_values.
  intros H1%compare_values_le H2%compare_values_le. apply compare_values_le.
  destruct (ascending cfg).
  - eapply value_le_trans; [apply sort_value_shape..|done|done].
  - eapply value_le_trans; [apply sort_value_shape..|done|done].
Qed.

Lemma compare_rows_sym r r' :
  compare_rows cfg r r' = 0 -> compare_rows cfg r' r = 0.
Proof.
  rewrite !compare_rows_values.
  intros [H1 H2]%compare_values_zero. by apply compare_values_zero.
Qed.

(** Rows that compare equal to one row do not compare greater than
    one another. *)
Lemma compare_rows_class r r1 r2 :
  compare_rows cfg r r1 = 0 -> compare_rows cfg r r2 = 0 ->
  compare_rows cfg r1 r2 <= 0.
Proof.
  intros H1%compare_rows_sym H2.
  apply (compare_rows_trans r1 r r2); lia.
Qed.

Lemma compare_rows_strings r r' (s t : string) :
  field (key cfg) r = VString s -> field (key cfg) r' = VString t ->
  compare_rows cfg r r'
  = compare_values (ascending cfg)
      (VString (Js.toLowerCase s)) (VString (Js.toLowerCase t)).
Proof.
  intros Hs Ht. rewrite compare_rows_values. unfold sort_value.
  by rewrite Hs, Ht.
Qed.

End comparator_facts.

(** * Facts about [filteredAndSortedOrders] *)

Section table_facts.
Context `{cm : Js.CaseMapping}.
Implicit Types (h : store) (a : loc) (rows : list FlattenedRow).

Lemma truthy_false (s : string) : truthy s = false <-> s = EmptyString.
Proof.
  unfold truthy. rewrite negb_false_iff. apply String.eqb_eq.
Qed.

Lemma truthy_true (s : string) : truthy s = true <-> s <> EmptyString.
Proof.
  unfold truthy. rewrite negb_true_iff. apply String.eqb_neq.
Qed.

Lemma fresh_unused h : h !! fresh (dom h) = None.
Proof. apply not_elem_of_dom, is_fresh. Qed.

Lemma array_filter_spec (p : FlattenedRow -> bool) a h rows :
  h !! a = Some rows ->
  let '(a', h') := array_filter p a h in
  h !! a' = None /\ h' = <[a' := List.filter p rows]> h.
Proof.
  intros Ha. unfold array_filter, alloc, read. rewrite Ha. cbn.
  split; [apply fresh_unused|done].
Qed.

(** The array the memo returns holds the filtered rows, sorted. *)
Lemma filteredAndSortedOrders_rows filters cfg a0 h rows a h' :
  h !! a0 = Some rows ->
  filteredAndSortedOrders filters cfg a0 h = (a, h') ->
  h' !! a = Some (sorted_rows cfg (filter_rows filters rows)).
Proof.
  intros Ha0. unfold filteredAndSortedOrders, filter_rows, sorted_rows.
  unfold array_filter, array_sort, alloc, read.
  destruct (truthy (search filters)), (truthy (itemType filters)),
    (truthy (key cfg)); intros [= <- <-]; simplify_map_eq; try done.
  all: by rewrite ?lookup_insert_eq, ?Ha0.
Qed.

(** With both filters empty no array is made: the array returned is
    the array given, and it is the only one that can have changed. *)
Lemma filteredAndSortedOrders_in_place filters cfg a0 h rows a h' :
  h !! a0 = Some rows ->
  search filters = EmptyString -> itemType filters = EmptyString ->
  filteredAndSortedOrders filters cfg a0 h = (a, h') ->
  a = a0 /\ h' = <[a0 := sorted_rows cfg rows]> h.
Proof.
  intros Ha0 Hs%truthy_false Hi%truthy_false.
  unfold filteredAndSortedOrders, sorted_rows, array_sort, read.
  rewrite Hs, Hi, Ha0. cbn.
  destruct (truthy (key cfg)); intros [= <- <-]; split; try done.
  by rewrite insert_id.
Qed.

Lemma fresh_ne h a : is_Some (h !! a) -> fresh (dom h) <> a.
Proof.
  intros [x Hx] E. pose proof (fresh_unused h) as F. rewrite E in F. congruence.
Qed.

(** With a filter set the array returned is a new one and the array
    given keeps its rows. *)
Lemma filteredAndSortedOrders_copy filters cfg a0 h rows a h' :
  h !! a0 = Some rows ->
  search filters <> EmptyString \/ itemType filters <> EmptyString ->
  filteredAndSortedOrders filters cfg a0 h = (a, h') ->
  a <> a0 /\ h !! a = None /\ h' !! a0 = Some rows.
Proof.
  intros Ha0 Hf.
  assert (truthy (search filters) = true \/ truthy (itemType filters) = true)
    as Hf' by (destruct Hf; [left|right]; by apply truthy_true).
  clear Hf. unfold filteredAndSortedOrders, array_filter, array_sort, alloc.
  set (a1 := fresh (dom h)).
  assert (a1 <> a0) as N1 by (apply fresh_ne; eauto).
  assert (h !! a1 = None) as F1 by apply fresh_unused.
  destruct (truthy (search filters)); [|destruct Hf' as [?|Hi]; [done|]].
  - cbv zeta. change (fresh (dom h)) with a1. set (h1 := <[a1 := _]> h).
    assert (h1 !! a0 = Some rows) as Ha1 by (unfold h1; by rewrite lookup_insert_ne).
    destruct (truthy (itemType filters)).
    + set (a2 := fresh (dom h1)). set (h2 := <[a2 := _]> h1).
      assert (a2 <> a0) as N2 by (apply fresh_ne; eauto).
      assert (a2 <> a1) as N3.
      { apply fresh_ne. unfold h1. rewrite lookup_insert_eq. eauto. }
      assert (h !! a2 = None) as F2.
      { pose proof (fresh_unused h1) as F. fold a2 in F. unfold h1 in F.
        by rewrite lookup_insert_ne in F. }
      assert (h2 !! a0 = Some rows) as Ha2
        by (unfold h2; by rewrite lookup_insert_ne).
      destruct (truthy (key cfg)); intros [= <- <-]; split_and!; try done.
      by rewrite lookup_insert_ne.
    + destruct (truthy (key cfg)); intros [= <- <-]; split_and!; try done.
      by rewrite lookup_insert_ne.
  - rewrite Hi. cbv zeta. change (fresh (dom h)) with a1.
    set (h1 := <[a1 := _]> h).
    assert (h1 !! a0 = Some rows) as Ha1 by (unfold h1; by rewrite lookup_insert_ne).
    destruct (truthy (key cfg)); intros [= <- <-]; split_and!; try done.
    by rewrite lookup_insert_ne.
Qed.

End table_facts.

Section string_comparator.

Lemma compare_strings_zero (asc : bool) (u v : string) :
  compare_values asc (VString u) (VString v) = 0 <-> u = v.
Proof.
  split.
  - intros [H1 H2]%compare_values_zero. by apply str_lt_neither.
  - intros ->. apply compare_values_zero. cbn. by rewrite str_lt_irrefl.
Qed.

Lemma compare_strings_neg (asc : bool) (u v : string) :
  compare_values asc (VString u) (VString v) < 0
  <-> if asc then Js.str_lt u v = true else Js.str_lt v u = true.
Proof.
  unfold compare_values. cbn [value_lt].
  destruct (Js.str_lt u v) eqn:E1.
  - rewrite (str_lt_asym _ _ E1). destruct asc; split; (done || lia).
  - destruct (Js.str_lt v u), asc; split; (done || lia).
Qed.

End string_comparator.

(** C9: the array [filteredAndSortedOrders] returns holds the rows that
    pass the filters, reordered by a stable sort: it is a permutation of
    the filtered rows; when a sort key is set, no row compares greater
    than a later one; and the rows that compare equal to a given row
    come in the order the filtered rows have them. On a string column
    the comparator decides by the lowercased values. *)
Theorem filteredAndSortedOrders_stable_sort `{cm : Js.CaseMapping}
    (filters : Filters) (cfg : SortConfig) (a0 : loc) (h : store)
    (rows : list FlattenedRow) (a : loc) (h' : store) :
  h !! a0 = Some rows ->
  filteredAndSortedOrders filters cfg a0 h = (a, h') ->
  exists out,
    h' !! a = Some out
    /\ out ≡ₚ filter_rows filters rows
    /\ (key cfg <> EmptyString ->
        StronglySorted (fun x y => compare_rows cfg x y <= 0) out)
    /\ (forall r,
          List.filter (fun x => compare_rows cfg r x =? 0) out
          = List.filter (fun x => compare_rows cfg r x =? 0)
              (filter_rows filters rows))
    /\ (forall r r' s t,
          field (key cfg) r = VString s ->
          field (key cfg) r' = VString t ->
          (compare_rows cfg r r' = 0 <-> Js.toLowerCase s = Js.toLowerCase t)
          /\ (compare_rows cfg r r' < 0
              <-> if ascending cfg
                  then Js.str_lt (Js.toLowerCase s) (Js.toLowerCase t) = true
                  else Js.str_lt (Js.toLowerCase t) (Js.toLowerCase s) = true)).
Proof.
  intros Ha0 Hf. eexists.
  split; [exact (filteredAndSortedOrders_rows _ _ _ _ _ _ _ Ha0 Hf)|].
  unfold sorted_rows. split_and!.
  - destruct (truthy (key cfg)); [apply sort_Permutation|done].
  - intros Hk%truthy_true. rewrite Hk.
    apply sort_sorted; [apply compare_rows_total|apply compare_rows_trans].
  - intros r. destruct (truthy (key cfg)); [|done].
    apply sort_filter. intros x y Hx%Z.eqb_eq Hy%Z.eqb_eq.
    by apply (compare_rows_class cfg r).
  - intros r r' s t Hs Ht. rewrite (compare_rows_strings cfg r r' s t Hs Ht).
    split; [apply compare_strings_zero|apply compare_strings_neg].
Qed.

Section stable_sort_witness.
#[local] Existing Instance Js.ascii_lower.

Lemma filteredAndSortedOrders_stable_sort_witness :
  let res := filteredAndSortedOrders search_raj by_name table_array table_store in
  table_store !! table_array = Some (flattenedOrders scenario)
  /\ filteredAndSortedOrders search_raj by_name table_array table_store
     = (res.1, res.2)
  /\ exists out,
       res.2 !! res.1 = Some out
       /\ out ≡ₚ filter_rows search_raj (flattenedOrders scenario)
       /\ (key by_name <> EmptyString ->
           StronglySorted (fun x y => compare_rows by_name x y <= 0) out)
       /\ (forall r,
             List.filter (fun x => compare_rows by_name r x =? 0) out
             = List.filter (fun x => compare_rows by_name r x =? 0)
                 (filter_rows search_raj (flattenedOrders scenario)))
       /\ (forall r r' s t,
             field (key by_name) r = VString s ->
             field (key by_name) r' = VString t ->
             (compare_rows by_name r r' = 0 <-> Js.toLowerCase s = Js.toLowerCase t)
             /\ (compare_rows by_name r r' < 0
                 <-> if ascending by_name
                     then Js.str_lt (Js.toLowerCase s) (Js.toLowerCase t) = true
                     else Js.str_lt (Js.toLowerCase t) (Js.toLowerCase s) = true)).
Proof.
  intros res. split_and!.
  - reflexivity.
  - reflexivity.
  - apply (filteredAndSortedOrders_stable_sort search_raj by_name table_array
             table_store (flattenedOrders scenario) res.1 res.2);
      reflexivity.
Defined.

End stable_sort_witness.

(** C10: with both filters empty the array returned is the flattened
    array itself, and the store changes in that array only, which now
    holds the sorted rows; with a filter set the array returned is a new
    one, which holds the sorted copy, and the flattened array keeps its
    rows. *)
Theorem filteredAndSortedOrders_sorts_in_place `{cm : Js.CaseMapping}
    (filters : Filters) (cfg : SortConfig) (a0 : loc) (h : store)
    (rows : list FlattenedRow) (a : loc) (h' : store) :
  h !! a0 = Some rows ->
  filteredAndSortedOrders filters cfg a0 h = (a, h') ->
  (search filters = EmptyString -> itemType filters = EmptyString ->
     a = a0
     /\ h' = <[a0 := sorted_rows cfg rows]> h
     /\ (key cfg <> EmptyString ->
         h' !! a0 = Some (Js.sort (compare_rows cfg) rows)))
  /\ (search filters <> EmptyString \/ itemType filters <> EmptyString ->
        a <> a0
        /\ h !! a = None
        /\ h' !! a0 = Some rows
        /\ h' !! a = Some (sorted_rows cfg (filter_rows filters rows))).
Proof.
  intros Ha0 Hf. split.
  - intros Hs Hi.
    destruct (filteredAndSortedOrders_in_place _ _ _ _ _ _ _ Ha0 Hs Hi Hf)
      as [-> ->].
    split_and!; [done..|]. intros Hk%truthy_true.
    unfold sorted_rows. by rewrite Hk, lookup_insert_eq.
  - intros Hne.
    destruct (filteredAndSortedOrders_copy _ _ _ _ _ _ _ Ha0 Hne Hf)
      as (H1 & H2 & H3).
    split_and!; [done..|].
    exact (filteredAndSortedOrders_rows _ _ _ _ _ _ _ Ha0 Hf).
Qed.

Section sorts_in_place_witness.
#[local] Existing Instance Js.ascii_lower.

Lemma filteredAndSortedOrders_sorts_in_place_witness :
  let res := filteredAndSortedOrders no_filters by_name table_array table_store in
  let res' := filteredAndSortedOrders search_raj by_name table_array table_store in
  table_store !! table_array = Some (flattenedOrders scenario)
  /\ (filteredAndSortedOrders no_filters by_name table_array table_store
      = (res.1, res.2)
      /\ search no_filters = EmptyString
      /\ itemType no_filters = EmptyString
      /\ key by_name <> EmptyString
      /\ res.1 = table_array
      /\ res.2 = <[table_array := sorted_rows by_name (flattenedOrders scenario)]>
                   table_store
      /\ res.2 !! table_array
         = Some (Js.sort (compare_rows by_name) (flattenedOrders scenario)))
  /\ (filteredAndSortedOrders search_raj by_name table_array table_store
      = (res'.1, res'.2)
      /\ (search search_raj <> EmptyString \/ itemType search_raj <> EmptyString)
      /\ res'.1 <> table_array
      /\ table_store !! res'.1 = None
      /\ res'.2 !! table_array = Some (flattenedOrders scenario)
      /\ res'.2 !! res'.1
         = Some (sorted_rows by_name
                   (filter_rows search_raj (flattenedOrders scenario)))).
Proof.
  intros res res'.
  assert (table_store !! table_array = Some (flattenedOrders scenario)) as H1
    by reflexivity.
  assert (filteredAndSortedOrders no_filters by_name table_array table_store
          = (res.1, res.2)) as H2 by reflexivity.
  assert (filteredAndSortedOrders search_raj by_name table_array table_store
          = (res'.1, res'.2)) as H2' by reflexivity.
  assert (key by_name <> EmptyString) as H3 by discriminate.
  assert (search search_raj <> EmptyString \/ itemType search_raj <> EmptyString)
    as H4 by (left; discriminate).
  destruct (proj1 (filteredAndSortedOrders_sorts_in_place no_filters by_name
                     table_array table_store (flattenedOrders scenario)
                     res.1 res.2 H1 H2) eq_refl eq_refl) as (E1 & E2 & E3).
  destruct (proj2 (filteredAndSortedOrders_sorts_in_place search_raj by_name
                     table_array table_store (flattenedOrders scenario)
                     res'.1 res'.2 H1 H2') H4) as (F1 & F2 & F3 & F4).
  split_and!; [exact H1|exact H2|reflexivity|reflexivity|exact H3
              |exact E1|exact E2|exact (E3 H3)
              |exact H2'|exact H4|exact F1|exact F2|exact F3|exact F4].
Defined.

End sorts_in_place_witness.

(** * The primitives on some inputs *)

Example split_head_examples :
  Js.split_head ":" "02:00 PM" = "02" /\ Js.split_head ":" "noon" = "noon".
Proof. by split. Qed.

Example slice_examples :
  Js.str_slice "02PM" 0 (-2) = "02" /\ Js.str_slice_from "02PM" (-2) = "PM"
  /\ Js.str_slice "M" 0 (-2) = "" /\ Js.str_slice_from "M" (-2) = "M"
  /\ Js.slice [1; 2; 3] 0 (-1) = [1; 2] /\ Js.slice [1; 2; 3] 0 5 = [1; 2; 3].
Proof. by split_and!. Qed.

Example parseInt_examples :
  Js.parseInt "09" = Some 9 /\ Js.parseInt "" = None
  /\ Js.parseInt " -0x1f" = Some (-31) /\ Js.parseInt "12abc" = Some 12
  /\ Js.parseInt "0x" = None.
Proof. by split_and!. Qed.

Example number_to_string_examples :
  Js.number_to_string (-15) = "-15" /\ Js.number_to_string 0 = "0"
  /\ Js.number_to_string 120 = "120".
Proof. by split_and!. Qed.

Example toLowerCase_examples :
  Js.ascii_toLowerCase "Raj Kumar" = "raj kumar" /\ Js.str_lt "Zed" "apple" = true
  /\ Js.str_lt (Js.ascii_toLowerCase "Zed") "apple" = false.
Proof. by split_and!. Qed.

Example entries_examples :
  Js.entries [("b", 1); ("10", 2); ("a", 3); ("2", 4); ("01", 5)]
  = [("2", 4); ("10", 2); ("b", 1); ("a", 3); ("01", 5)].
Proof. done. Qed.

Example getHour_examples :
  getHour "9AM" = Some 9 /\ getHour "02PM" = Some 14 /\ getHour "12PM" = Some 12
  /\ getHour "12AM" = Some 12 /\ getHour "AM" = None.
Proof. by split_and!. Qed.

Example getOrdersOverTime_scenario :
  getOrdersOverTime scenario
  = [ {| tp_time := "10AM"; tp_orders := 2 |};
      {| tp_time := "02PM"; tp_orders := 1 |} ].
Proof. done. Qed.

Example getTopItems_scenario :
  getTopItems scenario (Some 1) = Some [ {| top_item := "Shirt"; count := 12 |} ].
Proof. done. Qed.

(** * Facts about the dashboard figures *)

Section dashboard_facts.

(** The two nested [reduce] of the dashboard are exact on safe
    quantities. *)
Lemma fold_total (l : list Order) (a : Z) :
  Z.abs a + abs_qty (flat_map orders l) <= 2 ^ 53 ->
  fold_left
    (fun sum order =>
       Js.add_nan sum
         (Some (fold_left (fun orderSum it => Js.add orderSum (qty it))
                          (orders order) 0)))
    l (Some a)
  = Some (a + exact_total l).
Proof.
  revert a. induction l as [|x r IH]; intros a Hsafe;
    unfold exact_total; cbn [fold_left flat_map].
  - cbn. f_equal. lia.
  - cbn [flat_map] in Hsafe. rewrite abs_qty_app in Hsafe.
    pose proof (abs_qty_nonneg (flat_map orders r)).
    pose proof (exact_qty_bound (orders x)).
    change (fold_left _ (orders x) 0) with (add_qtys 0 (orders x)).
    rewrite add_qtys_exact by (cbn; lia).
    rewrite add_nan_exact by (cbn; lia).
    rewrite IH by lia. rewrite exact_qty_app. unfold exact_total. f_equal. lia.
Qed.

(** So is the [reduce] of the summary panel. *)
Lemma fold_sum_totals (data : list Summary) (a : Z) :
  Z.abs a + abs_totals data <= 2 ^ 53 ->
  fold_left
    (fun sum customer => Js.add_nan sum (Some (MockData.totalQuantity customer)))
    data (Some a)
  = Some (a + sum_totals data).
Proof.
  revert a. induction data as [|x r IH]; intros a Hsafe; cbn [fold_left].
  - cbn. f_equal. lia.
  - cbn [abs_totals sum_totals] in *. pose proof (abs_totals_nonneg r).
    rewrite add_nan_exact by lia. rewrite IH by lia. f_equal. lia.
Qed.

Lemma getTopItems_one (l : list Order) o :
  item_counts l = Some o ->
  getTopItems l (Some 1) = Some (map top_entry (take 1 (ranking o))).
Proof.
  intros Ho. unfold getTopItems. cbn [default]. by rewrite Ho, slice_prefix.
Qed.

Lemma first_seen_nil_inv (l : list string) : first_seen l = [] -> l = [].
Proof.
  destruct l as [|x l]; [done|]. intros E.
  assert (x ∈ first_seen (x :: l)) as H by (apply elem_of_first_seen; left).
  rewrite E in H. by apply elem_of_nil in H.
Qed.

Lemma length_first_seen_le (l : list string) :
  (length (first_seen l) <= length l)%nat.
Proof.
  induction l as [|x l IH] using rev_ind; [done|].
  rewrite first_seen_snoc, length_app. cbn.
  case_decide; rewrite ?length_app; cbn; lia.
Qed.

(** Coarser keys are fewer. *)
Lemma first_seen_coarser {X} (f h : X -> string) (l : list X) :
  (forall a b, a ∈ l -> b ∈ l -> f a = f b -> h a = h b) ->
  (length (first_seen (map h l)) <= length (first_seen (map f l)))%nat.
Proof.
  induction l as [|x l IH] using rev_ind; [done|]. intros Hc.
  assert (forall a b, a ∈ l -> b ∈ l -> f a = f b -> h a = h b) as Hc'.
  { intros a b Ha Hb. apply Hc; apply elem_of_app; by left. }
  specialize (IH Hc'). rewrite !map_app. cbn [map].
  rewrite !first_seen_snoc.
  destruct (decide (f x ∈ first_seen (map f l))) as [Hf|Hf].
  - apply elem_of_first_seen, list_elem_of_fmap in Hf as (y & Hy & Hin).
    assert (h x = h y) as Hh.
    { apply Hc; [apply elem_of_app; right; left|apply elem_of_app; by left|done]. }
    rewrite decide_True; [done|].
    apply elem_of_first_seen, list_elem_of_fmap. exists y. by rewrite Hh.
  - case_decide; rewrite ?length_app; cbn; lia.
Qed.

Lemma str_length_append (s t : string) :
  String.length (s +:+ t) = (String.length s + String.length t)%nat.
Proof. induction s as [|c s IH]; [done|]. rewrite append_cons. cbn. by rewrite IH. Qed.

Lemma append_inj_length (s1 s2 t1 t2 : string) :
  String.length s1 = String.length s2 ->
  s1 +:+ t1 = s2 +:+ t2 -> s1 = s2 /\ t1 = t2.
Proof.
  revert s2. induction s1 as [|c s1 IH]; intros [|d s2]; try done.
  rewrite !append_cons. intros [= Hl] [= -> E].
  destruct (IH _ Hl E) as [-> ->]. done.
Qed.

(** Two orders with one key and phones of one length have one phone. *)
Lemma summary_key_phone (a b : Order) :
  String.length (phone a) = String.length (phone b) ->
  summary_key a = summary_key b -> phone a = phone b.
Proof.
  unfold summary_key. intros Hl E.
  assert (String.length (name a) = String.length (name b)) as Hn.
  { apply (f_equal String.length) in E. rewrite !str_length_append in E. lia. }
  apply append_inj_length in E as [_ E]; [|done].
  apply (append_inj_length "_" "_") in E as [_ E]; done.
Qed.

End dashboard_facts.

(** While the magnitudes of the quantities add up to [2 ^ 53] at most,
    the dashboard and the summary panel agree on the quantity: the
    [totalQuantity] of [getDashboardStats] is the exact sum of every
    line-item quantity, and so is the [quantity] that [getTotalStats]
    adds up from the summaries of the same orders. *)
Theorem dashboard_total_matches_summaries
    (l : list Order) (out : list Summary) :
  safe_quantities l ->
  getOrdersSummary l = Ok out ->
  Stats.totalQuantity (getDashboardStats l) = Some (exact_total l)
  /\ stat_quantity (getTotalStats (Some out))
     = Stats.totalQuantity (getDashboardStats l).
Proof.
  intros Hsafe Hout.
  destruct (getOrdersSummary_total _ _ Hsafe Hout) as [E1 E2].
  unfold safe_quantities in Hsafe.
  assert (Stats.totalQuantity (getDashboardStats l) = Some (exact_total l)) as ->.
  { unfold getDashboardStats. cbn [Stats.totalQuantity].
    by rewrite fold_total by (cbn; lia). }
  split; [done|]. cbn [getTotalStats stat_quantity].
  rewrite fold_sum_totals by (cbn; lia). by rewrite E1.
Qed.

Lemma dashboard_total_matches_summaries_witness :
  exists out,
    safe_quantities scenario
    /\ getOrdersSummary scenario = Ok out
    /\ Stats.totalQuantity (getDashboardStats scenario) = Some (exact_total scenario)
    /\ stat_quantity (getTotalStats (Some out))
       = Stats.totalQuantity (getDashboardStats scenario).
Proof.
  assert (safe_quantities scenario) as H0 by (apply Z.leb_le; reflexivity).
  eexists. split; [exact H0|]. split; [reflexivity|].
  apply (dashboard_total_matches_summaries scenario _ H0). reflexivity.
Defined.

(** [mostOrderedItem] is [N/A] when the orders have no line item;
    otherwise it is an item name of the input whose accumulated quantity
    no other name exceeds. The figure is determined whenever no item is
    named like a member of [Object.prototype]. *)
Theorem dashboard_most_ordered_item (l : list Order) :
  own_items l ->
  exists top,
    Stats.mostOrderedItem (getDashboardStats l) = Some top
    /\ (flat_map orders l = [] -> top = "N/A")
    /\ (flat_map orders l <> [] ->
        top ∈ item_names l
        /\ forall k, k ∈ item_names l ->
             sum_qty (items_named k l) <= sum_qty (items_named top l)).
Proof.
  intros Hl. destruct (item_counts_grouped l Hl) as (o & Ho & Hg).
  unfold getDashboardStats. cbn [Stats.mostOrderedItem].
  rewrite (getTopItems_one l o Ho).
  pose proof (ranking_sorted o) as Hs. pose proof (ranking_Permutation o) as Hp.
  destruct (ranking o) as [|e r] eqn:Er.
  - cbn. eexists. split; [reflexivity|].
    apply Permutation_nil_l in Hp. subst o. split; [done|]. intros Hne.
    destruct Hg as [Hk _]. cbn in Hk. symmetry in Hk.
    apply first_seen_nil_inv in Hk. by destruct (flat_map orders l).
  - cbn. eexists. split; [reflexivity|]. split.
    { intros E. destruct Hg as [Hk _]. rewrite E in Hk. cbn in Hk.
      apply (f_equal length) in Hk. rewrite length_fmap in Hk.
      apply Permutation_length in Hp. cbn in *. lia. }
    intros _.
    assert (e ∈ o) as He by (rewrite <- Hp; left).
    destruct e as [k0 n0]. cbn.
    split.
    + unfold item_names. apply elem_of_first_seen. destruct Hg as [<- _].
      apply list_elem_of_fmap. by exists (k0, n0).
    + intros k Hk.
      assert (k ∈ o.*1) as Hk'.
      { destruct Hg as [-> _]. by apply elem_of_first_seen. }
      apply list_elem_of_fmap in Hk' as ([k' n] & -> & Hin). cbn.
      rewrite <- (grouped_count _ _ _ _ Hg Hin), <- (grouped_count _ _ _ _ Hg He).
      rewrite <- Hp in Hin. apply elem_of_cons in Hin as [[= -> ->]|Hin]; [lia|].
      apply StronglySorted_inv in Hs as [_ Hs].
      rewrite Forall_forall in Hs. specialize (Hs _ Hin).
      unfold by_count in Hs. cbn in Hs. lia.
Qed.

Lemma dashboard_most_ordered_item_witness :
  own_items scenario
  /\ exists top,
       Stats.mostOrderedItem (getDashboardStats scenario) = Some top
       /\ (flat_map orders scenario = [] -> top = "N/A")
       /\ (flat_map orders scenario <> [] ->
           top ∈ item_names scenario
           /\ forall k, k ∈ item_names scenario ->
                sum_qty (items_named k scenario)
                <= sum_qty (items_named top scenario)).
Proof.
  split.
  - repeat constructor.
  - apply (dashboard_most_ordered_item scenario). repeat constructor.
Defined.

(** The summaries come in the order in which their keys first occur in
    the input. *)
Theorem getOrdersSummary_first_seen_order (l : list Order) :
  own_keys l ->
  exists out,
    getOrdersSummary l = Ok out
    /\ map key_of_summary out = first_seen (map summary_key l).
Proof.
  intros Hl. destruct (getOrdersSummary_values l Hl) as (o & Ho & Hg).
  exists o.*2. split; [done|].
  rewrite (grouped_summary_values _ _ Hg). by destruct Hg.
Qed.

Lemma getOrdersSummary_first_seen_order_witness :
  own_keys scenario
  /\ exists out,
       getOrdersSummary scenario = Ok out
       /\ map key_of_summary out = first_seen (map summary_key scenario).
Proof.
  split.
  - repeat constructor.
  - apply (getOrdersSummary_first_seen_order scenario). repeat constructor.
Defined.

(** When the phones have ten characters each, the dashboard never counts
    more unique customers than the summary panel counts customers, and
    neither count exceeds the number of orders: the dashboard counts
    phones, the summaries are per name and phone. *)
Theorem dashboard_customers_vs_summaries
    (l : list Order) (out : list Summary) :
  own_keys l ->
  Forall (fun order => String.length (phone order) = 10%nat) l ->
  getOrdersSummary l = Ok out ->
  Stats.uniqueCustomers (getDashboardStats l) <= customers (getTotalStats (Some out))
  /\ customers (getTotalStats (Some out)) <= Stats.totalOrders (getDashboardStats l).
Proof.
  intros Hl Hp Hout.
  destruct (getOrdersSummary_values l Hl) as (o & Ho & Hg).
  rewrite Ho in Hout. injection Hout as <-.
  unfold getDashboardStats. cbn.
  assert (length o.*2 = length (first_seen (map summary_key l))) as El.
  { destruct Hg as [<- _]. by rewrite !length_fmap. }
  rewrite El. split.
  - apply inj_le. unfold JsMore.Set_of. apply first_seen_coarser.
    intros a b Ha Hb. apply summary_key_phone.
    rewrite Forall_forall in Hp.
    by rewrite (Hp a Ha), (Hp b Hb).
  - apply inj_le. etrans; [apply length_first_seen_le|]. by rewrite length_map.
Qed.

Lemma dashboard_customers_vs_summaries_witness :
  exists out,
    own_keys scenario
    /\ Forall (fun order => String.length (phone order) = 10%nat) scenario
    /\ getOrdersSummary scenario = Ok out
    /\ Stats.uniqueCustomers (getDashboardStats scenario) = 2
    /\ customers (getTotalStats (Some out)) = 3
    /\ Stats.uniqueCustomers (getDashboardStats scenario)
       <= customers (getTotalStats (Some out))
    /\ customers (getTotalStats (Some out))
       <= Stats.totalOrders (getDashboardStats scenario).
Proof.
  assert (own_keys scenario) as H1 by repeat constructor.
  assert (Forall (fun order => String.length (phone order) = 10%nat) scenario)
    as H2 by repeat constructor.
  eexists.
  split; [exact H1|]. split; [exact H2|].
  split; [reflexivity|]. split; [reflexivity|]. split; [reflexivity|].
  exact (dashboard_customers_vs_summaries scenario _ H1 H2 eq_refl).
Defined.

(** * Facts about the items of a summary *)

Section summary_items_facts.
Implicit Types (its : list LineItem) (s : Summary).

Lemma find_item_entries k its :
  List.find (fun i => String.eqb (item i) k) its = None
  <-> Js.get_own k (item_entries its) = None.
Proof.
  induction its as [|x r IH]; [done|]. cbn.
  by destruct (String.eqb (item x) k).
Qed.

Lemma item_entries_add_qty k q its :
  item_entries (add_qty k q its)
  = Js.modify k (fun v => Js.add v q) (item_entries its).
Proof.
  unfold item_entries. induction its as [|x r IH]; [done|].
  cbn [add_qty map Js.modify].
  destruct (String.eqb (item x) k) eqn:E; cbn [map]; [done|]. by rewrite IH.
Qed.

Lemma set_new_app {V} k (v : V) (o : Js.JsObject V) :
  Js.get_own k o = None -> Js.set k v o = o ++ [(k, v)].
Proof.
  induction o as [|[k0 v0] r IH]; cbn [Js.set Js.get_own]; [done|].
  destruct (String.eqb k0 k); [done|]. intros H. cbn. by rewrite IH.
Qed.

(** On the items, [add_item] is one step of the grouping by name. *)
Lemma add_item_entries it s :
  item_entries (items (add_item it s))
  = group_step item qty (fun it v => Js.add v (qty it)) (item_entries (items s)) it.
Proof.
  unfold add_item, group_step. cbn [items].
  destruct (List.find _ (items s)) eqn:Ef.
  - destruct (Js.get_own (item it) (item_entries (items s))) eqn:Eg.
    + apply item_entries_add_qty.
    + apply find_item_entries in Eg. congruence.
  - pose proof (proj1 (find_item_entries _ _) Ef) as Eg. rewrite Eg.
    rewrite set_new_app by done. unfold item_entries. by rewrite map_app.
Qed.

Lemma add_items_grouped (lines pre : list LineItem) s :
  grouped item qty (fun it v => Js.add v (qty it)) (item_entries (items s)) pre ->
  grouped item qty (fun it v => Js.add v (qty it))
    (item_entries (items (fold_left (fun s it => add_item it s) lines s)))
    (pre ++ lines).
Proof.
  revert pre s. induction lines as [|it r IH]; intros pre s Hg; cbn [fold_left].
  - by rewrite app_nil_r.
  - specialize (IH (pre ++ [it]) (add_item it s)).
    rewrite <- app_assoc in IH. apply IH. rewrite add_item_entries.
    by apply group_step_grouped.
Qed.

Lemma exact_qty_add_qty k q its :
  List.find (fun i => String.eqb (item i) k) its <> None ->
  abs_qty its + Z.abs q <= 2 ^ 53 ->
  exact_qty (add_qty k q its) = exact_qty its + q
  /\ abs_qty (add_qty k q its) <= abs_qty its + Z.abs q.
Proof.
  induction its as [|x r IH]; [done|]. cbn [List.find add_qty abs_qty exact_qty].
  pose proof (abs_qty_nonneg r).
  destruct (String.eqb (item x) k); cbn [abs_qty exact_qty qty].
  - intros _ Hb. rewrite add_exact by lia. lia.
  - intros H' Hb. destruct (IH H') as [E1 E2]; [lia|]. lia.
Qed.

(** While the magnitudes stay within [2 ^ 53], the total of a summary is
    the exact sum of its items. *)
Lemma add_item_total_items it s :
  totalQuantity s = exact_qty (items s) ->
  abs_qty (items s) + Z.abs (qty it) <= 2 ^ 53 ->
  totalQuantity (add_item it s) = exact_qty (items (add_item it s))
  /\ abs_qty (items (add_item it s)) <= abs_qty (items s) + Z.abs (qty it).
Proof.
  intros H Hb. unfold add_item. cbn [totalQuantity items].
  pose proof (exact_qty_bound (items s)).
  rewrite add_exact by lia.
  destruct (List.find _ (items s)) eqn:Ef.
  - destruct (exact_qty_add_qty (item it) (qty it) (items s)) as [E1 E2];
      [congruence|lia|]. lia.
  - rewrite exact_qty_app, abs_qty_app. cbn. lia.
Qed.

Lemma add_items_total_items (lines : list LineItem) s :
  totalQuantity s = exact_qty (items s) ->
  abs_qty (items s) + abs_qty lines <= 2 ^ 53 ->
  let s' := fold_left (fun s it => add_item it s) lines s in
  totalQuantity s' = exact_qty (items s').
Proof.
  revert s. induction lines as [|it r IH]; intros s H Hb; cbn [fold_left]; [done|].
  cbn [abs_qty] in Hb. pose proof (abs_qty_nonneg r).
  destruct (add_item_total_items it s H) as [E1 E2]; [lia|].
  apply IH; [done|lia].
Qed.

Lemma abs_qty_flat_filter (f : Order -> bool) (l : list Order) :
  abs_qty (flat_map orders (List.filter f l)) <= abs_qty (flat_map orders l).
Proof.
  induction l as [|x r IH]; cbn [List.filter flat_map]; [done|].
  pose proof (abs_qty_nonneg (orders x)).
  destruct (f x); cbn [flat_map]; rewrite ?abs_qty_app; lia.
Qed.

(** The summary of a group of orders is built from its line items, one
    after the other. *)
Lemma summary_group_lines (x : Order) (r : list Order) :
  fold_left (fun v y => summary_add y v) r (summary_init x)
  = fold_left (fun s it => add_item it s) (flat_map orders (x :: r))
      (fresh_summary x).
Proof.
  cbn [flat_map]. rewrite fold_left_app. fold (summary_add x (fresh_summary x)).
  fold (summary_init x). generalize (summary_init x). intros s.
  revert s. induction r as [|y r IH]; intros s; cbn [fold_left flat_map]; [done|].
  rewrite fold_left_app. apply IH.
Qed.

Lemma qty_group_value (x : LineItem) (r : list LineItem) :
  abs_qty (x :: r) <= 2 ^ 53 ->
  fold_left (fun v y => Js.add v (qty y)) r (qty x) = exact_qty (x :: r).
Proof.
  intros Hb. change (fold_left _ r (qty x)) with (add_qtys (qty x) r).
  by rewrite add_qtys_exact.
Qed.

End summary_items_facts.

(** When no key is a member name of [Object.prototype]: inside every
    summary the items have pairwise distinct names, in the order in
    which the customer's line items first name them; and while the
    magnitudes of the quantities add up to [2 ^ 53] at most, each item
    carries the exact sum of the quantities of the customer's line items
    of its name, and [totalQuantity] is the exact sum of the quantities
    of the items. *)
Theorem getOrdersSummary_items (l : list Order) :
  own_keys l ->
  exists out,
    getOrdersSummary l = Ok out
    /\ forall s, s ∈ out ->
         let lines := lines_of_key (key_of_summary s) l in
         map item (items s) = first_seen (map item lines)
         /\ NoDup (map item (items s))
         /\ (safe_quantities l ->
             (forall it, it ∈ items s ->
                qty it
                = exact_qty
                    (List.filter (fun x => String.eqb (item x) (item it)) lines))
             /\ totalQuantity s = exact_qty (items s)).
Proof.
  intros Hl. destruct (getOrdersSummary_values l Hl) as (o & Ho & Hg).
  exists o.*2. split; [done|].
  intros s ([k s'] & -> & Hin)%list_elem_of_fmap. cbn [snd].
  destruct (grouped_summary_entry _ _ _ _ Hg Hin) as (Hk & _).
  destruct (grouped_elem _ _ _ _ _ _ _ Hg Hin) as (x & r & Hgr & Hs).
  rewrite summary_group_lines in Hs. cbv zeta.
  unfold lines_of_key. rewrite Hk. unfold group_of in Hgr. rewrite Hgr.
  pose proof (add_items_grouped (flat_map orders (x :: r)) [] (fresh_summary x)
                (grouped_nil _ _ _)) as Hgi.
  rewrite <- Hs in Hgi. cbn [app] in Hgi.
  assert (map item (items s') = first_seen (map item (flat_map orders (x :: r))))
    as Hnames.
  { destruct Hgi as [<- _]. unfold item_entries.
    rewrite <- list_fmap_compose. done. }
  assert (safe_quantities l -> abs_qty (flat_map orders (x :: r)) <= 2 ^ 53)
    as Hsafe.
  { unfold safe_quantities. intros Hb. rewrite <- Hgr.
    etrans; [apply abs_qty_flat_filter|exact Hb]. }
  split_and!.
  - done.
  - rewrite Hnames. apply NoDup_first_seen.
  - intros Hb%Hsafe. split.
    + intros it Hit.
      assert ((item it, qty it) ∈ item_entries (items s')) as Hit'.
      { apply list_elem_of_fmap. by exists it. }
      destruct (grouped_elem _ _ _ _ _ _ _ Hgi Hit') as (y & t & Hgr' & Hq).
      unfold group_of in Hgr'. rewrite Hgr', Hq. apply qty_group_value.
      rewrite <- Hgr'. etrans; [apply abs_qty_filter|exact Hb].
    + rewrite Hs. by apply add_items_total_items.
Qed.

Lemma getOrdersSummary_items_witness :
  own_keys scenario /\ safe_quantities scenario
  /\ exists out,
       getOrdersSummary scenario = Ok out
       /\ forall s, s ∈ out ->
            let lines := lines_of_key (key_of_summary s) scenario in
            map item (items s) = first_seen (map item lines)
            /\ NoDup (map item (items s))
            /\ (safe_quantities scenario ->
                (forall it, it ∈ items s ->
                   qty it
                   = exact_qty
                       (List.filter (fun x => String.eqb (item x) (item it)) lines))
                /\ totalQuantity s = exact_qty (items s)).
Proof.
  split; [repeat constructor|]. split; [apply Z.leb_le; reflexivity|].
  apply (getOrdersSummary_items scenario). repeat constructor.
Defined.

(** * More facts about [getTopItems] *)

Section top_items_totals.
Implicit Types (o : Js.JsObject Z).

Lemma sum_values_set k (v : Z) o :
  sum_values (Js.set k v o) = sum_values o + v - default 0 (Js.get_own k o).
Proof.
  induction o as [|[k0 v0] r IH]; cbn [Js.set Js.get_own]; [cbn; lia|].
  destruct (String.eqb k0 k); cbn; [lia|]. rewrite IH. lia.
Qed.

Lemma sum_values_Permutation o o' : o ≡ₚ o' -> sum_values o = sum_values o'.
Proof. induction 1; cbn; lia. Qed.

Lemma abs_values_set k (v : Z) o :
  abs_values (Js.set k v o)
  = abs_values o + Z.abs v - Z.abs (default 0 (Js.get_own k o)).
Proof.
  induction o as [|[k0 v0] r IH]; cbn [Js.set Js.get_own]; [cbn; lia|].
  destruct (String.eqb k0 k); cbn; [lia|]. rewrite IH. lia.
Qed.

Lemma abs_values_nonneg o : 0 <= abs_values o.
Proof. induction o as [|e r IH]; cbn; lia. Qed.

Lemma abs_values_elem k n o :
  Js.get_own k o = Some n -> Z.abs n <= abs_values o.
Proof.
  induction o as [|[k0 v] r IH]; cbn [Js.get_own]; [done|].
  pose proof (abs_values_nonneg r).
  destruct (String.eqb k0 k).
  - intros [= ->]. cbn. lia.
  - intros H'. specialize (IH H'). cbn. lia.
Qed.

(** One line item adds its quantity to the counters exactly while the
    magnitudes stay within [2 ^ 53]. *)
Lemma count_step_sum o o' it :
  count_step o it = Some o' ->
  abs_values o + Z.abs (qty it) <= 2 ^ 53 ->
  sum_values o' = sum_values o + qty it
  /\ abs_values o' <= abs_values o + Z.abs (qty it).
Proof.
  unfold count_step, Js.get. pose proof (abs_values_nonneg o).
  destruct (Js.get_own (item it) o) as [n|] eqn:E.
  - intros [= <-] Hb. pose proof (abs_values_elem _ _ _ E).
    rewrite sum_values_set, abs_values_set, E. cbn [default].
    fold (count_add it n). rewrite count_add_sum, add_exact by lia.
    unfold Datatypes.id. lia.
  - destruct (Js.inherited _); [done|]. intros [= <-] Hb.
    rewrite sum_values_set, abs_values_set, E. cbn [default].
    rewrite add_exact by (cbn; lia). cbn. lia.
Qed.

Lemma count_loop_sum (lines : list LineItem) o o' :
  count_loop o lines = Some o' ->
  abs_values o + abs_qty lines <= 2 ^ 53 ->
  sum_values o' = sum_values o + exact_qty lines.
Proof.
  revert o. induction lines as [|it r IH]; intros o; cbn [count_loop].
  - intros [= <-] _. cbn. lia.
  - destruct (count_step o it) as [o1|] eqn:E; [|done]. intros H Hb.
    cbn [abs_qty exact_qty] in *. pose proof (abs_qty_nonneg r).
    destruct (count_step_sum _ _ _ E) as [E1 E2]; [lia|].
    rewrite (IH _ H) by lia. lia.
Qed.

Lemma sum_counts_entries (r : list (string * Z)) :
  sum_counts (map top_entry r) = sum_values r.
Proof. induction r as [|e r IH]; cbn; [done|]. by rewrite IH. Qed.

End top_items_totals.

(** With any limit no item name occurs twice in the result of
    [getTopItems]; and with a limit of at least the number of distinct
    item names, while the magnitudes of the quantities add up to
    [2 ^ 53] at most, the counts add up exactly to the sum of every
    line-item quantity. *)
Theorem getTopItems_totals (l : list Order) (limit : Z) :
  own_items l ->
  exists out,
    getTopItems l (Some limit) = Some out
    /\ NoDup (map top_item out)
    /\ (safe_quantities l ->
        Z.of_nat (length (first_seen (item_names l))) <= limit ->
        sum_counts out = exact_total l).
Proof.
  intros Hl. destruct (item_counts_grouped l Hl) as (o & Ho & Hg).
  unfold getTopItems. change (default 10 (Some limit)) with limit.
  cbv zeta. rewrite Ho, slice_prefix.
  set (n := Z.to_nat _). eexists. split; [reflexivity|]. split.
  - rewrite <- list_fmap_compose.
    assert (NoDup (ranking o).*1) as Hnd.
    { rewrite ranking_Permutation. by eapply grouped_NoDup. }
    apply (sublist_NoDup _ (ranking o).*1); [exact Hnd|].
    apply (fmap_sublist fst), sublist_take.
  - intros Hsafe Hlim.
    assert (length (ranking o) = length (first_seen (item_names l))) as El.
    { rewrite (Permutation_length (ranking_Permutation o)).
      unfold item_names. destruct Hg as [<- _]. by rewrite length_fmap. }
    rewrite take_ge.
    + rewrite sum_counts_entries, (sum_values_Permutation _ _ (ranking_Permutation o)).
      unfold item_counts in Ho. by rewrite (count_loop_sum _ _ _ Ho).
    + unfold n. destruct (Z.ltb_spec limit 0); lia.
Qed.

Lemma getTopItems_totals_witness :
  own_items scenario /\ safe_quantities scenario
  /\ exists out,
       getTopItems scenario (Some 3) = Some out
       /\ NoDup (map top_item out)
       /\ (safe_quantities scenario ->
           Z.of_nat (length (first_seen (item_names scenario))) <= 3 ->
           sum_counts out = exact_total scenario).
Proof.
  split; [repeat constructor|]. split; [apply Z.leb_le; reflexivity|].
  apply (getTopItems_totals scenario 3). repeat constructor.
Defined.

(** * Sorting with a comparator that is consistent on the elements *)

Section sort_on_facts.
Context {A : Type} (cmp : A -> A -> Z) (P : A -> Prop).
Hypothesis cmp_total : forall x y, P x -> P y -> cmp x y <= 0 \/ cmp y x <= 0.
Hypothesis cmp_trans :
  forall x y z, P x -> P y -> P z -> cmp x y <= 0 -> cmp y z <= 0 -> cmp x z <= 0.

Lemma insert_sorted_on x l :
  P x -> Forall P l ->
  StronglySorted (fun a b => cmp a b <= 0) l ->
  StronglySorted (fun a b => cmp a b <= 0) (Js.insert cmp x l).
Proof.
  intros Hx Hl Hs. induction Hs as [|y r Hs IH Hy]; simpl.
  - repeat constructor.
  - apply Forall_cons in Hl as [Py Pr].
    destruct (cmp x y <=? 0) eqn:Hc.
    + apply Z.leb_le in Hc. constructor; [by constructor|].
      constructor; [done|].
      rewrite Forall_forall in Hy, Pr |- *. intros z Hz.
      apply (cmp_trans x y z); auto.
    + apply Z.leb_gt in Hc. constructor; [by apply IH|].
      rewrite insert_Permutation. constructor; [|done].
      destruct (cmp_total x y); [done|done|lia|done].
Qed.

Lemma sort_sorted_on l :
  Forall P l -> StronglySorted (fun a b => cmp a b <= 0) (Js.sort cmp l).
Proof.
  induction 1 as [|x r Hx Hr IH]; simpl; [constructor|].
  apply insert_sorted_on; [done| |done]. by rewrite sort_Permutation.
Qed.

End sort_on_facts.

(** [l.sort(cmp)] leaves a sorted array as it is. *)
Lemma sort_sorted_id {A} (cmp : A -> A -> Z) (l : list A) :
  StronglySorted (fun a b => cmp a b <= 0) l -> Js.sort cmp l = l.
Proof.
  induction 1 as [|x r Hs IH Hx]; [done|]. cbn [Js.sort foldr].
  fold (Js.sort cmp r). rewrite IH. destruct r as [|y r]; [done|].
  cbn [Js.insert]. apply Forall_cons in Hx as [Hxy _].
  by rewrite (proj2 (Z.leb_le _ _) Hxy).
Qed.

(** * More facts about [getOrdersOverTime] *)

(** When the hour of every bucket key reads as a number, the buckets
    have pairwise distinct keys and come in ascending order of
    [getHour]; buckets with one hour, such as [2PM] and [02PM], or
    [12AM] and [12PM], come in the order in which their keys were first
    seen. *)
Theorem getOrdersOverTime_sorted_by_hour (l : list Order) :
  Forall (fun order => is_Some (getHour (timeKey order))) l ->
  NoDup (map tp_time (getOrdersOverTime l))
  /\ forall a b, before a b (getOrdersOverTime l) ->
       exists x y,
         getHour (tp_time a) = Some x /\ getHour (tp_time b) = Some y
         /\ x <= y
         /\ (x = y -> seen_before (tp_time a) (tp_time b) (map timeKey l)).
Proof.
  intros Hl. destruct (timeData_entries l) as [He Hg]. cbv zeta in He, Hg.
  unfold getOrdersOverTime. rewrite He.
  set (o := fold_left time_step l []) in *.
  assert (map tp_time (map time_point o) = o.*1) as Ekeys.
  { rewrite map_map. done. }
  assert (Forall (fun p => is_Some (getHour (tp_time p))) (map time_point o)) as HP.
  { apply Forall_forall. intros p ([k n] & -> & Hin)%list_elem_of_fmap. cbn.
    assert (k ∈ o.*1) as Hk by (apply list_elem_of_fmap; by exists (k, n)).
    destruct Hg as [Hk' _]. rewrite Hk' in Hk.
    apply elem_of_first_seen, list_elem_of_fmap in Hk as (order & -> & Hin').
    rewrite Forall_forall in Hl. by apply Hl. }
  split.
  - rewrite sort_Permutation, Ekeys. by eapply grouped_NoDup.
  - intros a b Hab.
    assert (StronglySorted (fun a b => compare_hours a b <= 0)
              (Js.sort compare_hours (map time_point o))) as Hs.
    { apply (sort_sorted_on compare_hours
               (fun p => is_Some (getHour (tp_time p)))); [| |done].
      - intros x y [hx Hx] [hy Hy]. unfold compare_hours. rewrite Hx, Hy. lia.
      - intros x y z [hx Hx] [hy Hy] [hz Hz]. unfold compare_hours.
        rewrite Hx, Hy, Hz. lia. }
    pose proof (before_sorted _ _ _ _ Hs Hab) as Hle. cbn beta in Hle.
    destruct (before_elem _ _ _ Hab) as [Ha Hb].
    rewrite sort_Permutation in Ha, Hb. rewrite Forall_forall in HP.
    destruct (HP _ Ha) as [x Hx], (HP _ Hb) as [y Hy].
    exists x, y. unfold compare_hours in Hle. rewrite Hx, Hy in Hle.
    split_and!; [done|done|lia|]. intros <-.
    apply (before_filter
             (fun p => bool_decide (getHour (tp_time p) = Some x))) in Hab;
      [|by apply bool_decide_eq_true_2..].
    rewrite sort_filter in Hab.
    + apply before_filter_inv, (before_map tp_time) in Hab.
      rewrite Ekeys in Hab. apply before_first_seen.
      destruct Hg as [<- _]. done.
    + intros u v Hu%bool_decide_eq_true_1 Hv%bool_decide_eq_true_1.
      unfold compare_hours. rewrite Hu, Hv. lia.
Qed.

Lemma getOrdersOverTime_sorted_by_hour_witness :
  Forall (fun order => is_Some (getHour (timeKey order))) scenario
  /\ NoDup (map tp_time (getOrdersOverTime scenario))
  /\ forall a b, before a b (getOrdersOverTime scenario) ->
       exists x y,
         getHour (tp_time a) = Some x /\ getHour (tp_time b) = Some y
         /\ x <= y
         /\ (x = y -> seen_before (tp_time a) (tp_time b) (map timeKey scenario)).
Proof.
  assert (Forall (fun order => is_Some (getHour (timeKey order))) scenario) as H.
  { repeat constructor; by eexists. }
  split; [exact H|]. exact (getOrdersOverTime_sorted_by_hour scenario H).
Defined.

(** * Facts about the item types, the pages and the sort handler *)

Section item_types_facts.

Lemma default_compare_values (a b : string) :
  JsMore.default_compare a b = compare_values true (VString a) (VString b).
Proof. done. Qed.

Lemma default_compare_total (a b : string) :
  JsMore.default_compare a b <= 0 \/ JsMore.default_compare b a <= 0.
Proof.
  rewrite !default_compare_values.
  destruct (value_le_total (VString a) (VString b)) as [H|H];
    [left|right]; by apply compare_values_le.
Qed.

Lemma default_compare_trans (a b c : string) :
  JsMore.default_compare a b <= 0 -> JsMore.default_compare b c <= 0 ->
  JsMore.default_compare a c <= 0.
Proof.
  rewrite !default_compare_values.
  intros H1%compare_values_le H2%compare_values_le. apply compare_values_le.
  by apply (value_le_trans _ (VString b)).
Qed.

Lemma default_compare_strict (a b : string) :
  JsMore.default_compare a b <= 0 -> a <> b -> Js.str_lt a b = true.
Proof.
  unfold JsMore.default_compare. intros H Hne.
  destruct (Js.str_lt a b) eqn:E1; [done|].
  destruct (Js.str_lt b a) eqn:E2; [lia|].
  destruct Hne. by apply str_lt_neither.
Qed.

Lemma StronglySorted_strict {A} (R R' : A -> A -> Prop) (l : list A) :
  (forall a b, R a b -> a <> b -> R' a b) ->
  NoDup l -> StronglySorted R l -> StronglySorted R' l.
Proof.
  intros HR Hnd Hs. induction Hs as [|x r Hs IH Hx]; [constructor|].
  apply NoDup_cons in Hnd as [Hx' Hnd]. constructor; [by apply IH|].
  rewrite Forall_forall in Hx |- *. intros y Hy. apply HR; [by apply Hx|].
  by intros ->.
Qed.

End item_types_facts.

(** The options of the item filter are the item names of the rows, each
    once, in strictly ascending order of their code units; and the
    filter set to any of them keeps at least one row. *)
Theorem itemTypes_sorted_distinct `{cm : Js.CaseMapping}
    (rows : list FlattenedRow) :
  StronglySorted (fun a b => Js.str_lt a b = true) (itemTypes rows)
  /\ (forall k, k ∈ itemTypes rows <-> exists r, r ∈ rows /\ row_item r = k)
  /\ (forall k, k ∈ itemTypes rows ->
        filter_rows {| search := ""; itemType := k |} rows <> []).
Proof.
  assert (forall k, k ∈ itemTypes rows <-> exists r, r ∈ rows /\ row_item r = k)
    as Hmem.
  { intros k. unfold itemTypes, JsMore.Set_of.
    rewrite sort_Permutation, elem_of_first_seen, list_elem_of_fmap.
    split; intros (r & H1 & H2); exists r; by split. }
  split_and!; [|done|].
  - apply (StronglySorted_strict (fun a b => JsMore.default_compare a b <= 0)).
    + apply default_compare_strict.
    + unfold itemTypes, JsMore.Set_of. rewrite sort_Permutation.
      apply NoDup_first_seen.
    + apply sort_sorted; [apply default_compare_total|apply default_compare_trans].
  - intros k (r & Hr & Hk)%Hmem. unfold filter_rows. cbn.
    destruct (truthy k).
    + intros E.
      assert (r ∈ List.filter (fun order => String.eqb (row_item order) k) rows)
        as Hin.
      { apply list_elem_of_In, List.filter_In. split; [by apply list_elem_of_In|].
        by apply String.eqb_eq. }
      rewrite E in Hin. by apply elem_of_nil in Hin.
    + intros ->. by apply elem_of_nil in Hr.
Qed.

Section pagination_facts.
Implicit Types (rows : list FlattenedRow).

Lemma slice_window {A} (l : list A) (b e : Z) :
  0 <= b <= e ->
  Js.slice l b e = take (Z.to_nat (e - b)) (drop (Z.to_nat b) l).
Proof.
  intros [Hb He]. unfold Js.slice, Js.rel_index.
  destruct (Z.ltb_spec b 0); [lia|]. destruct (Z.ltb_spec e 0); [lia|].
  destruct (Z.le_gt_cases b (Z.of_nat (length l))) as [Hbl|Hbl].
  - rewrite (Z.min_l b) by done.
    destruct (Z.le_gt_cases e (Z.of_nat (length l))) as [Hel|Hel].
    + by rewrite (Z.min_l e).
    + rewrite (Z.min_r e) by lia.
      rewrite !take_ge; [done|rewrite length_drop; lia..].
  - rewrite (Z.min_r b), (Z.min_r e) by lia.
    rewrite !drop_ge by lia. by rewrite !take_nil.
Qed.

Lemma paginatedOrders_window rows (i : nat) (pageSize : Z) :
  0 <= pageSize ->
  paginatedOrders rows (Z.of_nat (S i)) pageSize
  = take (Z.to_nat pageSize) (drop (i * Z.to_nat pageSize) rows).
Proof.
  intros Hp. unfold paginatedOrders, startIndex.
  rewrite slice_window by nia. f_equal; [f_equal; lia|f_equal; nia].
Qed.

Lemma chunks_concat {A} (l : list A) (n k : nat) :
  concat (map (fun i => take n (drop (i * n) l)) (seq 0 k)) = take (k * n) l.
Proof.
  induction k as [|k IH]; [done|].
  rewrite seq_S, map_app, concat_app, IH. cbn [map concat Nat.add].
  rewrite app_nil_r, take_take_drop. f_equal. lia.
Qed.

Lemma ceil_div_bounds (a b n : Z) :
  0 < b -> JsMore.ceil_div a b = Some n -> (n - 1) * b < a <= n * b.
Proof.
  unfold JsMore.ceil_div. destruct (Z.eqb_spec b 0); [lia|].
  intros Hb [= <-]. pose proof (Z.div_mod (- a) b). 
  pose proof (Z.mod_pos_bound (- a) b Hb). nia.
Qed.

Lemma paginatedOrders_length rows (p pageSize : Z) :
  0 < pageSize -> 1 <= p ->
  Z.of_nat (length (paginatedOrders rows p pageSize))
  = Z.min pageSize (Z.max 0 (Z.of_nat (length rows) - (p - 1) * pageSize)).
Proof.
  intros Hps Hp. unfold paginatedOrders, startIndex.
  rewrite slice_window by nia. rewrite length_take, length_drop. nia.
Qed.

Lemma page_sizes rows (pageSize n p : Z) :
  0 < pageSize ->
  totalPages rows pageSize = Some n ->
  1 <= p ->
  Z.of_nat (length (paginatedOrders rows p pageSize)) <= pageSize
  /\ (p < n -> Z.of_nat (length (paginatedOrders rows p pageSize)) = pageSize)
  /\ (p <= n -> paginatedOrders rows p pageSize <> [])
  /\ (n < p -> paginatedOrders rows p pageSize = []).
Proof.
  intros Hps Hn Hp. apply ceil_div_bounds in Hn; [|done].
  pose proof (paginatedOrders_length rows p pageSize Hps Hp) as Hlen.
  split_and!.
  - lia.
  - intros Hlt. nia.
  - intros Hle E. rewrite E in Hlen. cbn in Hlen. nia.
  - intros Hlt. apply length_zero_iff_nil. nia.
Qed.

End pagination_facts.

(** Pagination loses and repeats nothing: for a positive page size the
    pages [1 .. totalPages], one after the other, are the rows. *)
Theorem pagination_complete (rows : list FlattenedRow) (pageSize n : Z) :
  0 < pageSize ->
  totalPages rows pageSize = Some n ->
  concat (map (fun p => paginatedOrders rows p pageSize) (page_numbers n)) = rows.
Proof.
  intros Hps Hn. unfold page_numbers.
  rewrite <- fmap_S_seq, <- !list_fmap_compose.
  rewrite (map_ext _ (fun i => take (Z.to_nat pageSize)
                                 (drop (i * Z.to_nat pageSize) rows))).
  - rewrite chunks_concat. apply take_ge.
    apply ceil_div_bounds in Hn; [|done]. nia.
  - intros i. cbn. apply paginatedOrders_window. lia.
Qed.

Lemma pagination_complete_witness :
  0 < 2
  /\ totalPages (flattenedOrders scenario) 2 = Some 2
  /\ concat (map (fun p => paginatedOrders (flattenedOrders scenario) p 2)
                 (page_numbers 2))
     = flattenedOrders scenario.
Proof.
  split; [lia|]. split; [reflexivity|].
  apply (pagination_complete (flattenedOrders scenario) 2 2); [lia|reflexivity].
Defined.

(** For a positive page size: every page before the last is full, the
    pages [1 .. totalPages] are not empty, and a page beyond the last
    is empty rather than an error. *)
Theorem paginatedOrders_sizes (rows : list FlattenedRow) (pageSize n p : Z) :
  0 < pageSize ->
  totalPages rows pageSize = Some n ->
  1 <= p ->
  Z.of_nat (length (paginatedOrders rows p pageSize)) <= pageSize
  /\ (p < n -> Z.of_nat (length (paginatedOrders rows p pageSize)) = pageSize)
  /\ (p <= n -> paginatedOrders rows p pageSize <> [])
  /\ (n < p -> paginatedOrders rows p pageSize = []).
Proof. apply page_sizes. Qed.

Lemma paginatedOrders_sizes_witness :
  0 < 2
  /\ totalPages (flattenedOrders scenario) 2 = Some 2
  /\ 1 <= 1
  /\ Z.of_nat (length (paginatedOrders (flattenedOrders scenario) 1 2)) <= 2
  /\ (1 < 2 -> Z.of_nat (length (paginatedOrders (flattenedOrders scenario) 1 2)) = 2)
  /\ (1 <= 2 -> paginatedOrders (flattenedOrders scenario) 1 2 <> [])
  /\ (2 < 1 -> paginatedOrders (flattenedOrders scenario) 1 2 = []).
Proof.
  split; [lia|]. split; [reflexivity|]. split; [lia|].
  apply (paginatedOrders_sizes (flattenedOrders scenario) 2 2 1);
    [lia|reflexivity|lia].
Defined.

(** [goToPage] never leaves the table on an empty page while there are
    rows: the page it sets lies in [1 .. totalPages], it is the page asked
    for when that one exists, and its slice is not empty. *)
Theorem goToPage_shows_rows (rows : list FlattenedRow) (pageSize n page : Z) :
  rows <> [] ->
  0 < pageSize ->
  totalPages rows pageSize = Some n ->
  1 <= goToPage n page <= n
  /\ (1 <= page <= n -> goToPage n page = page)
  /\ paginatedOrders rows (goToPage n page) pageSize <> [].
Proof.
  intros Hrows Hps Hn. pose proof Hn as Hb. apply ceil_div_bounds in Hb; [|done].
  assert (0 < Z.of_nat (length rows)) as Hlen by (destruct rows; [done|cbn; lia]).
  assert (1 <= n) as H1 by nia.
  assert (1 <= goToPage n page <= n) as Hg by (unfold goToPage; lia).
  split_and!; [lia..| |].
  - unfold goToPage. lia.
  - assert (1 <= goToPage n page) as Hg1 by lia.
    destruct (page_sizes rows pageSize n (goToPage n page) Hps Hn Hg1)
      as (_ & _ & H & _).
    apply H. lia.
Qed.

Lemma goToPage_shows_rows_witness :
  flattenedOrders scenario <> []
  /\ 0 < 2
  /\ totalPages (flattenedOrders scenario) 2 = Some 2
  /\ 1 <= goToPage 2 7 <= 2
  /\ (1 <= 7 <= 2 -> goToPage 2 7 = 7)
  /\ paginatedOrders (flattenedOrders scenario) (goToPage 2 7) 2 <> [].
Proof.
  split; [discriminate|]. split; [lia|]. split; [reflexivity|].
  apply (goToPage_shows_rows (flattenedOrders scenario) 2 2 7);
    [discriminate|lia|reflexivity].
Defined.

(** * Running the table memo again *)

Section rerun_facts.
Context `{cm : Js.CaseMapping}.
Implicit Types (h : store) (rows : list FlattenedRow).

Lemma sorted_rows_sorted cfg rows :
  key cfg <> EmptyString ->
  StronglySorted (fun x y => compare_rows cfg x y <= 0) (sorted_rows cfg rows).
Proof.
  intros Hk%truthy_true. unfold sorted_rows. rewrite Hk.
  apply sort_sorted; [apply compare_rows_total|apply compare_rows_trans].
Qed.

Lemma sorted_rows_idem cfg rows :
  sorted_rows cfg (sorted_rows cfg rows) = sorted_rows cfg rows.
Proof.
  unfold sorted_rows. destruct (truthy (key cfg)) eqn:Hk; [|done].
  apply sort_sorted_id, sort_sorted;
    [apply compare_rows_total|apply compare_rows_trans].
Qed.

Lemma sorted_rows_Permutation cfg rows : sorted_rows cfg rows ≡ₚ rows.
Proof.
  unfold sorted_rows. destruct (truthy (key cfg)); [apply sort_Permutation|done].
Qed.

Lemma sorted_rows_filter cfg r rows :
  List.filter (fun x => compare_rows cfg r x =? 0) (sorted_rows cfg rows)
  = List.filter (fun x => compare_rows cfg r x =? 0) rows.
Proof.
  unfold sorted_rows. destruct (truthy (key cfg)); [|done].
  apply sort_filter. intros x y Hx%Z.eqb_eq Hy%Z.eqb_eq.
  by apply (compare_rows_class cfg r).
Qed.

Lemma StronglySorted_filter {A} (R : A -> A -> Prop) (f : A -> bool) (l : list A) :
  StronglySorted R l -> StronglySorted R (List.filter f l).
Proof.
  induction 1 as [|x r Hs IH Hx]; [constructor|]. cbn [List.filter].
  destruct (f x); [|done]. constructor; [done|].
  rewrite Forall_forall in Hx |- *. intros y Hy. apply Hx.
  by apply list_elem_of_In, List.filter_In in Hy as [Hy%list_elem_of_In _].
Qed.

Lemma StronglySorted_reverse {A} (R : A -> A -> Prop) (l : list A) :
  StronglySorted R l -> StronglySorted (fun a b => R b a) (reverse l).
Proof.
  induction 1 as [|x r Hs IH Hx]; [constructor|].
  rewrite reverse_cons. apply StronglySorted_app_2; [|done|repeat constructor].
  intros y z Hy ->%list_elem_of_singleton. rewrite elem_of_reverse in Hy.
  rewrite Forall_forall in Hx. cbv beta. by apply Hx.
Qed.

Lemma StronglySorted_ext {A} (R R' : A -> A -> Prop) (l : list A) :
  (forall a b, R a b -> R' a b) -> StronglySorted R l -> StronglySorted R' l.
Proof.
  intros HR. induction 1 as [|x r Hs IH Hx]; constructor; [done|].
  eapply Forall_impl; [exact Hx|]. intros y. apply HR.
Qed.

Lemma compare_values_flip (x y : Value) :
  compare_values false x y = compare_values true y x.
Proof.
  unfold compare_values.
  destruct (value_lt x y) eqn:E1; [by rewrite (value_lt_asym _ _ E1)|].
  by destruct (value_lt y x).
Qed.

Lemma compare_rows_both cfg (r r' : FlattenedRow) :
  compare_rows cfg r r' <= 0 -> compare_rows cfg r' r <= 0 ->
  compare_rows cfg r r' = 0.
Proof.
  rewrite !compare_rows_values.
  intros H1%compare_values_le H2%compare_values_le. apply compare_values_zero.
  unfold value_le in *. by destruct (ascending cfg).
Qed.

End rerun_facts.

(** Running the memo again with the same settings shows the same rows;
    without filters the second run leaves the store as the first run
    left it, the flattened array being sorted already. *)
Theorem filteredAndSortedOrders_rerun `{cm : Js.CaseMapping}
    (filters : Filters) (cfg : SortConfig) (a0 : loc) (h : store)
    (rows : list FlattenedRow) (a1 a2 : loc) (h1 h2 : store) :
  h !! a0 = Some rows ->
  filteredAndSortedOrders filters cfg a0 h = (a1, h1) ->
  filteredAndSortedOrders filters cfg a0 h1 = (a2, h2) ->
  h2 !! a2 = h1 !! a1
  /\ (search filters = EmptyString -> itemType filters = EmptyString ->
      a2 = a1 /\ h2 = h1).
Proof.
  intros Ha0 H1 H2.
  destruct (decide (search filters = EmptyString)) as [Hs|Hs];
    [destruct (decide (itemType filters = EmptyString)) as [Hi|Hi]|].
  - destruct (filteredAndSortedOrders_in_place _ _ _ _ _ _ _ Ha0 Hs Hi H1)
      as [-> ->].
    assert (<[a0 := sorted_rows cfg rows]> h !! a0 = Some (sorted_rows cfg rows))
      as Ha1 by apply lookup_insert_eq.
    destruct (filteredAndSortedOrders_in_place _ _ _ _ _ _ _ Ha1 Hs Hi H2)
      as [-> ->].
    rewrite sorted_rows_idem, insert_insert_eq. done.
  - assert (search filters <> EmptyString \/ itemType filters <> EmptyString)
      as Hne by (by right).
    destruct (filteredAndSortedOrders_copy _ _ _ _ _ _ _ Ha0 Hne H1)
      as (_ & _ & Ha1).
    rewrite (filteredAndSortedOrders_rows _ _ _ _ _ _ _ Ha0 H1).
    rewrite (filteredAndSortedOrders_rows _ _ _ _ _ _ _ Ha1 H2).
    split; [done|]. intros _ ?. done.
  - assert (search filters <> EmptyString \/ itemType filters <> EmptyString)
      as Hne by (by left).
    destruct (filteredAndSortedOrders_copy _ _ _ _ _ _ _ Ha0 Hne H1)
      as (_ & _ & Ha1).
    rewrite (filteredAndSortedOrders_rows _ _ _ _ _ _ _ Ha0 H1).
    rewrite (filteredAndSortedOrders_rows _ _ _ _ _ _ _ Ha1 H2).
    split; [done|]. intros ?. done.
Qed.

Section filteredAndSortedOrders_rerun_witness_case.
#[local] Existing Instance Js.ascii_lower.

Lemma filteredAndSortedOrders_rerun_witness :
  let run1 := filteredAndSortedOrders no_filters by_name table_array table_store in
  let run2 := filteredAndSortedOrders no_filters by_name table_array run1.2 in
  table_store !! table_array = Some (flattenedOrders scenario)
  /\ run2.2 !! run2.1 = run1.2 !! run1.1
  /\ run2.1 = run1.1 /\ run2.2 = run1.2.
Proof.
  intros run1 run2.
  assert (table_store !! table_array = Some (flattenedOrders scenario)) as H0
    by reflexivity.
  assert (filteredAndSortedOrders no_filters by_name table_array table_store
          = (run1.1, run1.2)) as H1 by reflexivity.
  assert (filteredAndSortedOrders no_filters by_name table_array run1.2
          = (run2.1, run2.2)) as H2 by reflexivity.
  destruct (filteredAndSortedOrders_rerun no_filters by_name table_array
              table_store (flattenedOrders scenario) _ _ _ _ H0 H1 H2)
    as [E1 E2].
  destruct (E2 eq_refl eq_refl) as [E3 E4].
  split_and!; [exact H0|exact E1|exact E3|exact E4].
Defined.

End filteredAndSortedOrders_rerun_witness_case.

(** The order of ties depends on the sort before: without filters, after
    a sort by one column and then a sort by another, the rows that tie
    in the second column are in the order of the first sort, since the
    second sort works on the array the first one reordered. *)
Theorem filteredAndSortedOrders_sort_history `{cm : Js.CaseMapping}
    (filters : Filters) (cfgA cfgB : SortConfig) (a0 : loc) (h : store)
    (rows : list FlattenedRow) (a1 a2 : loc) (h1 h2 : store) :
  h !! a0 = Some rows ->
  search filters = EmptyString -> itemType filters = EmptyString ->
  key cfgA <> EmptyString ->
  filteredAndSortedOrders filters cfgA a0 h = (a1, h1) ->
  filteredAndSortedOrders filters cfgB a0 h1 = (a2, h2) ->
  exists out,
    a2 = a0 /\ h2 !! a0 = Some out
    /\ out ≡ₚ rows
    /\ forall r,
         StronglySorted (fun x y => compare_rows cfgA x y <= 0)
           (List.filter (fun x => compare_rows cfgB r x =? 0) out).
Proof.
  intros Ha0 Hs Hi Hk H1 H2.
  destruct (filteredAndSortedOrders_in_place _ _ _ _ _ _ _ Ha0 Hs Hi H1)
    as [-> ->].
  assert (<[a0 := sorted_rows cfgA rows]> h !! a0 = Some (sorted_rows cfgA rows))
    as Ha1 by apply lookup_insert_eq.
  destruct (filteredAndSortedOrders_in_place _ _ _ _ _ _ _ Ha1 Hs Hi H2)
    as [-> ->].
  eexists. split; [done|]. split; [apply lookup_insert_eq|]. split.
  - by rewrite !sorted_rows_Permutation.
  - intros r. rewrite sorted_rows_filter.
    by apply StronglySorted_filter, sorted_rows_sorted.
Qed.

Section filteredAndSortedOrders_sort_history_witness_case.
#[local] Existing Instance Js.ascii_lower.

Lemma filteredAndSortedOrders_sort_history_witness :
  let byq := {| key := "quantity"; direction := "desc" |} in
  let run1 := filteredAndSortedOrders no_filters by_name table_array table_store in
  let run2 := filteredAndSortedOrders no_filters byq table_array run1.2 in
  table_store !! table_array = Some (flattenedOrders scenario)
  /\ key by_name <> EmptyString
  /\ exists out,
       run2.1 = table_array /\ run2.2 !! table_array = Some out
       /\ out ≡ₚ flattenedOrders scenario
       /\ forall r,
            StronglySorted (fun x y => compare_rows by_name x y <= 0)
              (List.filter (fun x => compare_rows byq r x =? 0) out).
Proof.
  intros byq run1 run2.
  assert (table_store !! table_array = Some (flattenedOrders scenario)) as H0
    by reflexivity.
  assert (key by_name <> EmptyString) as Hk by discriminate.
  split; [exact H0|]. split; [exact Hk|].
  apply (filteredAndSortedOrders_sort_history no_filters by_name byq table_array
           table_store (flattenedOrders scenario) run1.1 run2.1 run1.2 run2.2);
    [exact H0|reflexivity|reflexivity|exact Hk|reflexivity|reflexivity].
Defined.

End filteredAndSortedOrders_sort_history_witness_case.

(** Clicking the header of the column the table is sorted by, ascending,
    turns the direction to descending, and when no two different rows
    tie in that column the table then shows the same rows in reverse
    order. *)
Theorem handleSort_reverses `{cm : Js.CaseMapping}
    (cfg : SortConfig) (rows : list FlattenedRow) :
  key cfg <> EmptyString ->
  direction cfg = "asc" ->
  (forall r r', r ∈ rows -> r' ∈ rows -> compare_rows cfg r r' = 0 -> r = r') ->
  direction (handleSort (key cfg) cfg) = "desc"
  /\ sorted_rows (handleSort (key cfg) cfg) rows = reverse (sorted_rows cfg rows).
Proof.
  intros Hk Hd Hties.
  assert (handleSort (key cfg) cfg = {| key := key cfg; direction := "desc" |})
    as ->.
  { unfold handleSort. by rewrite String.eqb_refl, Hd. }
  split; [done|].
  set (cfgD := {| key := key cfg; direction := "desc" |}).
  assert (forall r r', compare_rows cfgD r r' = compare_rows cfg r' r) as Hflip.
  { intros r r'. rewrite !compare_rows_values.
    unfold ascending, sort_value. rewrite Hd. cbn. apply compare_values_flip. }
  apply (StronglySorted_unique_strong (fun x y => compare_rows cfgD x y <= 0)).
  - intros x y Hx Hy H1 H2.
    rewrite sorted_rows_Permutation in Hx.
    rewrite elem_of_reverse, sorted_rows_Permutation in Hy.
    apply Hties; [done..|]. rewrite !Hflip in H1, H2.
    by apply compare_rows_both.
  - by apply sorted_rows_sorted.
  - pose proof (sorted_rows_sorted cfg rows Hk) as Hs.
    apply StronglySorted_reverse in Hs.
    eapply StronglySorted_ext; [|exact Hs].
    intros x y. cbv beta. by rewrite Hflip.
  - by rewrite reverse_Permutation, !sorted_rows_Permutation.
Qed.

Section handleSort_reverses_witness_case.
#[local] Existing Instance Js.ascii_lower.

Lemma handleSort_reverses_witness :
  let byq := {| key := "quantity"; direction := "asc" |} in
  key byq <> EmptyString
  /\ direction byq = "asc"
  /\ direction (handleSort (key byq) byq) = "desc"
  /\ sorted_rows (handleSort (key byq) byq) (flattenedOrders scenario)
     = reverse (sorted_rows byq (flattenedOrders scenario)).
Proof.
  intros byq. split; [discriminate|]. split; [reflexivity|].
  apply (handleSort_reverses byq (flattenedOrders scenario));
    [discriminate|reflexivity|].
  intros r r' Hr%list_elem_of_In Hr'%list_elem_of_In H.
  vm_compute in Hr, Hr'.
  destruct Hr as [<-|[<-|[<-|[<-|[]]]]], Hr' as [<-|[<-|[<-|[<-|[]]]]];
    try reflexivity; vm_compute in H; discriminate H.
Defined.

End handleSort_reverses_witness_case.

(** * The dashboard page and the utility functions *)

Lemma recentOrders_take (l : list Order) : recentOrders l = take 10 (reverse l).
Proof.
  unfold recentOrders, JsMore.slice_from, Js.slice, Js.rel_index.
  assert ((-10 <? 0) = true) as -> by done.
  assert ((Z.of_nat (length l) <? 0) = false) as -> by (apply Z.ltb_ge; lia).
  rewrite Z.min_id. rewrite take_ge by (rewrite length_drop; lia).
  rewrite reverse_drop.
  destruct (decide (length l <= 10)%nat) as [Hle|Hgt].
  - rewrite !take_ge; [done|rewrite length_reverse; lia..].
  - f_equal. lia.
Qed.

(** [recentOrders] holds the last ten orders, the newest first: the
    first ten of the list read backwards, and all of it when there are
    fewer. *)
Theorem recentOrders_newest_first (l : list Order) :
  recentOrders l = take 10 (reverse l)
  /\ length (recentOrders l) = Nat.min 10 (length l).
Proof.
  split; [apply recentOrders_take|].
  rewrite recentOrders_take, length_take, length_reverse. lia.
Qed.


Section dashboard_table_shows_five_witness_case.
#[local] Existing Instance Js.ascii_lower.


End dashboard_table_shows_five_witness_case.

Section text_facts.

Lemma substring_0_length (k : nat) (s : string) :
  (k <= String.length s)%nat -> String.length (substring 0 k s) = k.
Proof.
  revert s. induction k as [|k IH]; intros [|c s] Hk; cbn in *; try done; try lia.
  rewrite IH; lia.
Qed.

Lemma substring_0_prefix (k : nat) (s : string) :
  exists rest, s = substring 0 k s +:+ rest.
Proof.
  revert s. induction k as [|k IH]; intros s.
  - exists s. by destruct s.
  - destruct s as [|c s]; [by exists EmptyString|].
    destruct (IH s) as [rest Hr]. exists rest.
    cbn [substring]. rewrite append_cons. by rewrite <- Hr.
Qed.

Lemma str_filter_append (p : ascii -> bool) (s t : string) :
  JsMore.str_filter p (s +:+ t) = JsMore.str_filter p s +:+ JsMore.str_filter p t.
Proof.
  induction s as [|c s IH]; [done|].
  rewrite append_cons. cbn [JsMore.str_filter].
  destruct (p c); [|done]. by rewrite append_cons, IH.
Qed.

Lemma all_digits_digits_of (s : string) : Js.all_digits (digits_of s) = true.
Proof.
  unfold digits_of. induction s as [|c s IH]; [done|].
  cbn [JsMore.str_filter]. destruct (Js.is_digit c) eqn:E; [|done].
  cbn [Js.all_digits]. by rewrite E, IH.
Qed.

Lemma digits_of_digits (s : string) :
  Js.all_digits s = true -> digits_of s = s.
Proof.
  unfold digits_of. induction s as [|c s IH]; [done|].
  cbn [Js.all_digits JsMore.str_filter]. intros [-> Hs]%andb_prop.
  by rewrite IH.
Qed.

(** The three groups cut from ten digits give the digits back. *)
Lemma digits_of_groups (c : string) :
  String.length c = 10%nat -> Js.all_digits c = true ->
  digits_of (Js.str_slice c 0 3 +:+ "-" +:+ Js.str_slice c 3 6
             +:+ "-" +:+ Js.str_slice_from c 6) = c.
Proof.
  destruct c as [|a0 [|a1 [|a2 [|a3 [|a4 [|a5 [|a6 [|a7 [|a8 [|a9 [|? ?]]]]]]]]]]];
    try done.
  intros _ H. cbn [Js.all_digits] in H.
  repeat (apply andb_prop in H as [? H]).
  assert (Js.str_slice
            (String a0 (String a1 (String a2 (String a3 (String a4
              (String a5 (String a6 (String a7 (String a8 (String a9 EmptyString))))))))))
            0 3 = String a0 (String a1 (String a2 EmptyString))) as -> by reflexivity.
  assert (Js.str_slice
            (String a0 (String a1 (String a2 (String a3 (String a4
              (String a5 (String a6 (String a7 (String a8 (String a9 EmptyString))))))))))
            3 6 = String a3 (String a4 (String a5 EmptyString))) as -> by reflexivity.
  assert (Js.str_slice_from
            (String a0 (String a1 (String a2 (String a3 (String a4
              (String a5 (String a6 (String a7 (String a8 (String a9 EmptyString))))))))))
            6 = String a6 (String a7 (String a8 (String a9 EmptyString))))
    as -> by reflexivity.
  unfold digits_of. rewrite !str_filter_append.
  change (JsMore.str_filter Js.is_digit "-") with EmptyString.
  cbn [JsMore.str_filter].
  repeat match goal with E : Js.is_digit _ = true |- _ => rewrite E; clear E end.
  reflexivity.
Qed.

End text_facts.

(** A text longer than [maxLength] is cut to its first [maxLength]
    characters, none below zero, and three dots are appended: the result
    has [max maxLength 0 + 3] characters, which is more than the text
    had when it was one or two characters too long. *)
Theorem truncateText_length (text : string) (maxLength : Z) :
  Z.of_nat (String.length text) > maxLength ->
  exists p rest,
    truncateText text maxLength = p +:+ "..."
    /\ text = p +:+ rest
    /\ Z.of_nat (String.length p) = Z.max maxLength 0
    /\ Z.of_nat (String.length (truncateText text maxLength))
       = Z.max maxLength 0 + 3.
Proof.
  intros Hlen. unfold truncateText.
  assert ((Z.of_nat (String.length text) <=? maxLength) = false) as ->
    by (apply Z.leb_gt; lia).
  unfold JsMore.substr. assert ((0 <? 0) = false) as -> by done.
  set (n := Z.of_nat (String.length text)) in *.
  assert (Z.min 0 n = 0) as -> by lia.
  assert (Z.min (0 + Z.min (Z.max maxLength 0) n) n - 0 = Z.max maxLength 0)
    as -> by lia.
  assert (Z.to_nat 0 = 0%nat) as -> by done.
  set (k := Z.to_nat (Z.max maxLength 0)).
  destruct (substring_0_prefix k text) as [rest Hrest].
  assert (String.length (substring 0 k text) = k) as Hk
    by (apply substring_0_length; unfold k; lia).
  exists (substring 0 k text), rest. split; [done|]. split; [done|].
  split; [rewrite Hk; unfold k; lia|].
  rewrite str_length_append, Hk. cbn. unfold k. lia.
Qed.

Lemma truncateText_length_witness :
  Z.of_nat (String.length "Cotton Shirt") > 11
  /\ exists p rest,
       truncateText "Cotton Shirt" 11 = p +:+ "..."
       /\ "Cotton Shirt" = p +:+ rest
       /\ Z.of_nat (String.length p) = Z.max 11 0
       /\ Z.of_nat (String.length (truncateText "Cotton Shirt" 11))
          = Z.max 11 0 + 3.
Proof.
  assert (Z.of_nat (String.length "Cotton Shirt") > 11) as H by (cbn; lia).
  split; [exact H|]. exact (truncateText_length "Cotton Shirt" 11 H).
Defined.

(** Formatting a phone number keeps its digits, so that a formatted
    number is as valid as the one given and formatting it again changes
    nothing; and a number is valid exactly when it has ten digits,
    whatever else it holds. *)
Theorem formatPhoneNumber_round_trip (phone : string) :
  digits_of (formatPhoneNumber phone) = digits_of phone
  /\ formatPhoneNumber (formatPhoneNumber phone) = formatPhoneNumber phone
  /\ isValidPhoneNumber (formatPhoneNumber phone) = isValidPhoneNumber phone
  /\ isValidPhoneNumber phone = (String.length (digits_of phone) =? 10)%nat.
Proof.
  assert (digits_of (formatPhoneNumber phone) = digits_of phone) as E.
  { unfold formatPhoneNumber. cbv zeta.
    destruct (String.length (digits_of phone) =? 10)%nat eqn:Hl; [|done].
    apply digits_of_groups; [by apply Nat.eqb_eq|apply all_digits_digits_of]. }
  split; [exact E|]. split; [|split].
  - unfold formatPhoneNumber at 1. cbv zeta. rewrite E.
    unfold formatPhoneNumber. cbv zeta.
    by destruct (String.length (digits_of phone) =? 10)%nat.
  - unfold isValidPhoneNumber. by rewrite E.
  - unfold isValidPhoneNumber, ten_digits.
    by rewrite all_digits_digits_of, andb_true_r.
Qed.

Section unique_facts.
Context {X K : Type} `{EqDecision K} (keyf : X -> K).
Implicit Types (seen : list K) (l : list X).

Lemma uniqueBy_filter_sublist seen l : uniqueBy_filter keyf seen l `sublist_of` l.
Proof.
  revert seen. induction l as [|a l IH]; intros seen; cbn [uniqueBy_filter];
    [done|].
  case_decide; [by apply sublist_cons|by apply sublist_skip].
Qed.

Lemma uniqueBy_filter_NoDup seen l :
  NoDup seen -> NoDup (seen ++ map keyf (uniqueBy_filter keyf seen l)).
Proof.
  revert seen. induction l as [|a l IH]; intros seen Hs; cbn [uniqueBy_filter].
  - by rewrite app_nil_r.
  - case_decide as Ha; [by apply IH|]. cbn [map].
    rewrite cons_middle, (assoc_L (++)). apply IH.
    apply NoDup_app. split_and!; [done| |apply NoDup_singleton].
    by intros y Hy ->%list_elem_of_singleton.
Qed.

Lemma uniqueBy_filter_first seen l1 x l2 :
  keyf x ∉ seen -> keyf x ∉ map keyf l1 ->
  x ∈ uniqueBy_filter keyf seen (l1 ++ x :: l2).
Proof.
  revert seen. induction l1 as [|a l1 IH]; intros seen Hs Hl;
    cbn [app uniqueBy_filter].
  - rewrite decide_False by done. left.
  - cbn [map] in Hl. apply not_elem_of_cons in Hl as [Hne Hl].
    case_decide; [by apply IH|]. right. apply IH; [|done].
    rewrite elem_of_app, list_elem_of_singleton. tauto.
Qed.

Lemma uniqueBy_filter_elem seen l x :
  x ∈ uniqueBy_filter keyf seen l ->
  exists l1 l2, l = (l1 ++ x :: l2) /\ (keyf x ∉ seen) /\ (keyf x ∉ map keyf l1).
Proof.
  revert seen. induction l as [|a l IH]; intros seen; cbn [uniqueBy_filter].
  - by intros ?%elem_of_nil.
  - case_decide as Ha.
    + intros (l1 & l2 & -> & Hs & Hl)%IH. exists (a :: l1), l2.
      split; [done|]. split; [done|]. cbn [map]. apply not_elem_of_cons.
      split; [|done]. intros E. by rewrite E in Hs.
    + intros [->|Hx]%elem_of_cons.
      * exists [], l. split; [done|]. split; [done|]. apply not_elem_of_nil.
      * apply IH in Hx as (l1 & l2 & -> & Hs & Hl). exists (a :: l1), l2.
        rewrite elem_of_app, list_elem_of_singleton in Hs.
        split; [done|]. split; [tauto|]. cbn [map]. apply not_elem_of_cons.
        tauto.
Qed.

Lemma uniqueBy_filter_id seen l :
  NoDup (seen ++ map keyf l) -> uniqueBy_filter keyf seen l = l.
Proof.
  revert seen. induction l as [|a l IH]; intros seen Hnd; cbn [uniqueBy_filter];
    [done|].
  cbn [map] in Hnd. pose proof Hnd as Hnd'.
  apply NoDup_app in Hnd' as (_ & Hd & _).
  rewrite decide_False by (intros Ha; apply (Hd _ Ha); left).
  f_equal. apply IH. by rewrite <- (assoc_L (++)), <- cons_middle.
Qed.

End unique_facts.

(** [uniqueBy] keeps, in the order of the array, the first item of every
    key and nothing else: the result is a subsequence with distinct
    keys, an item is kept exactly when no item in front of it has its
    key, and a second pass keeps everything. *)
Theorem uniqueBy_first_occurrences
    {X K : Type} `{EqDecision K} (keyf : X -> K) (array : list X) :
  uniqueBy keyf array `sublist_of` array
  /\ NoDup (map keyf (uniqueBy keyf array))
  /\ (forall x, x ∈ uniqueBy keyf array
                <-> exists l1 l2, array = (l1 ++ x :: l2) /\ (keyf x ∉ map keyf l1))
  /\ uniqueBy keyf (uniqueBy keyf array) = uniqueBy keyf array.
Proof.
  unfold uniqueBy. split_and!.
  - apply uniqueBy_filter_sublist.
  - apply (uniqueBy_filter_NoDup keyf [] array). constructor.
  - intros x. split.
    + intros (l1 & l2 & E & _ & Hl)%uniqueBy_filter_elem. by exists l1, l2.
    + intros (l1 & l2 & -> & Hl).
      apply uniqueBy_filter_first; [apply not_elem_of_nil|done].
  - apply uniqueBy_filter_id.
    apply (uniqueBy_filter_NoDup keyf [] array). constructor.
Qed.

Lemma uniqueBy_first_occurrences_witness :
  uniqueBy phone scenario = [raj; priya]
  /\ uniqueBy phone scenario `sublist_of` scenario
  /\ NoDup (map phone (uniqueBy phone scenario))
  /\ (forall x, x ∈ uniqueBy phone scenario
                <-> exists l1 l2, scenario = (l1 ++ x :: l2)
                                  /\ (phone x ∉ map phone l1))
  /\ uniqueBy phone (uniqueBy phone scenario) = uniqueBy phone scenario.
Proof.
  split; [reflexivity|]. exact (uniqueBy_first_occurrences phone scenario).
Defined.

Section group_by_facts.
Context {X : Type} (keyf : X -> string).
Implicit Types (groups : Js.JsObject (list X)) (l xs : list X).

Lemma bool_dec_false (b : bool) : {b = false} + {b = true}.
Proof. destruct b; [by right|by left]. Defined.

Lemma fold_left_push (r acc : list X) :
  fold_left (fun v y => v ++ [y]) r acc = acc ++ r.
Proof.
  revert acc. induction r as [|y r IH]; intros acc; cbn [fold_left].
  - by rewrite app_nil_r.
  - by rewrite IH, <- (assoc_L (++) acc [y]).
Qed.

Lemma groupBy_step_own groups item :
  Js.inherited (keyf item) = false ->
  groupBy_step keyf groups item
  = Ok (group_step keyf (fun x => [x]) (fun x g => g ++ [x]) groups item).
Proof.
  intros Hi. unfold groupBy_step, group_step, Js.get. cbv zeta.
  destruct (Js.get_own (keyf item) groups) as [g|] eqn:E.
  - by rewrite (set_own_modify (keyf item) (fun v => v) g), modify_modify.
  - rewrite Hi. by rewrite modify_set_new.
Qed.

Lemma groupBy_step_inherited groups item :
  Js.inherited (keyf item) = true ->
  Js.get_own (keyf item) groups = None ->
  groupBy_step keyf groups item = TypeError.
Proof.
  intros Hi E. unfold groupBy_step, Js.get. cbv zeta. by rewrite E, Hi.
Qed.

Lemma groupBy_loop_grouped groups xs l :
  grouped keyf (fun x => [x]) (fun x g => g ++ [x]) groups xs ->
  Forall (fun x => Js.inherited (keyf x) = false) l ->
  exists o, groupBy_loop keyf groups l = Ok o
            /\ grouped keyf (fun x => [x]) (fun x g => g ++ [x]) o (xs ++ l).
Proof.
  revert groups xs. induction l as [|a l IH]; intros groups xs Hg Hl;
    cbn [groupBy_loop].
  - exists groups. by rewrite app_nil_r.
  - apply Forall_cons in Hl as [Ha Hl].
    rewrite groupBy_step_own by done.
    destruct (IH _ (xs ++ [a]) (group_step_grouped _ _ _ _ _ a Hg) Hl)
      as (o & Ho & Hgo).
    exists o. split; [done|]. by rewrite <- (assoc_L (++) xs [a]) in Hgo.
Qed.

Lemma groupBy_loop_fails groups xs l :
  grouped keyf (fun x => [x]) (fun x g => g ++ [x]) groups xs ->
  Forall (fun x => Js.inherited (keyf x) = false) xs ->
  Exists (fun x => Js.inherited (keyf x) = true) l ->
  groupBy_loop keyf groups l = TypeError.
Proof.
  revert groups xs. induction l as [|a l IH]; intros groups xs Hg Hxs Hl;
    cbn [groupBy_loop]; [by apply Exists_nil in Hl|].
  destruct (Js.inherited (keyf a)) eqn:Ha.
  - rewrite groupBy_step_inherited; [done|done|].
    apply get_own_None. destruct Hg as [-> _].
    rewrite elem_of_first_seen. intros (x & Hk & Hx)%list_elem_of_fmap.
    rewrite Forall_forall in Hxs. specialize (Hxs _ Hx). congruence.
  - apply Exists_cons in Hl as [Hl|Hl]; [congruence|].
    rewrite groupBy_step_own by done.
    apply (IH _ (xs ++ [a])); [by apply group_step_grouped| |done].
    apply Forall_app. split; [done|]. by constructor.
Qed.

End group_by_facts.

(** When no item has a key named like a member of [Object.prototype],
    [groupBy] returns an object whose properties were created in the
    order the keys are first seen, and which holds under each key the
    items of that key in the order of the array. *)
Theorem groupBy_groups {X : Type} (keyf : X -> string) (array : list X) :
  Forall (fun x => Js.inherited (keyf x) = false) array ->
  exists o,
    groupBy keyf array = Ok o
    /\ o.*1 = first_seen (map keyf array)
    /\ forall k, Js.get_own k o
                 = match group_of keyf k array with
                   | [] => None
                   | g => Some g
                   end.
Proof.
  intros Hl.
  destruct (groupBy_loop_grouped keyf [] [] array (grouped_nil _ _ _) Hl)
    as (o & Ho & Hk & Hv).
  exists o. split; [done|]. split; [done|]. intros k. rewrite Hv.
  cbn [app]. destruct (group_of keyf k array) as [|x r]; [done|].
  cbn [group_value]. by rewrite fold_left_push.
Qed.

Lemma groupBy_groups_witness :
  Forall (fun x => Js.inherited (phone x) = false) scenario
  /\ exists o,
       groupBy phone scenario = Ok o
       /\ o.*1 = first_seen (map phone scenario)
       /\ forall k, Js.get_own k o
                    = match group_of phone k scenario with
                      | [] => None
                      | g => Some g
                      end.
Proof.
  assert (Forall (fun x => Js.inherited (phone x) = false) scenario) as H
    by (repeat constructor).
  split; [exact H|]. exact (groupBy_groups phone scenario H).
Defined.

(** [groupBy] throws exactly when some item has a key named like a
    member of [Object.prototype]: that member is then what
    [groups[group]] holds, and it has no [push]. *)
Theorem groupBy_inherited_key {X : Type} (keyf : X -> string) (array : list X) :
  groupBy keyf array = TypeError
  <-> Exists (fun x => Js.inherited (keyf x) = true) array.
Proof.
  split.
  - intros Hf.
    destruct (Forall_Exists_dec
                (fun x => Js.inherited (keyf x) = false)
                (fun x => Js.inherited (keyf x) = true)
                (fun x => bool_dec_false (Js.inherited (keyf x))) array)
      as [Hl|He]; [|done].
    destruct (groupBy_loop_grouped keyf [] [] array (grouped_nil _ _ _) Hl)
      as (o & Ho & _).
    unfold groupBy in Hf. congruence.
  - intros He. by apply (groupBy_loop_fails keyf [] [] array (grouped_nil _ _ _)).
Qed.

(** * The export page *)

Section export_facts.
Implicit Types (o : Js.JsObject Customer) (c : Customer) (l : list Order).

Lemma summaryMap_add_items_own (its : list LineItem) c :
  Forall (fun it => Js.inherited (item it) = false) its ->
  summaryMap_add_items its c
  = Some {| cust_name := cust_name c; cust_phone := cust_phone c;
            cust_items :=
              fold_left (group_step item count_init count_add) its (cust_items c);
            cust_total := add_qtys (cust_total c) its |}.
Proof.
  revert c. induction its as [|it r IH]; intros c Hl; cbn [summaryMap_add_items].
  - by destruct c.
  - apply Forall_cons in Hl as [Hit Hl]. unfold summaryMap_add_item.
    rewrite count_step_group by done. by rewrite IH by done.
Qed.

Lemma summaryMap_step_group o order :
  Js.inherited (phone order) = false ->
  Forall (fun it => Js.inherited (item it) = false) (orders order) ->
  summaryMap_step o order
  = Some (Ok (group_step phone customer_init customer_add o order)).
Proof.
  intros Hk Hl. unfold summaryMap_step, group_step, Js.get. cbv zeta.
  destruct (Js.get_own (phone order) o) as [c0|] eqn:E.
  - rewrite summaryMap_add_items_own by done.
    by rewrite <- (set_own_modify _ (customer_add order) c0).
  - rewrite Hk. by rewrite summaryMap_add_items_own.
Qed.

Lemma summaryMap_loop_grouped l (pre : list Order) o :
  grouped phone customer_init customer_add o pre ->
  own_phones l -> own_items l ->
  exists o', summaryMap_loop o l = Some (Ok o')
             /\ grouped phone customer_init customer_add o' (pre ++ l).
Proof.
  revert pre o. induction l as [|x l IH]; intros pre o Hg Hp Hi.
  - exists o. by rewrite app_nil_r.
  - apply Forall_cons in Hp as [Hx Hp].
    unfold own_items in Hi. cbn [flat_map] in Hi.
    apply Forall_app in Hi as [Hix Hi]. cbn [summaryMap_loop].
    rewrite summaryMap_step_group by done.
    destruct (IH (pre ++ [x]) _ (group_step_grouped _ _ _ _ _ x Hg) Hp Hi)
      as (o' & -> & Hg').
    exists o'. by rewrite <- app_assoc in Hg'.
Qed.

Lemma customer_fold_facts (r : list Order) c :
  let c' := fold_left (fun v y => customer_add y v) r c in
  cust_name c' = cust_name c /\ cust_phone c' = cust_phone c
  /\ cust_total c' = add_qtys (cust_total c) (flat_map orders r).
Proof.
  revert c. induction r as [|y r IH]; intros c; cbn [fold_left flat_map].
  - by split_and!.
  - destruct (IH (customer_add y c)) as (-> & -> & ->). cbn.
    split_and!; [done..|]. by rewrite add_qtys_app.
Qed.

(** What the orders of one phone number leave in its customer. *)
Lemma grouped_customer_entry o l k c :
  grouped phone customer_init customer_add o l ->
  (k, c) ∈ o ->
  cust_phone c = k
  /\ exists first rest,
       orders_of_phone k l = first :: rest
       /\ cust_name c = name first
       /\ cust_total c = total_qty (first :: rest).
Proof.
  intros Hg Hin.
  destruct (grouped_elem _ _ _ _ _ _ _ Hg Hin) as (x & r & Hgr & ->).
  destruct (customer_fold_facts r (customer_init x)) as (Hn & Hp & Ht).
  cbv zeta in Hn, Hp, Ht. rewrite Hn, Hp, Ht.
  cbn [customer_init customer_add cust_name cust_phone cust_total].
  assert (x ∈ group_of phone k l) as Hx by (rewrite Hgr; left).
  apply list_elem_of_In, List.filter_In in Hx as [_ Hx%String.eqb_eq].
  split; [done|]. exists x, r. split; [done|]. split; [done|].
  unfold total_qty, sum_qty. cbn [flat_map]. by rewrite add_qtys_app.
Qed.

Lemma grouped_customer_phones o l :
  grouped phone customer_init customer_add o l ->
  forall e, e ∈ o -> cust_phone e.2 = e.1.
Proof.
  intros Hg [k c] Hin. by destruct (grouped_customer_entry _ _ _ _ Hg Hin).
Qed.

Lemma sum_rows_app (l1 l2 : list SummaryRow) :
  sum_rows (l1 ++ l2) = sum_rows l1 + sum_rows l2.
Proof. induction l1 as [|x r IH]; cbn; [done|]. rewrite IH. lia. Qed.

Lemma sum_rows_Permutation (l1 l2 : list SummaryRow) :
  l1 ≡ₚ l2 -> sum_rows l1 = sum_rows l2.
Proof. induction 1; cbn; lia. Qed.

Lemma sum_rows_modify k (f : Customer -> Customer) c o :
  Js.get_own k o = Some c ->
  sum_rows (map summary_row (Js.modify k f o).*2)
  = sum_rows (map summary_row o.*2) + (cust_total (f c) - cust_total c).
Proof.
  induction o as [|[k0 v] r IH]; cbn [Js.get_own Js.modify]; [done|].
  destruct (String.eqb k0 k).
  - intros [= ->]. cbn. lia.
  - intros H. cbn. rewrite IH by done. lia.
Qed.

Lemma sum_rows_set_new k c o :
  Js.get_own k o = None ->
  sum_rows (map summary_row (Js.set k c o).*2)
  = sum_rows (map summary_row o.*2) + cust_total c.
Proof.
  induction o as [|[k0 v] r IH]; cbn [Js.get_own Js.set]; [cbn; lia|].
  destruct (String.eqb k0 k); [done|].
  intros H. cbn. rewrite IH by done. lia.
Qed.

Lemma abs_rows_Permutation (l1 l2 : list SummaryRow) :
  l1 ≡ₚ l2 -> abs_rows l1 = abs_rows l2.
Proof. induction 1; cbn; lia. Qed.

Lemma abs_rows_nonneg (l1 : list SummaryRow) : 0 <= abs_rows l1.
Proof. induction l1 as [|x r IH]; cbn; lia. Qed.

Lemma abs_rows_modify k (f : Customer -> Customer) c o :
  Js.get_own k o = Some c ->
  abs_rows (map summary_row (Js.modify k f o).*2)
  = abs_rows (map summary_row o.*2)
    + (Z.abs (cust_total (f c)) - Z.abs (cust_total c)).
Proof.
  induction o as [|[k0 v] r IH]; cbn [Js.get_own Js.modify]; [done|].
  destruct (String.eqb k0 k).
  - intros [= ->]. cbn. lia.
  - intros H. cbn. rewrite IH by done. lia.
Qed.

Lemma abs_rows_set_new k c o :
  Js.get_own k o = None ->
  abs_rows (map summary_row (Js.set k c o).*2)
  = abs_rows (map summary_row o.*2) + Z.abs (cust_total c).
Proof.
  induction o as [|[k0 v] r IH]; cbn [Js.get_own Js.set]; [cbn; lia|].
  destruct (String.eqb k0 k); [done|].
  intros H. cbn. rewrite IH by done. lia.
Qed.

Lemma abs_rows_elem k c o :
  Js.get_own k o = Some c ->
  Z.abs (cust_total c) <= abs_rows (map summary_row o.*2).
Proof.
  induction o as [|[k0 v] r IH]; cbn [Js.get_own]; [done|].
  pose proof (abs_rows_nonneg (map summary_row r.*2)).
  destruct (String.eqb k0 k).
  - intros [= ->]. cbn. lia.
  - intros H'. specialize (IH H'). cbn. lia.
Qed.

(** One order adds the exact sum of its quantities to the rows while the
    magnitudes stay within [2 ^ 53]. *)
Lemma sum_rows_group_step o order :
  abs_rows (map summary_row o.*2) + abs_qty (orders order) <= 2 ^ 53 ->
  let o' := group_step phone customer_init customer_add o order in
  sum_rows (map summary_row o'.*2)
  = sum_rows (map summary_row o.*2) + exact_qty (orders order)
  /\ abs_rows (map summary_row o'.*2)
     <= abs_rows (map summary_row o.*2) + abs_qty (orders order).
Proof.
  intros Hb. cbv zeta. unfold group_step.
  pose proof (exact_qty_bound (orders order)).
  pose proof (abs_rows_nonneg (map summary_row o.*2)).
  destruct (Js.get_own (phone order) o) as [c|] eqn:E.
  - pose proof (abs_rows_elem _ _ _ E).
    rewrite (sum_rows_modify _ _ c), (abs_rows_modify _ _ c) by done.
    cbn [customer_add cust_total]. rewrite add_qtys_exact by lia. lia.
  - rewrite sum_rows_set_new, abs_rows_set_new by done.
    cbn [customer_init customer_add cust_total].
    rewrite add_qtys_exact by (cbn; lia). lia.
Qed.

Lemma sum_rows_grouped l o :
  abs_rows (map summary_row o.*2) + abs_qty (flat_map orders l) <= 2 ^ 53 ->
  sum_rows (map summary_row
              (fold_left (group_step phone customer_init customer_add) l o).*2)
  = sum_rows (map summary_row o.*2) + exact_total l.
Proof.
  revert o. induction l as [|x l IH]; intros o Hb; cbn [fold_left].
  - unfold exact_total. cbn. lia.
  - cbn [flat_map] in Hb. rewrite abs_qty_app in Hb.
    pose proof (abs_qty_nonneg (flat_map orders l)).
    destruct (sum_rows_group_step o x) as [E1 E2]; [lia|].
    cbv zeta in E1, E2. rewrite IH by lia. rewrite E1.
    unfold exact_total. cbn [flat_map]. rewrite exact_qty_app. lia.
Qed.

Lemma summaryMap_loop_fold l o :
  own_phones l -> own_items l ->
  summaryMap_loop o l
  = Some (Ok (fold_left (group_step phone customer_init customer_add) l o)).
Proof.
  revert o. induction l as [|x l IH]; intros o Hp Hi; [done|].
  apply Forall_cons in Hp as [Hx Hp].
  unfold own_items in Hi. cbn [flat_map] in Hi.
  apply Forall_app in Hi as [Hix Hi]. cbn [summaryMap_loop fold_left].
  rewrite summaryMap_step_group by done. by apply IH.
Qed.

Lemma entries_keys o l :
  grouped phone customer_init customer_add o l ->
  map out_phone (map summary_row (Js.values o)) = (Js.entries o).*1.
Proof.
  intros Hg. unfold Js.values.
  assert (forall e, e ∈ Js.entries o -> cust_phone e.2 = e.1) as H.
  { intros e He. rewrite entries_Permutation in He.
    by apply (grouped_customer_phones _ _ Hg). }
  induction (Js.entries o) as [|e r IH]; [done|]. cbn.
  rewrite (H e) by left. f_equal. apply IH. intros e' He'. apply H. by right.
Qed.

End export_facts.

(** When no phone number and no item is named like a member of
    [Object.prototype], the summary export has one row per phone number,
    whatever the names: the rows carry the distinct phone numbers of the
    orders, phone numbers that are array indices in ascending numeric
    order ahead of the others, which are in first-seen order; and while
    the magnitudes of the quantities add up to [2 ^ 53] at most, the
    quantities of the rows add up exactly to the sum of every line-item
    quantity. *)
Theorem handleExport_summary_rows (l : list Order) :
  own_phones l -> own_items l ->
  exists rows,
    handleExport_summary l = Some (Ok rows)
    /\ map out_phone rows ≡ₚ JsMore.Set_of (map phone l)
    /\ (forall a b, before a b rows ->
          entries_order (map phone l) (out_phone a) (out_phone b))
    /\ (safe_quantities l -> sum_rows rows = exact_total l).
Proof.
  intros Hp Hi.
  destruct (summaryMap_loop_grouped l [] [] (grouped_nil _ _ _) Hp Hi)
    as (o & Ho & Hg).
  cbn [app] in Hg. unfold handleExport_summary. rewrite Ho.
  eexists. split; [done|]. split_and!.
  - rewrite (entries_keys _ _ Hg), entries_Permutation.
    destruct Hg as [-> _]. done.
  - intros a b Hb.
    apply (before_map out_phone) in Hb. rewrite (entries_keys _ _ Hg) in Hb.
    apply before_map_inv in Hb as (e1 & e2 & -> & -> & Hb).
    apply (entries_before o (map phone l)); [by destruct Hg|done].
  - intros Hsafe.
    rewrite (summaryMap_loop_fold l [] Hp Hi) in Ho. injection Ho as <-.
    unfold Js.values.
    rewrite (sum_rows_Permutation _
               (map summary_row
                  (fold_left (group_step phone customer_init customer_add) l []).*2)).
    + rewrite sum_rows_grouped; [cbn; lia|exact Hsafe].
    + apply Permutation_map, fmap_Permutation, entries_Permutation.
Qed.

Lemma handleExport_summary_rows_witness :
  own_phones sample_phones /\ own_items sample_phones
  /\ map out_phone
       (match handleExport_summary sample_phones with
        | Some (Ok rows) => rows
        | _ => []
        end)
     = ["1111111111"; "3333333333"; "9999999999"]
  /\ exists rows,
       handleExport_summary sample_phones = Some (Ok rows)
       /\ map out_phone rows ≡ₚ JsMore.Set_of (map phone sample_phones)
       /\ (forall a b, before a b rows ->
             entries_order (map phone sample_phones) (out_phone a) (out_phone b))
       /\ (safe_quantities sample_phones ->
           sum_rows rows = exact_total sample_phones).
Proof.
  assert (own_phones sample_phones) as H1 by repeat constructor.
  assert (own_items sample_phones) as H2 by repeat constructor.
  split; [exact H1|]. split; [exact H2|]. split; [reflexivity|].
  exact (handleExport_summary_rows sample_phones H1 H2).
Defined.

(** When no phone number and no item is named like a member of
    [Object.prototype], every row of the summary export stands for the
    orders of its phone number: it has the name of the first of them, so
    that of two spellings the first one is written out, and its quantity
    is the sum the code computes of the line-item quantities of all of
    them. *)
Theorem handleExport_summary_first_name (l : list Order) :
  own_phones l -> own_items l ->
  exists rows,
    handleExport_summary l = Some (Ok rows)
    /\ forall row, row ∈ rows ->
         exists first rest,
           orders_of_phone (out_phone row) l = first :: rest
           /\ out_name row = name first
           /\ out_totalQuantity row = total_qty (first :: rest).
Proof.
  intros Hp Hi.
  destruct (summaryMap_loop_grouped l [] [] (grouped_nil _ _ _) Hp Hi)
    as (o & Ho & Hg).
  cbn [app] in Hg. unfold handleExport_summary. rewrite Ho.
  eexists. split; [done|].
  intros row (c & -> & ([k c'] & -> & Hin)%list_elem_of_fmap)%list_elem_of_fmap.
  rewrite entries_Permutation in Hin. cbn.
  destruct (grouped_customer_entry _ _ _ _ Hg Hin)
    as (-> & first & rest & Ho' & Hn & Ht).
  by exists first, rest.
Qed.

Lemma handleExport_summary_first_name_witness :
  own_phones scenario /\ own_items scenario
  /\ exists rows,
       handleExport_summary scenario = Some (Ok rows)
       /\ forall row, row ∈ rows ->
            exists first rest,
              orders_of_phone (out_phone row) scenario = first :: rest
              /\ out_name row = name first
              /\ out_totalQuantity row = total_qty (first :: rest).
Proof.
  assert (own_phones scenario) as H1 by repeat constructor.
  assert (own_items scenario) as H2 by repeat constructor.
  split; [exact H1|]. split; [exact H2|].
  exact (handleExport_summary_first_name scenario H1 H2).
Defined.

(** The two summaries of the application differ: the export is per phone
    number, [getOrdersSummary] per name and phone number. On orders
    whose phone numbers have ten characters each the export never has
    more rows; and while the magnitudes of the quantities add up to
    [2 ^ 53] at most, both account for the same total quantity. *)
Theorem handleExport_summary_vs_getOrdersSummary (l : list Order) :
  own_keys l -> own_phones l -> own_items l ->
  Forall (fun order => String.length (phone order) = 10%nat) l ->
  exists rows out,
    handleExport_summary l = Some (Ok rows)
    /\ getOrdersSummary l = Ok out
    /\ (length rows <= length out)%nat
    /\ (safe_quantities l -> sum_rows rows = sum_totals out).
Proof.
  intros Hk Hp Hi Hlen.
  destruct (summaryMap_loop_grouped l [] [] (grouped_nil _ _ _) Hp Hi)
    as (o & Ho & Hg).
  destruct (getOrdersSummary_values l Hk) as (o2 & Ho2 & Hg2).
  cbn [app] in Hg. unfold handleExport_summary. rewrite Ho.
  eexists _, _. split; [done|]. split; [exact Ho2|]. split.
  - rewrite length_map. unfold Js.values. rewrite !length_fmap.
    rewrite entries_Permutation.
    rewrite <- (length_fmap fst o), <- (length_fmap fst o2).
    destruct Hg as [-> _], Hg2 as [-> _].
    apply first_seen_coarser. intros a b Ha Hb. apply summary_key_phone.
    rewrite Forall_forall in Hlen. by rewrite (Hlen a Ha), (Hlen b Hb).
  - intros Hsafe.
    destruct (getOrdersSummary_total _ _ Hsafe Ho2) as [-> _].
    rewrite (summaryMap_loop_fold l [] Hp Hi) in Ho. injection Ho as <-.
    unfold Js.values.
    rewrite (sum_rows_Permutation _
               (map summary_row
                  (fold_left (group_step phone customer_init customer_add) l []).*2)).
    + rewrite sum_rows_grouped; [cbn; lia|exact Hsafe].
    + apply Permutation_map, fmap_Permutation, entries_Permutation.
Qed.

Lemma handleExport_summary_vs_getOrdersSummary_witness :
  own_keys scenario /\ own_phones scenario /\ own_items scenario
  /\ Forall (fun order => String.length (phone order) = 10%nat) scenario
  /\ exists rows out,
       handleExport_summary scenario = Some (Ok rows)
       /\ getOrdersSummary scenario = Ok out
       /\ (length rows <= length out)%nat
       /\ (safe_quantities scenario -> sum_rows rows = sum_totals out).
Proof.
  assert (own_keys scenario) as H1 by repeat constructor.
  assert (own_phones scenario) as H2 by repeat constructor.
  assert (own_items scenario) as H3 by repeat constructor.
  assert (Forall (fun order => String.length (phone order) = 10%nat) scenario)
    as H4 by repeat constructor.
  split; [exact H1|]. split; [exact H2|]. split; [exact H3|]. split; [exact H4|].
  exact (handleExport_summary_vs_getOrdersSummary scenario H1 H2 H3 H4).
Defined.
